(** * Corpus Sync Engine: the upload-and-reconciliation service

    A shallow embedding of the Gemini file-search service module
    (listRagStores ... cleanupDuplicateStores) and the properties of its
    ledger, differ, uploader, orchestrator and reconciliation code.

    Conventions of the embedding.
    - Asynchronous functions run to completion one after the other (the
      module never starts two promises at once), so an [async] function is
      a state transformer over a [World].
    - A JavaScript exception is the [Throw] result; [try]/[catch] is
      [try_catch].  An exception value is represented by its message.
    - Console output is not part of the model.  A progress callback does
      not throw; calling it is recorded as an event.
    - Everything outside the module (clock, local files, the remote
      file-search service) lives in the [World]; every externally visible
      action is appended to its [trace], oldest first.  The world also says
      which outside calls fail: ledger writes, file reads, directory
      listings, store listing, creation and deletion, and each document
      submission and poll. *)

From stdpp Require Import gmap strings list fin_maps pretty.

Set Default Proof Using "Type".
Open Scope string_scope.
Open Scope list_scope.
Open Scope nat_scope.

(** ** Node library functions used by the module *)

(** [path.extname], [path.basename], [path.join] and
    [String.prototype.toLowerCase] are library code; the module is
    verified for any implementation of them. *)
Class NodeLib := {
  path_extname : string → string;
  path_basename : string → string;
  path_join : string → string → string;
  toLowerCase : string → string
}.

(** A small POSIX/ASCII implementation, used to run the model on concrete
    directories. *)
Module Posix.

Definition lower_ascii (c : Ascii.ascii) : Ascii.ascii :=
  let n := Ascii.nat_of_ascii c in
  if (65 <=? n)%nat && (n <=? 90)%nat then Ascii.ascii_of_nat (n + 32) else c.

Definition slash : Ascii.ascii := Ascii.ascii_of_nat 47.
Definition dot : Ascii.ascii := Ascii.ascii_of_nat 46.

Definition lower (s : string) : string :=
  String.string_of_list_ascii (map lower_ascii (String.list_ascii_of_string s)).

(** Characters after the last ["/"]. *)
Fixpoint base_chars (acc l : list Ascii.ascii) : list Ascii.ascii :=
  match l with
  | [] => acc
  | c :: r => if Ascii.eqb c slash then base_chars [] r else base_chars (acc ++ [c]) r
  end.

Definition basename (p : string) : string :=
  String.string_of_list_ascii (base_chars [] (String.list_ascii_of_string p)).

(** Suffix starting at the last ["."] that is not the first character. *)
Fixpoint ext_chars (first : bool) (acc : option (list Ascii.ascii)) (l : list Ascii.ascii) : list Ascii.ascii :=
  match l with
  | [] => default [] acc
  | c :: r =>
      if Ascii.eqb c dot
      then (if first then ext_chars false acc r else ext_chars false (Some [c]) r)
      else ext_chars false ((λ a, a ++ [c]) <$> acc) r
  end.

Definition extname (p : string) : string :=
  let base := base_chars [] (String.list_ascii_of_string p) in
  if bool_decide (base = [dot; dot]) then ""
  else String.string_of_list_ascii (ext_chars true None base).

Definition join (d f : string) : string := d +:+ "/" +:+ f.

End Posix.

Definition posix : NodeLib :=
  {| path_extname := Posix.extname;
     path_basename := Posix.basename;
     path_join := Posix.join;
     toLowerCase := Posix.lower |}.

(** ** JavaScript collections *)

(** [Array.prototype.includes] on an array of strings. *)
Definition includes (l : list string) (x : string) : bool := bool_decide (x ∈ l).

(** A [Set<string>]: iteration follows insertion order, so the model is
    the list of members in the order they were first added. *)
Module JsSet.
Definition has (s : list string) (x : string) : bool := bool_decide (x ∈ s).
Definition add (s : list string) (x : string) : list string :=
  if has s x then s else s ++ [x].
(** [new Set(array)] *)
Definition of_array (l : list string) : list string := foldl add [] l.
Definition size (s : list string) : nat := length s.
End JsSet.

(** A [Map<string, string>], again in insertion order. *)
Module JsMap.
Definition has (m : list (string * string)) (k : string) : bool :=
  bool_decide (k ∈ m.*1).
Fixpoint set (m : list (string * string)) (k v : string) : list (string * string) :=
  match m with
  | [] => [(k, v)]
  | (k', v') :: r => if decide (k' = k) then (k', v) :: r else (k', v') :: set r k v
  end.
Definition keys (m : list (string * string)) : list string := m.*1.
End JsMap.

(** ** Data model *)

(** One entry of [.upload-tracker.json].  [lastUpdate] is the clock
    reading that [toISOString] renders. *)
Record TrackerEntry := {
  uploadedFiles : list string;
  lastUpdate : N
}.

(** A file-search store as [fileSearchStores.list] reports it.  The
    service sends the int64 document count as a decimal string, or omits
    it; [activeDocumentsCount] holds the number that string denotes. *)
Record Store := {
  name : string;
  displayName : string;
  activeDocumentsCount : option N
}.

(** What the remote ingestion pipeline does with one submitted document. *)
Inductive Ingestion :=
| SubmitThrows (msg : string)
    (* uploadToFileSearchStore rejects *)
| PollThrows (pending : nat) (msg : string)
    (* operations.get answers "not done" [pending] times, then rejects *)
| DoneAfter (polls : nat)
    (* done is first reported by poll number [polls]; 0: done on submit *)
| Stalls.
    (* the operation never reports done *)

(** The long-running-operation handle. *)
Record Operation := {
  op_file : string;
  op_script : Ingestion;
  op_polled : nat;
  done : bool
}.

Inductive Event :=
| EvDelay (ms : N)
| EvFileProgress (fileName : string)
| EvProgress (current total : nat) (fileName : string)
| EvReadFile (filePath : string)
| EvSubmit (ragStoreName fileName contentType : string)
| EvPoll (fileName : string)
| EvSaveTracker (tracker : gmap string TrackerEntry)
| EvCreateStore (displayName ragStoreName : string)
| EvDeleteStore (ragStoreName : string).

Record World := {
  (* the module-level client: [initialize] has been called *)
  ai : bool;
  clock : N;
  trace : list Event;
  (* local files *)
  tracker_file : option (gmap string TrackerEntry);
      (* None: the file is missing or does not parse *)
  fs_write_fails : bool;
  fs_readdir : string → option (list string);
  fs_readable : string → bool;
  (* the remote service *)
  stores : list Store;
  list_fails : bool;
  create_fails : bool;
  delete_fails : string → bool;
  minted : nat;
  mint : nat → string;
      (* the resource name given to the n-th store created *)
  submissions : nat;
  ingestion : nat → string → Ingestion
      (* fate of the n-th submission, by file name *)
}.

Definition set_clock (c : N) (w : World) : World :=
  {| ai := ai w; clock := c; trace := trace w; tracker_file := tracker_file w;
     fs_write_fails := fs_write_fails w; fs_readdir := fs_readdir w;
     fs_readable := fs_readable w; stores := stores w; list_fails := list_fails w;
     create_fails := create_fails w; delete_fails := delete_fails w;
     minted := minted w; mint := mint w; submissions := submissions w;
     ingestion := ingestion w |}.

Definition emit (e : Event) (w : World) : World :=
  {| ai := ai w; clock := clock w; trace := trace w ++ [e]; tracker_file := tracker_file w;
     fs_write_fails := fs_write_fails w; fs_readdir := fs_readdir w;
     fs_readable := fs_readable w; stores := stores w; list_fails := list_fails w;
     create_fails := create_fails w; delete_fails := delete_fails w;
     minted := minted w; mint := mint w; submissions := submissions w;
     ingestion := ingestion w |}.

Definition set_tracker_file (t : option (gmap string TrackerEntry)) (w : World) : World :=
  {| ai := ai w; clock := clock w; trace := trace w; tracker_file := t;
     fs_write_fails := fs_write_fails w; fs_readdir := fs_readdir w;
     fs_readable := fs_readable w; stores := stores w; list_fails := list_fails w;
     create_fails := create_fails w; delete_fails := delete_fails w;
     minted := minted w; mint := mint w; submissions := submissions w;
     ingestion := ingestion w |}.

Definition set_stores (s : list Store) (w : World) : World :=
  {| ai := ai w; clock := clock w; trace := trace w; tracker_file := tracker_file w;
     fs_write_fails := fs_write_fails w; fs_readdir := fs_readdir w;
     fs_readable := fs_readable w; stores := s; list_fails := list_fails w;
     create_fails := create_fails w; delete_fails := delete_fails w;
     minted := minted w; mint := mint w; submissions := submissions w;
     ingestion := ingestion w |}.

Definition set_minted (n : nat) (w : World) : World :=
  {| ai := ai w; clock := clock w; trace := trace w; tracker_file := tracker_file w;
     fs_write_fails := fs_write_fails w; fs_readdir := fs_readdir w;
     fs_readable := fs_readable w; stores := stores w; list_fails := list_fails w;
     create_fails := create_fails w; delete_fails := delete_fails w;
     minted := n; mint := mint w; submissions := submissions w;
     ingestion := ingestion w |}.

Definition set_submissions (n : nat) (w : World) : World :=
  {| ai := ai w; clock := clock w; trace := trace w; tracker_file := tracker_file w;
     fs_write_fails := fs_write_fails w; fs_readdir := fs_readdir w;
     fs_readable := fs_readable w; stores := stores w; list_fails := list_fails w;
     create_fails := create_fails w; delete_fails := delete_fails w;
     minted := minted w; mint := mint w; submissions := n;
     ingestion := ingestion w |}.

Definition set_ingestion (f : nat → string → Ingestion) (w : World) : World :=
  {| ai := ai w; clock := clock w; trace := trace w; tracker_file := tracker_file w;
     fs_write_fails := fs_write_fails w; fs_readdir := fs_readdir w;
     fs_readable := fs_readable w; stores := stores w; list_fails := list_fails w;
     create_fails := create_fails w; delete_fails := delete_fails w;
     minted := minted w; mint := mint w; submissions := submissions w;
     ingestion := f |}.

Definition set_readdir (f : string → option (list string)) (w : World) : World :=
  {| ai := ai w; clock := clock w; trace := trace w; tracker_file := tracker_file w;
     fs_write_fails := fs_write_fails w; fs_readdir := f;
     fs_readable := fs_readable w; stores := stores w; list_fails := list_fails w;
     create_fails := create_fails w; delete_fails := delete_fails w;
     minted := minted w; mint := mint w; submissions := submissions w;
     ingestion := ingestion w |}.

(** A freshly started server: client initialised, no ledger file, no
    stores, every file readable, every upload done at the first poll. *)
Definition freshWorld : World :=
  {| ai := true; clock := 0; trace := []; tracker_file := None;
     fs_write_fails := false; fs_readdir := λ _, None; fs_readable := λ _, true;
     stores := []; list_fails := false; create_fails := false;
     delete_fails := λ _, false; minted := 0;
     mint := λ n, "fileSearchStores/" +:+ pretty n;
     submissions := 0; ingestion := λ _ _, DoneAfter 1 |}.

(** A ledger that already records ["B.txt"] for the store. *)
Definition resumedWorld : World :=
  set_tracker_file
    (Some {[ "store" := {| uploadedFiles := ["B.txt"]; lastUpdate := 0 |} ]}) freshWorld.

(** A hand-edited ledger that holds a name twice. *)
Definition legacyWorld : World :=
  set_tracker_file
    (Some {[ "store" := {| uploadedFiles := ["a.txt"; "b.txt"; "a.txt"];
                           lastUpdate := 0 |} ]}) freshWorld.

(** A service that rejects every submission. *)
Definition rejectingWorld : World := set_ingestion (λ _ _, SubmitThrows "503") freshWorld.

(** A service whose first operation never completes. *)
Definition stallingWorld : World :=
  set_ingestion (λ n _, match n with 0 => Stalls | _ => DoneAfter 2 end) freshWorld.

(** A server whose documents directory ["docs"] lists [entries]. *)
Definition docsWorld (entries : list string) : World :=
  set_readdir (λ d, if String.eqb d "docs" then Some entries else None) freshWorld.

(** One document, uploaded without trouble. *)
Definition oneDocWorld : World := docsWorld ["a.txt"].

(** Five documents, the third of which the service rejects every time. *)
Definition fiveDocsWorld : World :=
  set_ingestion (λ _ f, if String.eqb f "d3.txt" then SubmitThrows "503" else DoneAfter 1)
    (docsWorld ["d1.txt"; "d2.txt"; "d3.txt"; "d4.txt"; "d5.txt"]).

(** What each kind of event does to the world besides being recorded:
    a delay moves the clock, a successful ledger write replaces the file,
    a submission is counted, creating and deleting change the store list. *)
Definition happen (w : World) (e : Event) : World :=
  match e with
  | EvDelay ms => emit e (set_clock (clock w + ms)%N w)
  | EvSaveTracker tracker => emit e (set_tracker_file (Some tracker) w)
  | EvSubmit _ _ _ => emit e (set_submissions (S (submissions w)) w)
  | EvCreateStore display ragStoreName =>
      emit e (set_minted (S (minted w))
                (set_stores (stores w ++ [{| name := ragStoreName; displayName := display;
                                             activeDocumentsCount := None |}]) w))
  | EvDeleteStore ragStoreName =>
      emit e (set_stores
                (List.filter (λ s, negb (String.eqb (name s) ragStoreName)) (stores w)) w)
  | _ => emit e w
  end.

Arguments happen : simpl never.

(** A sequence of events, oldest first. *)
Definition play (events : list Event) (w : World) : World := foldl happen w events.

Arguments play : simpl never.

(** ** Exceptions and state *)

Inductive Res (A : Type) :=
| Ok (a : A)
| Throw (msg : string).
Arguments Ok {A} a.
Arguments Throw {A} msg.

Definition M (A : Type) : Type := World → World * Res A.

Definition ret {A} (a : A) : M A := λ w, (w, Ok a).
Definition throw {A} (msg : string) : M A := λ w, (w, Throw msg).
Definition bind {A B} (m : M A) (k : A → M B) : M B :=
  λ w, match m w with
       | (w', Ok a) => k a w'
       | (w', Throw e) => (w', Throw e)
       end.
Definition try_catch {A} (body : M A) (handler : string → M A) : M A :=
  λ w, match body w with
       | (w', Ok a) => (w', Ok a)
       | (w', Throw e) => handler e w'
       end.
Definition perform (e : Event) : M unit := λ w, (happen w e, Ok tt).
Definition gets {A} (f : World → A) : M A := λ w, (w, Ok (f w)).

Declare Scope js_scope.
Delimit Scope js_scope with js.
Notation "x <- c1 ;; c2" := (bind c1 (λ x, c2))
  (at level 20, c1 at level 99, c2 at level 200) : js_scope.
Open Scope js_scope.

(** [if (!ai) throw new Error("Gemini AI not initialized")] *)
Definition require_ai : M unit :=
  λ w, if ai w then (w, Ok tt) else (w, Throw "Gemini AI not initialized").

(** [delay(ms)]: the timer fires after [ms] milliseconds. *)
Definition delay (ms : N) : M unit := perform (EvDelay ms).

(** [new Date().toISOString()] *)
Definition date_now : M N := gets clock.

(** ** Upload ledger *)

Definition loadUploadTracker : M (gmap string TrackerEntry) :=
  gets (λ w, default ∅ (tracker_file w)).

(** [writeFileSync] inside [try]/[catch]: a failed write is only logged. *)
Definition saveUploadTracker (tracker : gmap string TrackerEntry) : M unit :=
  λ w, if fs_write_fails w then (w, Ok tt) else perform (EvSaveTracker tracker) w.

(** The ledger is a plain object, so [tracker[name]] also finds what
    every object inherits from [Object.prototype]: for these names the
    lookup gives a function, or the prototype itself, when the ledger has
    no entry of its own under the name. *)
Definition objectPrototypeKeys : list string :=
  ["constructor"; "__defineGetter__"; "__defineSetter__"; "hasOwnProperty";
   "__lookupGetter__"; "__lookupSetter__"; "isPrototypeOf"; "propertyIsEnumerable";
   "toString"; "valueOf"; "__proto__"; "toLocaleString"].

Definition inherited (name : string) : bool := includes objectPrototypeKeys name.

(** [tracker[name]] *)
Inductive Property :=
| OwnEntry (entry : TrackerEntry)
| InheritedValue
| Undefined.

Definition property (tracker : gmap string TrackerEntry) (name : string) : Property :=
  match tracker !! name with
  | Some entry => OwnEntry entry
  | None => if inherited name then InheritedValue else Undefined
  end.

(** The [TypeError] of reading [prop] of [undefined]. *)
Definition readOfUndefined (prop : string) : string :=
  "Cannot read properties of undefined (reading '" +:+ prop +:+ "')".

(** [!tracker[name]] is true only for [undefined]: an entry is created
    for a name that finds nothing, not for one that finds an inherited
    value.  An inherited value has no [uploadedFiles], so calling
    [.includes] on it throws. *)
Definition addUploadedFile (ragStoreName fileName : string) : M unit :=
  tracker <- loadUploadTracker ;;
  now <- date_now ;;
  let tracker :=
    match property tracker ragStoreName with
    | Undefined => <[ragStoreName := {| uploadedFiles := []; lastUpdate := now |}]> tracker
    | _ => tracker
    end in
  match property tracker ragStoreName with
  | OwnEntry entry =>
      if negb (includes (uploadedFiles entry) fileName) then
        now' <- date_now ;;
        saveUploadTracker
          (<[ragStoreName := {| uploadedFiles := uploadedFiles entry ++ [fileName];
                                lastUpdate := now' |}]> tracker)
      else ret tt
  | _ => throw (readOfUndefined "includes")
  end.

Definition clearUploadTracker (ragStoreName : string) : M unit :=
  tracker <- loadUploadTracker ;;
  saveUploadTracker (delete ragStoreName tracker).

(** [tracker[name]?.uploadedFiles || []]: an inherited value has no
    [uploadedFiles], so the list is empty for every name without an entry
    of its own. *)
Definition listDocumentsInRagStore (ragStoreName : string) : M (list string) :=
  tracker <- loadUploadTracker ;;
  let uploaded := default [] (uploadedFiles <$> tracker !! ragStoreName) in
  let uniqueFiles := JsSet.of_array uploaded in
  _ <- (if negb (JsSet.size uniqueFiles =? length uploaded)%nat then
          now <- date_now ;;
          saveUploadTracker
            (<[ragStoreName := {| uploadedFiles := uniqueFiles; lastUpdate := now |}]>
               tracker)
        else ret tt) ;;
  ret uniqueFiles.

Definition getUploadedFilesList (ragStoreName : string) : M (list string) :=
  tracker <- loadUploadTracker ;;
  ret (default [] (uploadedFiles <$> tracker !! ragStoreName)).

Record DedupReport := {
  before : nat;
  after : nat;
  duplicatesRemoved : nat
}.

(** The early return is taken only when [tracker[name]] is [undefined];
    on an inherited value [.uploadedFiles.length] throws. *)
Definition deduplicateTrackerEntries (ragStoreName : string) : M DedupReport :=
  tracker <- loadUploadTracker ;;
  match property tracker ragStoreName with
  | Undefined => ret {| before := 0; after := 0; duplicatesRemoved := 0 |}
  | InheritedValue => throw (readOfUndefined "length")
  | OwnEntry entry =>
      let beforeCount := length (uploadedFiles entry) in
      let uniqueFiles := JsSet.of_array (uploadedFiles entry) in
      let afterCount := length uniqueFiles in
      now <- date_now ;;
      _ <- saveUploadTracker
        (<[ragStoreName := {| uploadedFiles := uniqueFiles; lastUpdate := now |}]> tracker) ;;
      ret {| before := beforeCount; after := afterCount;
             duplicatesRemoved := beforeCount - afterCount |}
  end.

(** ** Remote store directory *)

(** [ai.fileSearchStores.list()] *)
Definition fileSearchStores_list : M (list Store) :=
  λ w, if list_fails w then (w, Throw "fileSearchStores.list failed")
       else (w, Ok (stores w)).

(** [ai.fileSearchStores.create({ config: { displayName } })]: the service
    picks the resource name; a new store holds no documents. *)
Definition fileSearchStores_create (display : string) : M Store :=
  λ w, if create_fails w then (w, Throw "fileSearchStores.create failed")
       else
         let s := {| name := mint w (minted w); displayName := display;
                     activeDocumentsCount := None |} in
         (happen w (EvCreateStore display (name s)), Ok s).

(** [ai.fileSearchStores.delete({ name, config: { force: true } })] *)
Definition fileSearchStores_delete (ragStoreName : string) : M unit :=
  λ w, if delete_fails w ragStoreName then (w, Throw "fileSearchStores.delete failed")
       else perform (EvDeleteStore ragStoreName) w.

Definition listRagStores : M (list Store) :=
  _ <- require_ai ;;
  try_catch fileSearchStores_list (λ _, ret []).

(** [parseInt(s.activeDocumentsCount || '0')] *)
Definition documentCount (s : Store) : N := default 0%N (activeDocumentsCount s).

(** The reducer [(best, current) => currentCount > bestCount ? current : best]. *)
Definition moreDocuments (best current : Store) : Store :=
  if (documentCount best <? documentCount current)%N then current else best.

Definition matching (display : string) (l : list Store) : list Store :=
  List.filter (λ s, String.eqb (displayName s) display) l.

Definition getRagStoreByDisplayName (display : string) : M (option string) :=
  all <- listRagStores ;;
  match matching display all with
  | [] => ret None
  | first :: rest => ret (Some (name (foldl moreDocuments first rest)))
  end.

Definition createRagStore (display : string) : M string :=
  _ <- require_ai ;;
  ragStore <- fileSearchStores_create display ;;
  if String.eqb (name ragStore) "" then throw "Failed to create RAG store: name is missing."
  else ret (name ragStore).

Definition deleteRagStore (ragStoreName : string) : M unit :=
  _ <- require_ai ;;
  _ <- fileSearchStores_delete ragStoreName ;;
  clearUploadTracker ragStoreName.

(** [for (const store of storesToDelete) { try { await deleteRagStore(store.name) } catch {} }] *)
Fixpoint deleteDuplicates (storesToDelete : list Store) : M unit :=
  match storesToDelete with
  | [] => ret tt
  | store :: rest =>
      _ <- try_catch (deleteRagStore (name store)) (λ _, ret tt) ;;
      deleteDuplicates rest
  end.

Definition getOrCreateRagStore (display : string) : M (string * bool) :=
  _ <- require_ai ;;
  all <- listRagStores ;;
  match matching display all with
  | [] =>
      ragStoreName <- createRagStore display ;;
      ret (ragStoreName, true)
  | [only] => ret (name only, false)
  | first :: rest =>
      let storeToKeep := foldl moreDocuments first rest in
      let storesToDelete :=
        List.filter (λ s, negb (String.eqb (name s) (name storeToKeep))) (first :: rest) in
      _ <- deleteDuplicates storesToDelete ;;
      ret (name storeToKeep, false)
  end.

Record CleanupReport := {
  found : nat;
  deleted : nat;
  kept : option string;
  deletedStores : list string
}.

(** The deleting loop of [cleanupDuplicateStores], which also collects the
    names whose deletion went through. *)
Fixpoint deleteAndCollect (storesToDelete : list Store) (deletedSoFar : list string)
  : M (list string) :=
  match storesToDelete with
  | [] => ret deletedSoFar
  | store :: rest =>
      deletedSoFar' <-
        try_catch (_ <- deleteRagStore (name store) ;; ret (deletedSoFar ++ [name store]))
                  (λ _, ret deletedSoFar) ;;
      deleteAndCollect rest deletedSoFar'
  end.

Definition cleanupDuplicateStores (display : string) : M CleanupReport :=
  _ <- require_ai ;;
  all <- listRagStores ;;
  let matchingStores := matching display all in
  if (length matchingStores <=? 1)%nat then
    ret {| found := length matchingStores; deleted := 0;
           kept := match head matchingStores with
                   | Some store => if String.eqb (name store) "" then None
                                   else Some (name store)
                   | None => None
                   end;
           deletedStores := [] |}
  else
    match matchingStores with
    | [] => ret {| found := 0; deleted := 0; kept := None; deletedStores := [] |}
    | first :: rest =>
        let storeToKeep := foldl moreDocuments first rest in
        let storesToDelete :=
          List.filter (λ s, negb (String.eqb (name s) (name storeToKeep))) matchingStores in
        gone <- deleteAndCollect storesToDelete [] ;;
        ret {| found := length matchingStores; deleted := length gone;
               kept := Some (name storeToKeep); deletedStores := gone |}
    end.

(** ** Uploader *)

Definition maxRetries : nat := 5.
Definition baseDelay : N := 2000.
Definition maxPollAttempts : nat := 120.

(** [fs.readFileSync(filePath)] *)
Definition readFileSync (filePath : string) : M unit :=
  λ w, if fs_readable w filePath then perform (EvReadFile filePath) w
       else (happen w (EvReadFile filePath),
             Throw ("ENOENT: no such file or directory, open '" +:+ filePath +:+ "'")).

(** [ai.fileSearchStores.uploadToFileSearchStore(...)] *)
Definition uploadToFileSearchStore (ragStoreName fileName contentType : string) : M Operation :=
  λ w,
    let script := ingestion w (submissions w) fileName in
    let w' := happen w (EvSubmit ragStoreName fileName contentType) in
    match script with
    | SubmitThrows msg => (w', Throw msg)
    | DoneAfter 0 =>
        (w', Ok {| op_file := fileName; op_script := script; op_polled := 0;
                   done := true |})
    | _ =>
        (w', Ok {| op_file := fileName; op_script := script; op_polled := 0;
                   done := false |})
    end.

(** [ai.operations.get({ operation: op })] *)
Definition operations_get (op : Operation) : M Operation :=
  λ w,
    let w' := happen w (EvPoll (op_file op)) in
    let k := S (op_polled op) in
    let answer d := {| op_file := op_file op; op_script := op_script op;
                       op_polled := k; done := d |} in
    match op_script op with
    | SubmitThrows msg => (w', Throw msg)
    | PollThrows pending msg =>
        if (pending <? k)%nat then (w', Throw msg) else (w', Ok (answer false))
    | DoneAfter polls => (w', Ok (answer (polls <=? k)%nat))
    | Stalls => (w', Ok (answer false))
    end.

Section Service.

Context {lib : NodeLib}.

Definition getContentType (filePath : string) : string :=
  let ext := toLowerCase (path_extname filePath) in
  if String.eqb ext ".txt" then "text/plain"
  else if String.eqb ext ".pdf" then "application/pdf"
  else if String.eqb ext ".doc" then "application/msword"
  else if String.eqb ext ".docx"
    then "application/vnd.openxmlformats-officedocument.wordprocessingml.document"
  else if String.eqb ext ".md" then "text/markdown"
  else if String.eqb ext ".html" then "text/html"
  else if String.eqb ext ".json" then "application/json"
  else "application/octet-stream".

(** The [while (!op.done)] loop.  [budget] is [maxPollAttempts -
    pollAttempts], so [pollAttempts >= maxPollAttempts] reads [budget = 0]. *)
Fixpoint pollUntilDone (fileName : string) (budget : nat) (op : Operation) : M unit :=
  if done op then ret tt
  else match budget with
       | 0 => throw ("Upload timeout for " +:+ fileName +:+ " after "
                       +:+ pretty (maxPollAttempts * 3) +:+ " seconds")
       | S budget' =>
           _ <- delay 3000 ;;
           op' <- operations_get op ;;
           pollUntilDone fileName budget' op'
       end.

(** The body of the [try] block: one submit-and-poll sequence. *)
Definition attemptUpload (ragStoreName filePath fileName : string) (onProgress : bool) : M unit :=
  _ <- (if onProgress then perform (EvFileProgress fileName) else ret tt) ;;
  _ <- readFileSync filePath ;;
  op <- uploadToFileSearchStore ragStoreName fileName (getContentType filePath) ;;
  _ <- pollUntilDone fileName maxPollAttempts op ;;
  delay 1500.

(** The [for (let attempt = 0; attempt < maxRetries; attempt++)] loop from
    [attempt] on, with [remaining = maxRetries - attempt] iterations left. *)
Fixpoint retryLoop (ragStoreName filePath fileName : string) (onProgress : bool)
    (remaining attempt : nat) : M unit :=
  match remaining with
  | 0 => ret tt
  | S remaining' =>
      finished <-
        try_catch
          (_ <- attemptUpload ragStoreName filePath fileName onProgress ;; ret true)
          (λ message,
             let isLastAttempt := (attempt =? maxRetries - 1)%nat in
             if isLastAttempt then
               throw ("Failed to upload " +:+ fileName +:+ " after " +:+ pretty maxRetries
                        +:+ " attempts: " +:+ message)
             else
               let retryDelay := (baseDelay * 2 ^ N.of_nat attempt)%N in
               _ <- delay retryDelay ;;
               ret false) ;;
      if finished : bool then ret tt
      else retryLoop ragStoreName filePath fileName onProgress remaining' (S attempt)
  end.

Definition uploadFileToRagStore (ragStoreName filePath : string) (onProgress : bool) : M unit :=
  _ <- require_ai ;;
  let fileName := path_basename filePath in
  retryLoop ragStoreName filePath fileName onProgress maxRetries 0.

(** ** Corpus differ and sync orchestrator *)

Record UploadResult := {
  successful : list string;
  failed : list (string * string);
  skipped : list string
}.

(** [fs.readdirSync(directoryPath)] *)
Definition readdirSync (directoryPath : string) : M (list string) :=
  λ w, match fs_readdir w directoryPath with
       | Some entries => (w, Ok entries)
       | None => (w, Throw ("ENOENT: no such file or directory, scandir '"
                              +:+ directoryPath +:+ "'"))
       end.

Definition supportedExtensions : list string :=
  [".txt"; ".pdf"; ".doc"; ".docx"; ".md"; ".html"; ".json"].

Definition isSupported (file : string) : bool :=
  includes supportedExtensions (toLowerCase (path_extname file)).

(** One turn of the loop over [allFilesArray] that fills [uniqueFilesMap]
    and [duplicatesInDirectory]. *)
Definition dedupStep (st : list (string * string) * list string) (fileName : string)
  : list (string * string) * list string :=
  let '(uniqueFilesMap, duplicatesInDirectory) := st in
  if JsMap.has uniqueFilesMap fileName
  then (uniqueFilesMap, duplicatesInDirectory ++ [fileName])
  else (JsMap.set uniqueFilesMap fileName fileName, duplicatesInDirectory).

Definition dedupDirectory (allFilesArray : list string) : list (string * string) * list string :=
  foldl dedupStep ([], []) allFilesArray.

(** One call of the [allFiles.filter] callback of resume mode, which also
    pushes onto [alreadyUploaded] and [skipped]. *)
Definition resumeStep (uploaded : list string)
    (st : list string * list string * list string) (fileName : string)
  : list string * list string * list string :=
  let '(kept, alreadyUploaded, skipped) := st in
  if JsSet.has uploaded fileName
  then (kept, alreadyUploaded ++ [fileName], skipped ++ [fileName])
  else (kept ++ [fileName], alreadyUploaded, skipped).

(** The differ: everything between the directory listing and the upload
    loop.  Returns [(filesToUpload, skipped)]. *)
Definition computeUploadSet (ragStoreName : string) (allFilesArray : list string)
    (resumeMode : bool) : M (list string * list string) :=
  let '(uniqueFilesMap, duplicatesInDirectory) := dedupDirectory allFilesArray in
  let allFiles := JsMap.keys uniqueFilesMap in
  if resumeMode then
    uploaded <- listDocumentsInRagStore ragStoreName ;;
    let '(filesToUpload, _, skipped) :=
      foldl (resumeStep uploaded) ([], [], duplicatesInDirectory) allFiles in
    ret (filesToUpload, skipped)
  else ret (allFiles, duplicatesInDirectory).

(** The upload loop from index [i] on; [files] is [filesToUpload.slice(i)]
    and [total] is [filesToUpload.length]. *)
Record LoopState := {
  ls_successful : list string;
  ls_failed : list (string * string);
  ls_skipped : list string;
  uploadedInSession : list string
}.

Fixpoint uploadLoop (ragStoreName directoryPath : string) (onProgress : bool)
    (total i : nat) (files : list string) (st : LoopState) : M LoopState :=
  match files with
  | [] => ret st
  | fileName :: rest =>
      if JsSet.has (uploadedInSession st) fileName then
        uploadLoop ragStoreName directoryPath onProgress total (S i) rest
          {| ls_successful := ls_successful st; ls_failed := ls_failed st;
             ls_skipped := ls_skipped st ++ [fileName];
             uploadedInSession := uploadedInSession st |}
      else
        let filePath := path_join directoryPath fileName in
        st' <-
          try_catch
            (_ <- (if onProgress then perform (EvProgress (i + 1) total fileName)
                   else ret tt) ;;
             _ <- uploadFileToRagStore ragStoreName filePath false ;;
             _ <- addUploadedFile ragStoreName fileName ;;
             ret {| ls_successful := ls_successful st ++ [fileName];
                    ls_failed := ls_failed st; ls_skipped := ls_skipped st;
                    uploadedInSession := JsSet.add (uploadedInSession st) fileName |})
            (λ errorMessage,
               ret {| ls_successful := ls_successful st;
                      ls_failed := ls_failed st ++ [(fileName, errorMessage)];
                      ls_skipped := ls_skipped st;
                      uploadedInSession := uploadedInSession st |}) ;;
        uploadLoop ragStoreName directoryPath onProgress total (S i) rest st'
  end.

Definition uploadDirectoryToRagStore (ragStoreName directoryPath : string)
    (onProgress resumeMode : bool) : M UploadResult :=
  _ <- require_ai ;;
  entries <- readdirSync directoryPath ;;
  let allFilesArray := List.filter isSupported entries in
  if (length allFilesArray =? 0)%nat
  then throw ("No supported documents found in " +:+ directoryPath)
  else
    plan <- computeUploadSet ragStoreName allFilesArray resumeMode ;;
    let '(filesToUpload, skipped0) := plan in
    st <- uploadLoop ragStoreName directoryPath onProgress (length filesToUpload) 0
            filesToUpload
            {| ls_successful := []; ls_failed := []; ls_skipped := skipped0;
               uploadedInSession := [] |} ;;
    ret {| successful := ls_successful st; failed := ls_failed st;
           skipped := ls_skipped st |}.

End Service.

(** ** Specification vocabulary *)

(** The entries of [l] that do not occur earlier in [l], in the order of [l]. *)
Definition firstOccurrences (l : list string) : list string :=
  omap (λ i, x ← l !! i; if decide (x ∈ take i l) then None else Some x)
       (seq 0 (length l)).

(** The entries of [l] that repeat an earlier entry, in the order of [l]. *)
Definition repeatedOccurrences (l : list string) : list string :=
  omap (λ i, x ← l !! i; if decide (x ∈ take i l) then Some x else None)
       (seq 0 (length l)).

(** What the ledger file records for a store. *)
Definition ledgerOf (w : World) (ragStoreName : string) : list string :=
  default [] (uploadedFiles <$> default ∅ (tracker_file w) !! ragStoreName).

(** The store name finds an inherited value in the ledger object: the
    ledger has no entry of its own under a name of [Object.prototype]. *)
Definition shadowed (w : World) (ragStoreName : string) : bool :=
  match default ∅ (tracker_file w) !! ragStoreName with
  | Some _ => false
  | None => inherited ragStoreName
  end.

(** A run of [recordSuccess] calls; it stops at the first call that throws. *)
Fixpoint recordAll (calls : list (string * string)) : M unit :=
  match calls with
  | [] => ret tt
  | (ragStoreName, fileName) :: rest =>
      _ <- addUploadedFile ragStoreName fileName ;;
      recordAll rest
  end.

Definition isSubmit (e : Event) : bool :=
  match e with EvSubmit _ _ _ => true | _ => false end.

Definition isSave (e : Event) : bool :=
  match e with EvSaveTracker _ => true | _ => false end.

(** [best] is the first store of [l] with the greatest document count. *)
Definition firstWithMostDocuments (best : Store) (l : list Store) : Prop :=
  ∃ before after,
    l = before ++ best :: after
    ∧ (∀ s, s ∈ before → (documentCount s < documentCount best)%N)
    ∧ (∀ s, s ∈ after → (documentCount s ≤ documentCount best)%N).

(** The store list once the stores named in [names] are deleted. *)
Definition removeNamed (names : list string) (l : list Store) : list Store :=
  List.filter (λ s, negb (includes names (name s))) l.

(** The matches other than the one kept, as the cleanup code selects them. *)
Definition duplicatesOf (storeToKeep : Store) (matchingStores : list Store) : list Store :=
  List.filter (λ s, negb (String.eqb (name s) (name storeToKeep))) matchingStores.

(** The remote service answers every call. *)
Definition serviceUp (w : World) : Prop :=
  ai w = true ∧ list_fails w = false ∧ create_fails w = false
  ∧ (∀ n, delete_fails w n = false) ∧ (∀ n, mint w n ≠ "").

(** Three stores named alike holding 5, 12 and 3 documents. *)
Definition tripleWorld : World :=
  set_stores
    [ {| name := "fileSearchStores/a"; displayName := "corpus";
         activeDocumentsCount := Some 5%N |};
      {| name := "fileSearchStores/b"; displayName := "corpus";
         activeDocumentsCount := Some 12%N |};
      {| name := "fileSearchStores/c"; displayName := "corpus";
         activeDocumentsCount := Some 3%N |} ]
    freshWorld.

(** The events [uploadFileToRagStore] can cause. *)
Definition isUploaderEvent (e : Event) : bool :=
  match e with
  | EvDelay _ | EvFileProgress _ | EvReadFile _ | EvSubmit _ _ _ | EvPoll _ => true
  | _ => false
  end.

(** The error of a poll loop that ran out of polls: 120 polls, 3 s apart. *)
Definition timeoutMessage (fileName : string) : string :=
  "Upload timeout for " +:+ fileName +:+ " after 360 seconds".

(** [k] rounds of waiting 3 s and asking for the operation. *)
Definition pollRounds (fileName : string) (k : nat) : list Event :=
  concat (replicate k [EvDelay 3000; EvPoll fileName]).

Arguments pollRounds : simpl never.

(** How many times one attempt asks for the operation. *)
Definition pollCount (i : Ingestion) : nat :=
  match i with
  | SubmitThrows _ => 0
  | PollThrows pending _ => S pending `min` maxPollAttempts
  | DoneAfter polls => polls `min` maxPollAttempts
  | Stalls => maxPollAttempts
  end.

(** How submitting and polling ends. *)
Definition ingestionOutcome (fileName : string) (i : Ingestion) : Res unit :=
  match i with
  | SubmitThrows msg => Throw msg
  | PollThrows pending msg =>
      if pending <? maxPollAttempts then Throw msg else Throw (timeoutMessage fileName)
  | DoneAfter polls =>
      if polls <=? maxPollAttempts then Ok tt else Throw (timeoutMessage fileName)
  | Stalls => Throw (timeoutMessage fileName)
  end.

Definition ingestionFails (i : Ingestion) : bool :=
  match i with
  | DoneAfter polls => maxPollAttempts <? polls
  | _ => true
  end.


Definition readError (filePath : string) : string :=
  "ENOENT: no such file or directory, open '" +:+ filePath +:+ "'".

(** The error [uploadFileToRagStore] gives up with. *)
Definition uploadFailed (fileName : string) (attemptsUsed : nat) (lastError : string) : string :=
  "Failed to upload " +:+ fileName +:+ " after " +:+ pretty attemptsUsed
    +:+ " attempts: " +:+ lastError.

Definition errorOf (r : Res unit) : string :=
  match r with Ok _ => "" | Throw msg => msg end.

(** Backoff before the retry that follows attempt number [attempt]. *)
Definition backoff (attempt : nat) : N := (baseDelay * 2 ^ N.of_nat attempt)%N.

(** Failed attempts in a row, numbered from [attempt], with the backoff
    between each attempt and the next. *)
Fixpoint withBackoff (attempts : list (list Event)) (attempt : nat) : list Event :=
  match attempts with
  | [] => []
  | [events] => events
  | events :: later => events ++ [EvDelay (backoff attempt)] ++ withBackoff later (S attempt)
  end.

(** The delays in a trace. *)
Definition delaysOf (events : list Event) : list N :=
  omap (λ e, match e with EvDelay ms => Some ms | _ => None end) events.

Section AttemptVocabulary.

Context {lib : NodeLib}.

(** Everything one attempt does, and how it ends. *)
Definition attemptEvents (ragStoreName filePath fileName : string)
    (onProgress readable : bool) (i : Ingestion) : list Event :=
  (if onProgress then [EvFileProgress fileName] else [])
  ++ [EvReadFile filePath]
  ++ (if readable
      then [EvSubmit ragStoreName fileName (getContentType filePath)]
           ++ pollRounds fileName (pollCount i)
           ++ (if ingestionFails i then [] else [EvDelay 1500])
      else []).

Definition attemptOutcome (filePath fileName : string) (readable : bool) (i : Ingestion)
  : Res unit :=
  if readable then ingestionOutcome fileName i else Throw (readError filePath).

(** The script the remote service follows for the [k]-th attempt made
    from [w] on: every attempt that gets to read the file submits once. *)
Definition scriptOf (w : World) (filePath fileName : string) (k : nat) : Ingestion :=
  ingestion w (submissions w + (if fs_readable w filePath then k else 0)) fileName.

(** The attempt fails: the file cannot be read, or submitting and polling
    does not end in a completed operation. *)
Definition attemptFails (w : World) (filePath fileName : string) (k : nat) : Prop :=
  fs_readable w filePath = false ∨ ingestionFails (scriptOf w filePath fileName k) = true.

(** Events and error of the [k]-th attempt made from [w] on. *)
Definition attemptEventsAt (w : World) (ragStoreName filePath fileName : string)
    (onProgress : bool) (k : nat) : list Event :=
  attemptEvents ragStoreName filePath fileName onProgress (fs_readable w filePath)
    (scriptOf w filePath fileName k).

Definition attemptErrorAt (w : World) (filePath fileName : string) (k : nat) : string :=
  errorOf (attemptOutcome filePath fileName (fs_readable w filePath)
             (scriptOf w filePath fileName k)).

(** The differ's two outputs, in closed form. *)
Definition toUploadOf (w : World) (ragStoreName : string) (allFilesArray : list string)
    (resumeMode : bool) : list string :=
  filter (λ f, ¬ (resumeMode = true ∧ f ∈ ledgerOf w ragStoreName))
         (firstOccurrences allFilesArray).

Definition skippedOf (w : World) (ragStoreName : string) (allFilesArray : list string)
    (resumeMode : bool) : list string :=
  repeatedOccurrences allFilesArray
  ++ (if resumeMode
      then filter (λ f, f ∈ ledgerOf w ragStoreName) (firstOccurrences allFilesArray)
      else []).

(** Every attempt to upload the file fails, whenever it is made. *)
Definition uploadAlwaysFails (w : World) (filePath : string) : Prop :=
  fs_readable w filePath = false
  ∨ ∀ n, ingestionFails (ingestion w n (path_basename filePath)) = true.

(** Every attempt to upload the file succeeds, whenever it is made. *)
Definition uploadAlwaysSucceeds (w : World) (filePath : string) : Prop :=
  fs_readable w filePath = true
  ∧ ∀ n, ingestionFails (ingestion w n (path_basename filePath)) = false.

(** How the upload loop dealt with one file: what [uploadFileToRagStore]
    did, the error it threw if it threw, and the ledger write if one was
    made. *)
Record FileRun := {
  fr_file : string;
  fr_upload : list Event;
  fr_error : option string;
  fr_saves : list Event
}.

Definition progressEvents (onProgress : bool) (current total : nat) (fileName : string)
  : list Event :=
  if onProgress then [EvProgress current total fileName] else [].

(** The events of one turn of the loop, at index [i]. *)
Definition turnEvents (onProgress : bool) (total i : nat) (r : FileRun) : list Event :=
  progressEvents onProgress (i + 1) total (fr_file r) ++ fr_upload r ++ fr_saves r.

(** The events of the turns from index [i] on. *)
Fixpoint loopEvents (onProgress : bool) (total i : nat) (runs : list FileRun) : list Event :=
  match runs with
  | [] => []
  | r :: rest => turnEvents onProgress total i r ++ loopEvents onProgress total (S i) rest
  end.

Definition succeeded (runs : list FileRun) : list string :=
  omap (λ r, match fr_error r with None => Some (fr_file r) | Some _ => None end) runs.

Definition failures (runs : list FileRun) : list (string * string) :=
  omap (λ r, (λ e, (fr_file r, e)) <$> fr_error r) runs.

(** The ledger write, if there is one, records the file for the store. *)
Definition recordsFile (ragStoreName fileName : string) (saves : list Event) : Prop :=
  saves = []
  ∨ ∃ tracker entry,
      saves = [EvSaveTracker tracker]
      ∧ tracker !! ragStoreName = Some entry
      ∧ fileName ∈ uploadedFiles entry.

(** What holds of every turn of the loop. *)
Definition goodRun (w : World) (ragStoreName directoryPath : string) (r : FileRun) : Prop :=
  let filePath := path_join directoryPath (fr_file r) in
  Forall (λ e, isUploaderEvent e = true) (fr_upload r)
  ∧ EvReadFile filePath ∈ fr_upload r
  ∧ match fr_error r with
    | Some e =>
        fr_saves r = []
        ∧ ((∃ lastError, e = uploadFailed (path_basename filePath) maxRetries lastError)
           ∨ (inherited ragStoreName = true ∧ e = readOfUndefined "includes"))
    | None => recordsFile ragStoreName (fr_file r) (fr_saves r)
    end
  ∧ (uploadAlwaysFails w filePath →
     ∃ lastError,
       fr_error r = Some (uploadFailed (path_basename filePath) maxRetries lastError))
  ∧ (uploadAlwaysSucceeds w filePath → inherited ragStoreName = false → fr_error r = None).

End AttemptVocabulary.

(** ** The rest of the ledger interface *)

(** [tracker[ragStoreName]?.uploadedFiles?.length || 0] *)
Definition getUploadedFilesCount (ragStoreName : string) : M nat :=
  tracker <- loadUploadTracker ;;
  ret (default 0 (length <$> (uploadedFiles <$> tracker !! ragStoreName))).

Definition getUploadTrackerContents : M (gmap string TrackerEntry) := loadUploadTracker.

(** The ledger entry of a store, if the file has one. *)
Definition entryOf (w : World) (ragStoreName : string) : option TrackerEntry :=
  default ∅ (tracker_file w) !! ragStoreName.

(** Time spent waiting in a sequence of events, in milliseconds. *)
Definition elapsed (events : list Event) : N :=
  foldr (λ e total, match e with EvDelay ms => (ms + total)%N | _ => total end) 0%N events.

(** ** Worlds in which the service misbehaves *)

(** The same world with a remote service that fails as given. *)
Definition set_failures (listFails createFails : bool) (deleteFails : string → bool)
    (w : World) : World :=
  {| ai := ai w; clock := clock w; trace := trace w; tracker_file := tracker_file w;
     fs_write_fails := fs_write_fails w; fs_readdir := fs_readdir w;
     fs_readable := fs_readable w; stores := stores w; list_fails := listFails;
     create_fails := createFails; delete_fails := deleteFails;
     minted := minted w; mint := mint w; submissions := submissions w;
     ingestion := ingestion w |}.

(** The same world before [initialize] was called. *)
Definition uninitialised (w : World) : World :=
  {| ai := false; clock := clock w; trace := trace w; tracker_file := tracker_file w;
     fs_write_fails := fs_write_fails w; fs_readdir := fs_readdir w;
     fs_readable := fs_readable w; stores := stores w; list_fails := list_fails w;
     create_fails := create_fails w; delete_fails := delete_fails w;
     minted := minted w; mint := mint w; submissions := submissions w;
     ingestion := ingestion w |}.

(** Three stores named alike, behind a listing call that fails. *)
Definition unlistableWorld : World := set_failures true false (λ _, false) tripleWorld.

(** Three stores named alike, the last of which cannot be deleted. *)
Definition stubbornWorld : World :=
  set_failures false false (λ n, String.eqb n "fileSearchStores/c") tripleWorld.

(** The three stores of [tripleWorld]. *)
Definition corpusA : Store :=
  {| name := "fileSearchStores/a"; displayName := "corpus"; activeDocumentsCount := Some 5%N |}.
Definition corpusB : Store :=
  {| name := "fileSearchStores/b"; displayName := "corpus"; activeDocumentsCount := Some 12%N |}.
Definition corpusC : Store :=
  {| name := "fileSearchStores/c"; displayName := "corpus"; activeDocumentsCount := Some 3%N |}.

(** The stores of a list whose deletion the service accepts. *)
Definition deletable (w : World) (l : list Store) : list Store :=
  List.filter (λ s, negb (delete_fails w (name s))) l.

(** ** The script that deletes all stores *)

(** [for (const store of stores) { try { await ai.fileSearchStores.delete(...) }
    catch (err) { ... } }] *)
Fixpoint deleteEach (stores : list Store) : M unit :=
  match stores with
  | [] => ret tt
  | store :: rest =>
      _ <- try_catch (fileSearchStores_delete (name store)) (λ _, ret tt) ;;
      deleteEach rest
  end.

(** [deleteAllStores()]; a failed listing ends the script with an error. *)
Definition deleteAllStores : M unit :=
  stores <- fileSearchStores_list ;;
  if (length stores =? 0)%nat then ret tt else deleteEach stores.

(** ** The server: creation lock *)

(** [ragStoreCreationLock] and [waitingRequests]; a waiting request is
    identified by a number standing for its [resolve] callback. *)
Record LockState := {
  ragStoreCreationLock : bool;
  waitingRequests : list nat
}.

Definition unlocked : LockState := {| ragStoreCreationLock := false; waitingRequests := [] |}.

(** [acquireRagStoreLock()], called by [request]; returns the requests
    whose promise is resolved by the call. *)
Definition acquireRagStoreLock (request : nat) (st : LockState) : LockState * list nat :=
  if negb (ragStoreCreationLock st)
  then ({| ragStoreCreationLock := true; waitingRequests := waitingRequests st |}, [request])
  else ({| ragStoreCreationLock := ragStoreCreationLock st;
           waitingRequests := waitingRequests st ++ [request] |}, []).

(** [releaseRagStoreLock()] *)
Definition releaseRagStoreLock (st : LockState) : LockState * list nat :=
  match waitingRequests st with
  | next :: rest =>
      ({| ragStoreCreationLock := ragStoreCreationLock st; waitingRequests := rest |}, [next])
  | [] => ({| ragStoreCreationLock := false; waitingRequests := [] |}, [])
  end.

Inductive LockCall :=
| Acquire (request : nat)
| Release.

(** A sequence of calls, from the initial state; the second component is
    the list of requests granted the lock so far, in the order granted. *)
Definition lockStep (acc : LockState * list nat) (c : LockCall) : LockState * list nat :=
  let '(st, granted) := acc in
  let '(st', now) := match c with
                     | Acquire request => acquireRagStoreLock request st
                     | Release => releaseRagStoreLock st
                     end in
  (st', granted ++ now).

Definition lockRun (calls : list LockCall) : LockState * list nat :=
  foldl lockStep (unlocked, []) calls.

Definition acquires (calls : list LockCall) : list nat :=
  omap (λ c, match c with Acquire request => Some request | Release => None end) calls.

Definition releases (calls : list LockCall) : nat :=
  length (List.filter (λ c, match c with Release => true | _ => false end) calls).

(** Each release is made by a request that was granted the lock and has
    not released it yet, as in a handler that acquires, runs and releases
    in [finally]. *)
Definition disciplined (calls : list LockCall) : Prop :=
  ∀ n, calls !! n = Some Release →
       releases (take n calls) < length (lockRun (take n calls)).2.

(** ** The server: ledger reports *)

Record VerifyReport := {
  vr_ragStoreName : string;
  totalTrackedEntries : nat;
  vr_uniqueFiles : nat;
  vr_duplicateCount : nat;
  vr_duplicateFiles : list string;
  vr_hasDuplicates : bool;
  allFilenames : list string
}.

(** One turn of the loop of [/api/rag-store/verify/:ragStoreName]. *)
Definition verifyStep (st : list string * list string) (fileName : string)
  : list string * list string :=
  let '(fileSet, duplicates) := st in
  if JsSet.has fileSet fileName then (fileSet, duplicates ++ [fileName])
  else (JsSet.add fileSet fileName, duplicates).

Record TrackerAnalysis := {
  totalEntries : nat;
  ta_uniqueFiles : nat;
  ta_hasDuplicates : bool;
  ta_duplicateCount : nat;
  ta_duplicateFiles : list string;
  ta_lastUpdate : N
}.

(** The [files.forEach] callback of [/api/debug/upload-tracker]. *)
Definition analysisStep (st : list string * list string) (file : string)
  : list string * list string :=
  let '(seen, duplicates) := st in
  if JsSet.has seen file
  then (if includes duplicates file then (seen, duplicates) else (seen, duplicates ++ [file]))
  else (JsSet.add seen file, duplicates).

Definition analyse (data : TrackerEntry) : TrackerAnalysis :=
  let files := uploadedFiles data in
  let uniqueFiles := JsSet.of_array files in
  let '(_, duplicates) := foldl analysisStep ([], []) files in
  {| totalEntries := length files;
     ta_uniqueFiles := JsSet.size uniqueFiles;
     ta_hasDuplicates := (0 <? length duplicates)%nat;
     ta_duplicateCount := length duplicates;
     ta_duplicateFiles := duplicates;
     ta_lastUpdate := lastUpdate data |}.

(** The handler of [/api/debug/upload-tracker]: the ledger and, for every
    store in it, the analysis of its entry. *)
Definition uploadTrackerHandler : M (gmap string TrackerEntry * gmap string TrackerAnalysis) :=
  tracker <- getUploadTrackerContents ;;
  ret (tracker, analyse <$> tracker).

Section VerifyHandler.

(** [Array.prototype.sort()] on strings. *)
Variable sortStrings : list string → list string.

(** The handler of [/api/rag-store/verify/:ragStoreName]. *)
Definition verifyHandler (ragStoreName : string) : M VerifyReport :=
  trackedFiles <- getUploadedFilesList ragStoreName ;;
  let '(fileSet, duplicates) := foldl verifyStep ([], []) trackedFiles in
  ret {| vr_ragStoreName := ragStoreName;
         totalTrackedEntries := length trackedFiles;
         vr_uniqueFiles := JsSet.size fileSet;
         vr_duplicateCount := length duplicates;
         vr_duplicateFiles := duplicates;
         vr_hasDuplicates := (0 <? length duplicates)%nat;
         allFilenames := sortStrings fileSet |}.

End VerifyHandler.

(** The one submission an upload of [filePath] can make. *)
Definition submissionOf {lib : NodeLib} (ragStoreName filePath : string) : Event :=
  EvSubmit ragStoreName (path_basename filePath) (getContentType filePath).

(** ** Example questions: reading the parsed answer *)

Section ParsedAnswer.

(** JavaScript numbers, and the test for [0], [-0] and [NaN]. *)
Variable Num : Type.
Variable numberIsFalsy : Num → bool.

(** What [JSON.parse] returns. *)
#[warnings="-register-all"]
Inductive Json :=
| JNull
| JBool (b : bool)
| JNumber (n : Num)
| JString (s : string)
| JArray (items : list Json)
| JObject (fields : gmap string Json).

Definition truthy (v : Json) : bool :=
  match v with
  | JNull => false
  | JBool b => b
  | JNumber n => negb (numberIsFalsy n)
  | JString s => negb (String.eqb s "")
  | JArray _ | JObject _ => true
  end.

(** [item.questions]: reading a property of [null] throws. *)
Definition questionsProperty (item : Json) : Res (option Json) :=
  match item with
  | JNull => Throw "TypeError: Cannot read properties of null (reading 'questions')"
  | JObject fields => Ok (fields !! "questions")
  | _ => Ok None
  end.

(** What [flatMap] adds for a callback result [v || []]: the elements of
    an array, any other value as it is. *)
Definition flattened (v : option Json) : list Json :=
  match v with
  | Some (JArray items) => items
  | Some v => if truthy v then [v] else []
  | None => []
  end.

(** [parsedData.flatMap(item => (item.questions || []))] *)
Fixpoint flatMapQuestions (parsedData : list Json) : Res (list Json) :=
  match parsedData with
  | [] => Ok []
  | item :: rest =>
      match questionsProperty item with
      | Throw e => Throw e
      | Ok v =>
          match flatMapQuestions rest with
          | Throw e => Throw e
          | Ok later => Ok (flattened v ++ later)
          end
      end
  end.

(** [.filter(q => typeof q === 'string')] *)
Definition stringsOf (values : list Json) : list string :=
  omap (λ q, match q with JString s => Some s | _ => None end) values.

(** [typeof firstItem === 'object' && firstItem !== null &&
    'questions' in firstItem && Array.isArray(firstItem.questions)] *)
Definition hasQuestionsArray (firstItem : Json) : bool :=
  match firstItem with
  | JObject fields =>
      match fields !! "questions" with
      | Some (JArray _) => true
      | _ => false
      end
  | _ => false
  end.

(** [generateExampleQuestions] from [if (Array.isArray(parsedData))] on;
    an exception is caught by the function's [catch], which returns []. *)
Definition questionsOfParsedData (parsedData : Json) : list string :=
  match parsedData with
  | JArray [] => []
  | JArray (firstItem :: rest) =>
      if hasQuestionsArray firstItem then
        match flatMapQuestions (firstItem :: rest) with
        | Ok values => stringsOf values
        | Throw _ => []
        end
      else
        match firstItem with
        | JString _ => stringsOf (firstItem :: rest)
        | _ => []
        end
  | _ => []
  end.

End ParsedAnswer.

Arguments JNull {Num}.
Arguments JBool {Num} b.
Arguments JNumber {Num} n.
Arguments JString {Num} s.
Arguments JArray {Num} items.
Arguments JObject {Num} fields.
Arguments stringsOf {Num} values.
Arguments hasQuestionsArray {Num} firstItem.
Arguments questionsProperty {Num} item.
Arguments flattened {Num} numberIsFalsy v.
Arguments flatMapQuestions {Num} numberIsFalsy parsedData.
Arguments questionsOfParsedData {Num} numberIsFalsy parsedData.

(** An answer in the documented format: one object per document. *)
Definition documentAnswer {Num} (document : string) (questions : list string) : Json Num :=
  JObject {[ "document" := JString document;
             "questions" := JArray (JString <$> questions) ]}.

(** ** The client: reading the event stream *)

Definition newline : Ascii.ascii := Ascii.ascii_of_nat 10.

(** [s.split('\n')], with the piece read so far in [current]. *)
Fixpoint splitLines (current s : string) : list string :=
  match s with
  | EmptyString => [current]
  | String c rest =>
      if Ascii.eqb c newline then current :: splitLines "" rest
      else splitLines (current +:+ String c "") rest
  end.

(** The string holds a line feed. *)
Fixpoint hasNewline (s : string) : bool :=
  match s with
  | EmptyString => false
  | String c rest => Ascii.eqb c newline || hasNewline rest
  end.

(** [line.startsWith('data: ')] *)
Definition isDataLine (line : string) : bool := String.prefix "data: " line.

(** One turn of the reader loop for a decoded chunk: the lines handed to
    the message handler so far, and the buffer. *)
Definition readChunk (st : list string * string) (chunk : string) : list string * string :=
  let '(handled, buffer) := st in
  let lines := splitLines "" (buffer +:+ chunk) in
  (handled ++ List.filter isDataLine (removelast lines), default "" (last lines)).

Definition readStream (chunks : list string) : list string * string :=
  foldl readChunk ([], "") chunks.

(** Progress callbacks of the upload loop. *)
Definition isProgress (e : Event) : bool :=
  match e with EvProgress _ _ _ => true | _ => false end.

(** ** Insertion-ordered sets and maps *)

Section Collections.

Implicit Types (s l : list string) (x y : string).

Lemma includes_true l x : includes l x = true ↔ x ∈ l.
Proof. unfold includes. by rewrite bool_decide_eq_true. Qed.

Lemma includes_false l x : includes l x = false ↔ x ∉ l.
Proof. unfold includes. by rewrite bool_decide_eq_false. Qed.

Lemma has_true s x : JsSet.has s x = true ↔ x ∈ s.
Proof. unfold JsSet.has. by rewrite bool_decide_eq_true. Qed.

Lemma has_false s x : JsSet.has s x = false ↔ x ∉ s.
Proof. unfold JsSet.has. by rewrite bool_decide_eq_false. Qed.

Lemma add_present s x : x ∈ s → JsSet.add s x = s.
Proof. intros H. unfold JsSet.add. by rewrite (proj2 (has_true s x) H). Qed.

Lemma add_absent s x : x ∉ s → JsSet.add s x = s ++ [x].
Proof. intros H. unfold JsSet.add. by rewrite (proj2 (has_false s x) H). Qed.

Lemma elem_of_add s x y : y ∈ JsSet.add s x ↔ y ∈ s ∨ y = x.
Proof.
  destruct (decide (x ∈ s)) as [Hin | Hout].
  - rewrite add_present by done. split; [by left | intros [? | ->]; done].
  - rewrite add_absent by done. rewrite elem_of_app, list_elem_of_singleton. done.
Qed.

Lemma add_NoDup s x : NoDup s → NoDup (JsSet.add s x).
Proof.
  intros Hs. destruct (decide (x ∈ s)) as [Hin | Hout].
  - by rewrite add_present.
  - rewrite add_absent by done. apply NoDup_app. split_and!; [done | | apply NoDup_singleton].
    intros y Hy ->%list_elem_of_singleton. done.
Qed.

Lemma foldl_add_snoc s l x :
  foldl JsSet.add s (l ++ [x]) = JsSet.add (foldl JsSet.add s l) x.
Proof. by rewrite foldl_app. Qed.

Lemma elem_of_foldl_add l s y : y ∈ foldl JsSet.add s l ↔ y ∈ s ∨ y ∈ l.
Proof.
  revert s. induction l as [| x l IH]; intros s; simpl.
  - rewrite elem_of_nil. tauto.
  - rewrite IH, elem_of_add, elem_of_cons. tauto.
Qed.

Lemma foldl_add_NoDup l s : NoDup s → NoDup (foldl JsSet.add s l).
Proof.
  revert s. induction l as [| x l IH]; intros s Hs; simpl; [done |].
  apply IH. by apply add_NoDup.
Qed.

Lemma elem_of_of_array l y : y ∈ JsSet.of_array l ↔ y ∈ l.
Proof. unfold JsSet.of_array. rewrite elem_of_foldl_add, elem_of_nil. tauto. Qed.

Lemma of_array_NoDup l : NoDup (JsSet.of_array l).
Proof. apply foldl_add_NoDup, NoDup_nil_2. Qed.

Lemma foldl_add_length l s : length (foldl JsSet.add s l) ≤ length s + length l.
Proof.
  revert s. induction l as [| x l IH]; intros s; simpl; [lia |].
  etrans; [apply IH |]. unfold JsSet.add.
  destruct (JsSet.has s x); rewrite ?length_app; simpl; lia.
Qed.

(** A set as large as the array it was built from is that array. *)
Lemma foldl_add_full l s :
  length (foldl JsSet.add s l) = length s + length l → foldl JsSet.add s l = s ++ l.
Proof.
  revert s. induction l as [| x l IH]; intros s Hlen; simpl in *.
  - by rewrite app_nil_r.
  - destruct (decide (x ∈ s)) as [Hin | Hout].
    + rewrite add_present in Hlen by done.
      pose proof (foldl_add_length l s). lia.
    + rewrite add_absent in * by done.
      rewrite IH; [by rewrite <- app_assoc |].
      rewrite Hlen, length_app. simpl. lia.
Qed.

Lemma of_array_full l : JsSet.size (JsSet.of_array l) = length l → JsSet.of_array l = l.
Proof. unfold JsSet.size, JsSet.of_array. intros H. by rewrite foldl_add_full. Qed.

Lemma foldl_add_fresh l s : NoDup (s ++ l) → foldl JsSet.add s l = s ++ l.
Proof.
  revert s. induction l as [| x l IH]; intros s Hnd; simpl.
  - by rewrite app_nil_r.
  - assert (x ∉ s) as Hout.
    { apply NoDup_app in Hnd as (_ & Hdisj & _). intros Hx. apply (Hdisj x Hx). left. }
    rewrite add_absent by done. rewrite IH; rewrite <- app_assoc; done.
Qed.

Lemma of_array_NoDup_id l : NoDup l → JsSet.of_array l = l.
Proof. intros H. unfold JsSet.of_array. by rewrite foldl_add_fresh. Qed.

(** The two index-based lists, one entry at a time. *)
Lemma omap_seq_snoc {A} (f g : nat → option A) n :
  (∀ i, i < n → f i = g i) → omap f (seq 0 n) = omap g (seq 0 n).
Proof.
  intros Hfg. induction n as [| n IH]; [done |].
  rewrite seq_S, !omap_app. simpl. rewrite IH by (intros; apply Hfg; lia).
  by rewrite Hfg by lia.
Qed.

Lemma firstOccurrences_snoc l x :
  firstOccurrences (l ++ [x]) = firstOccurrences l ++ (if decide (x ∈ l) then [] else [x]).
Proof.
  unfold firstOccurrences. rewrite length_app. simpl.
  rewrite Nat.add_1_r, seq_S, omap_app. simpl. f_equal.
  - apply omap_seq_snoc. intros i Hi.
    rewrite lookup_app_l by done. rewrite take_app_le by lia. done.
  - rewrite list_lookup_middle by done. simpl.
    rewrite take_app_length. by destruct (decide (x ∈ l)).
Qed.

Lemma repeatedOccurrences_snoc l x :
  repeatedOccurrences (l ++ [x])
  = repeatedOccurrences l ++ (if decide (x ∈ l) then [x] else []).
Proof.
  unfold repeatedOccurrences. rewrite length_app. simpl.
  rewrite Nat.add_1_r, seq_S, omap_app. simpl. f_equal.
  - apply omap_seq_snoc. intros i Hi.
    rewrite lookup_app_l by done. rewrite take_app_le by lia. done.
  - rewrite list_lookup_middle by done. simpl.
    rewrite take_app_length. by destruct (decide (x ∈ l)).
Qed.

Lemma elem_of_firstOccurrences l y : y ∈ firstOccurrences l ↔ y ∈ l.
Proof.
  induction l as [| x l IH] using rev_ind; [done |].
  rewrite firstOccurrences_snoc, !elem_of_app, IH, list_elem_of_singleton.
  destruct (decide (x ∈ l)); [| by rewrite list_elem_of_singleton].
  rewrite elem_of_nil. split; [tauto | intros [? | ->]; tauto].
Qed.

Lemma firstOccurrences_NoDup l : NoDup (firstOccurrences l).
Proof.
  induction l as [| x l IH] using rev_ind; [apply NoDup_nil_2 |].
  rewrite firstOccurrences_snoc.
  destruct (decide (x ∈ l)) as [Hin | Hout]; [by rewrite app_nil_r |].
  apply NoDup_app. split_and!; [done | | apply NoDup_singleton].
  intros y Hy Hx. apply list_elem_of_singleton in Hx. subst y.
  rewrite elem_of_firstOccurrences in Hy. exact (Hout Hy).
Qed.

(** [new Set(array)] keeps exactly the first occurrences. *)
Lemma of_array_firstOccurrences l : JsSet.of_array l = firstOccurrences l.
Proof.
  unfold JsSet.of_array.
  induction l as [| x l IH] using rev_ind; [done |].
  rewrite foldl_add_snoc, firstOccurrences_snoc, IH.
  destruct (decide (x ∈ l)).
  - rewrite add_present, app_nil_r; [done | by apply elem_of_firstOccurrences].
  - rewrite add_absent; [done | by rewrite elem_of_firstOccurrences].
Qed.

(** An entry that occurs twice is among the repeated occurrences. *)
Lemma repeated_twice l x :
  2 ≤ length (filter (λ y, y = x) l) → x ∈ repeatedOccurrences l.
Proof.
  induction l as [| z l IH] using rev_ind; [simpl; lia |].
  rewrite filter_app, length_app, repeatedOccurrences_snoc, elem_of_app.
  rewrite filter_cons, filter_nil. destruct (decide (z = x)) as [-> | Hne]; simpl.
  - intros Hlen. destruct (decide (x ∈ l)) as [Hin | Hout].
    + right. by apply list_elem_of_singleton.
    + exfalso. destruct (filter (λ y, y = x) l) as [| e r] eqn:E; [simpl in Hlen; lia |].
      assert (e ∈ filter (λ y, y = x) l) as He by (rewrite E; left).
      apply list_elem_of_filter in He as [-> He]. exact (Hout He).
  - intros Hlen. left. apply IH. lia.
Qed.

End Collections.

(** ** The upload ledger *)

Ltac run :=
  unfold date_now, loadUploadTracker, saveUploadTracker;
  unfold bind, ret, throw, gets, perform, try_catch; simpl.

Section Ledger.

Implicit Types (w : World) (tracker : gmap string TrackerEntry).

Lemma ledgerOf_saved w tracker ragStoreName :
  ledgerOf (happen w (EvSaveTracker tracker)) ragStoreName
  = default [] (uploadedFiles <$> tracker !! ragStoreName).
Proof. done. Qed.

Lemma shadowed_inherited w ragStoreName :
  shadowed w ragStoreName = true → inherited ragStoreName = true.
Proof. unfold shadowed. by destruct (_ !! _). Qed.

Lemma shadowed_absent w ragStoreName :
  shadowed w ragStoreName = true → ledgerOf w ragStoreName = [].
Proof. unfold shadowed, ledgerOf. by destruct (_ !! _). Qed.

Lemma not_inherited_not_shadowed w ragStoreName :
  inherited ragStoreName = false → shadowed w ragStoreName = false.
Proof. unfold shadowed. intros ->. by destruct (_ !! _). Qed.

(** What one [addUploadedFile] call does to the world. *)
Lemma addUploadedFile_run w ragStoreName fileName :
  addUploadedFile ragStoreName fileName w =
  if shadowed w ragStoreName then (w, Throw (readOfUndefined "includes"))
  else if decide (fileName ∈ ledgerOf w ragStoreName) then (w, Ok tt)
  else if fs_write_fails w then (w, Ok tt)
  else
    let tracker :=
      <[ragStoreName := {| uploadedFiles := ledgerOf w ragStoreName ++ [fileName];
                           lastUpdate := clock w |}]> (default ∅ (tracker_file w)) in
    (happen w (EvSaveTracker tracker), Ok tt).
Proof.
  unfold addUploadedFile, ledgerOf, shadowed, property. run.
  destruct (default ∅ (tracker_file w) !! ragStoreName) as [entry |] eqn:Hentry; simpl.
  - rewrite Hentry. simpl. unfold includes.
    destruct (decide (fileName ∈ uploadedFiles entry)) as [Hin | Hout].
    + by rewrite bool_decide_eq_true_2.
    + rewrite bool_decide_eq_false_2 by done. simpl. by destruct (fs_write_fails w).
  - destruct (inherited ragStoreName); simpl.
    + by rewrite Hentry.
    + rewrite lookup_insert_eq. simpl.
      rewrite insert_insert_eq. by destruct (fs_write_fails w).
Qed.

Lemma addUploadedFile_ok w ragStoreName fileName :
  shadowed w ragStoreName = false →
  (addUploadedFile ragStoreName fileName w).2 = Ok tt.
Proof.
  intros Hs. rewrite addUploadedFile_run, Hs.
  destruct (decide _); [done |]. by destruct (fs_write_fails w).
Qed.

Lemma addUploadedFile_throws w ragStoreName fileName :
  shadowed w ragStoreName = true →
  addUploadedFile ragStoreName fileName w = (w, Throw (readOfUndefined "includes")).
Proof. intros Hs. by rewrite addUploadedFile_run, Hs. Qed.

Lemma addUploadedFile_present w ragStoreName fileName :
  fileName ∈ ledgerOf w ragStoreName →
  addUploadedFile ragStoreName fileName w = (w, Ok tt).
Proof.
  intros H. rewrite addUploadedFile_run.
  destruct (shadowed w ragStoreName) eqn:Hs.
  - apply shadowed_absent in Hs. rewrite Hs in H. by apply elem_of_nil in H.
  - by rewrite decide_True.
Qed.

Lemma addUploadedFile_ledger w ragStoreName fileName other :
  ledgerOf (addUploadedFile ragStoreName fileName w).1 other =
  if decide (other = ragStoreName ∧ (fileName ∉ ledgerOf w ragStoreName)
             ∧ fs_write_fails w = false ∧ shadowed w ragStoreName = false)
  then ledgerOf w ragStoreName ++ [fileName]
  else ledgerOf w other.
Proof.
  rewrite addUploadedFile_run.
  destruct (shadowed w ragStoreName) eqn:Hs; simpl.
  { rewrite decide_False; [done | intros (_ & _ & _ & ?); done]. }
  destruct (decide (fileName ∈ ledgerOf w ragStoreName)) as [Hin | Hout]; simpl.
  { rewrite decide_False; [done | tauto]. }
  destruct (fs_write_fails w) eqn:Hfail; simpl.
  { rewrite decide_False; [done | intros (_ & _ & ? & _); done]. }
  rewrite ledgerOf_saved.
  destruct (decide (other = ragStoreName)) as [-> | Hne].
  - rewrite lookup_insert_eq. simpl. by rewrite decide_True.
  - rewrite lookup_insert_ne by done. rewrite decide_False; [done | tauto].
Qed.

Lemma addUploadedFile_NoDup w ragStoreName fileName other :
  NoDup (ledgerOf w other) →
  NoDup (ledgerOf (addUploadedFile ragStoreName fileName w).1 other).
Proof.
  intros Hnd. rewrite addUploadedFile_ledger.
  destruct (decide _) as [(-> & Hout & _) |]; [| done].
  apply NoDup_app. split_and!; [done | | apply NoDup_singleton].
  intros y Hy Hx. apply list_elem_of_singleton in Hx. subst y. exact (Hout Hy).
Qed.

Lemma addUploadedFile_shadowed w ragStoreName fileName other :
  shadowed (addUploadedFile ragStoreName fileName w).1 other = shadowed w other.
Proof.
  rewrite addUploadedFile_run.
  destruct (shadowed w ragStoreName) eqn:Hs; [done |].
  destruct (decide _); [done |]. destruct (fs_write_fails w); [done |].
  unfold shadowed in *. cbn [fst].
  change (tracker_file (happen w (EvSaveTracker ?t))) with (Some t).
  cbn [default id].
  destruct (decide (other = ragStoreName)) as [-> | Hne].
  - rewrite lookup_insert_eq. by rewrite Hs.
  - by rewrite lookup_insert_ne.
Qed.

Lemma recordAll_ok calls w :
  Forall (λ call, shadowed w call.1 = false) calls → (recordAll calls w).2 = Ok tt.
Proof.
  revert w. induction calls as [| [s f] calls IH]; intros w Hcalls; [done |].
  apply Forall_cons in Hcalls as [Hs Hcalls]. simpl in Hs.
  simpl. unfold bind.
  pose proof (addUploadedFile_ok w s f Hs) as Hok.
  assert (Forall (λ call, shadowed (addUploadedFile s f w).1 call.1 = false) calls) as Hrest.
  { eapply Forall_impl; [exact Hcalls |]. intros call Hc.
    by rewrite addUploadedFile_shadowed. }
  destruct (addUploadedFile s f w) as [w1 r]. simpl in Hok, Hrest. subst r.
  by apply IH.
Qed.

Lemma recordAll_NoDup calls w other :
  NoDup (ledgerOf w other) → NoDup (ledgerOf (recordAll calls w).1 other).
Proof.
  revert w. induction calls as [| [s f] calls IH]; intros w Hnd; [done |].
  simpl. unfold bind.
  pose proof (addUploadedFile_NoDup w s f other Hnd) as Hnd1.
  destruct (addUploadedFile s f w) as [w1 [[] | e]]; simpl in *; [by apply IH | done].
Qed.

(** What [listDocumentsInRagStore] returns and what it leaves on disk. *)
Lemma listDocumentsInRagStore_run w ragStoreName :
  listDocumentsInRagStore ragStoreName w =
  let files := firstOccurrences (ledgerOf w ragStoreName) in
  if decide (NoDup (ledgerOf w ragStoreName)) then (w, Ok files)
  else if fs_write_fails w then (w, Ok files)
  else
    let tracker :=
      <[ragStoreName := {| uploadedFiles := files; lastUpdate := clock w |}]>
        (default ∅ (tracker_file w)) in
    (happen w (EvSaveTracker tracker), Ok files).
Proof.
  unfold listDocumentsInRagStore. run. fold (ledgerOf w ragStoreName).
  rewrite of_array_firstOccurrences.
  destruct (decide (NoDup (ledgerOf w ragStoreName))) as [Hnd | Hdup].
  - rewrite <- of_array_firstOccurrences, of_array_NoDup_id by done.
    unfold JsSet.size. by rewrite Nat.eqb_refl.
  - destruct (JsSet.size (firstOccurrences (ledgerOf w ragStoreName))
              =? length (ledgerOf w ragStoreName)) eqn:Hsize; simpl.
    + exfalso. apply Hdup. apply Nat.eqb_eq in Hsize.
      rewrite <- of_array_firstOccurrences in Hsize.
      rewrite <- (of_array_full _ Hsize). apply of_array_NoDup.
    + by destruct (fs_write_fails w).
Qed.

Lemma listDocumentsInRagStore_result w ragStoreName :
  (listDocumentsInRagStore ragStoreName w).2
  = Ok (firstOccurrences (ledgerOf w ragStoreName)).
Proof.
  rewrite listDocumentsInRagStore_run. simpl.
  destruct (decide _); [done |]. by destruct (fs_write_fails w).
Qed.

Lemma listDocumentsInRagStore_persisted w ragStoreName :
  fs_write_fails w = false →
  ledgerOf (listDocumentsInRagStore ragStoreName w).1 ragStoreName
  = firstOccurrences (ledgerOf w ragStoreName).
Proof.
  intros Hw. rewrite listDocumentsInRagStore_run. simpl.
  destruct (decide (NoDup (ledgerOf w ragStoreName))) as [Hnd | Hdup]; simpl.
  - by rewrite <- of_array_firstOccurrences, of_array_NoDup_id.
  - rewrite Hw. simpl. unfold ledgerOf at 1. simpl. by rewrite lookup_insert_eq.
Qed.

End Ledger.

(** C4.  Whatever [recordSuccess] calls are run, for whatever stores
    and files, and however far the run gets, a ledger list without
    repetition stays without repetition, and a ledger that starts empty
    never gets one.  A call for a name already in the list changes nothing
    at all: no write, no new time stamp.  [listUploaded] returns the list
    of first occurrences, which has no repetition and the same names,
    from any ledger state, also one edited by hand; when the ledger file
    can be written the collapsed list is on disk before the call returns.
    After any run of calls the listing therefore answers with a list
    without repetition that holds the names of the ledger.  The run
    itself returns normally when none of its calls names a store whose
    name the ledger object inherits a value for; such a call throws and
    leaves the ledger as it was. *)
Theorem ledger_set_invariant (calls : list (string * string))
    (storeId fileName : string) (w : World) :
  (NoDup (ledgerOf w storeId) → NoDup (ledgerOf (recordAll calls w).1 storeId))
  ∧ (tracker_file w = None → NoDup (ledgerOf (recordAll calls w).1 storeId))
  ∧ (fileName ∈ ledgerOf w storeId →
     addUploadedFile storeId fileName w = (w, Ok tt))
  ∧ (∃ files,
       (listDocumentsInRagStore storeId w).2 = Ok files
       ∧ files = firstOccurrences (ledgerOf w storeId)
       ∧ NoDup files
       ∧ (∀ f, f ∈ files ↔ f ∈ ledgerOf w storeId)
       ∧ (fs_write_fails w = false →
          ledgerOf (listDocumentsInRagStore storeId w).1 storeId = files))
  ∧ (∃ files,
       (listDocumentsInRagStore storeId (recordAll calls w).1).2 = Ok files
       ∧ NoDup files
       ∧ (∀ f, f ∈ files ↔ f ∈ ledgerOf (recordAll calls w).1 storeId))
  ∧ (Forall (λ call, shadowed w call.1 = false) calls →
     ∃ w' files,
       (_ <- recordAll calls ;; listDocumentsInRagStore storeId) w = (w', Ok files)
       ∧ NoDup files)
  ∧ (shadowed w storeId = true →
     addUploadedFile storeId fileName w = (w, Throw (readOfUndefined "includes"))).
Proof.
  split_and!.
  - apply recordAll_NoDup.
  - intros Hnone. apply recordAll_NoDup. unfold ledgerOf. rewrite Hnone. simpl.
    rewrite lookup_empty. apply NoDup_nil_2.
  - apply addUploadedFile_present.
  - exists (firstOccurrences (ledgerOf w storeId)). split_and!.
    + apply listDocumentsInRagStore_result.
    + done.
    + apply firstOccurrences_NoDup.
    + apply elem_of_firstOccurrences.
    + apply listDocumentsInRagStore_persisted.
  - exists (firstOccurrences (ledgerOf (recordAll calls w).1 storeId)). split_and!.
    + apply listDocumentsInRagStore_result.
    + apply firstOccurrences_NoDup.
    + apply elem_of_firstOccurrences.
  - intros Hcalls. unfold bind. pose proof (recordAll_ok calls w Hcalls) as Hok.
    destruct (recordAll calls w) as [w1 r]. simpl in Hok. subst r.
    pose proof (listDocumentsInRagStore_result w1 storeId) as Hres.
    destruct (listDocumentsInRagStore storeId w1) as [w2 r]. simpl in Hres. subst r.
    exists w2, (firstOccurrences (ledgerOf w1 storeId)).
    split; [done | apply firstOccurrences_NoDup].
  - apply addUploadedFile_throws.
Qed.

Lemma ledger_set_invariant_witness :
  ∃ files,
    (listDocumentsInRagStore "store" legacyWorld).2 = Ok files
    ∧ NoDup files
    ∧ ledgerOf (listDocumentsInRagStore "store" legacyWorld).1 "store" = files.
Proof.
  destruct (ledger_set_invariant [] "store" "a.txt" legacyWorld)
    as (_ & _ & _ & (files & Hres & _ & Hnd & _ & Hsaved) & _ & _ & _).
  exists files. split; [exact Hres |]. split; [exact Hnd | exact (Hsaved eq_refl)].
Defined.

Example listing_heals_legacy_ledger :
  (listDocumentsInRagStore "store" legacyWorld).2 = Ok ["a.txt"; "b.txt"]
  ∧ ledgerOf (listDocumentsInRagStore "store" legacyWorld).1 "store" = ["a.txt"; "b.txt"].
Proof. split; by vm_compute. Qed.

(** C10.  On a ledger with no entry for the store named
    ["constructor"], [deduplicateTrackerEntries] does not report three
    zeros: the lookup finds the value every object inherits under that
    name, the absent-store return is passed over and reading the length
    of the missing list throws.  The world is left as it was. *)
Theorem deduplicate_absent_store_throws :
  default ∅ (tracker_file freshWorld) !! "constructor" = None
  ∧ deduplicateTrackerEntries "constructor" freshWorld
    = (freshWorld, Throw "Cannot read properties of undefined (reading 'length')").
Proof. split; by vm_compute. Qed.

(** ** The corpus differ *)

Section Differ.

Lemma map_set_absent (m : list (string * string)) (k v : string) :
  k ∉ m.*1 → JsMap.set m k v = m ++ [(k, v)].
Proof.
  induction m as [| [k' v'] m IH]; intros Hout; simpl; [done |].
  rewrite fmap_cons, not_elem_of_cons in Hout. destruct Hout as [Hne Hout].
  rewrite decide_False by done. by rewrite IH.
Qed.

Lemma keys_pairs (l : list string) : JsMap.keys ((λ f, (f, f)) <$> l) = l.
Proof.
  unfold JsMap.keys. induction l as [| x l IH]; simpl; [done | by f_equal].
Qed.

Lemma filter_all {A} (P : A → Prop) `{∀ x, Decision (P x)} (l : list A) :
  (∀ x, x ∈ l → P x) → filter P l = l.
Proof.
  induction l as [| x l IH]; intros Hall; [done |].
  rewrite filter_cons, decide_True by (apply Hall; left).
  f_equal. apply IH. intros y Hy. apply Hall. by right.
Qed.

(** The [Map] loop computes the first occurrences and the repeats. *)
Lemma dedupDirectory_spec (allFilesArray : list string) :
  dedupDirectory allFilesArray
  = ((λ f, (f, f)) <$> firstOccurrences allFilesArray, repeatedOccurrences allFilesArray).
Proof.
  unfold dedupDirectory.
  induction allFilesArray as [| x l IH] using rev_ind; [done |].
  rewrite foldl_app, IH. simpl.
  rewrite firstOccurrences_snoc, repeatedOccurrences_snoc.
  unfold JsMap.has. fold (JsMap.keys ((λ f, (f, f)) <$> firstOccurrences l)).
  rewrite keys_pairs.
  destruct (decide (x ∈ l)) as [Hin | Hout].
  - rewrite bool_decide_eq_true_2 by (by apply elem_of_firstOccurrences).
    by rewrite app_nil_r.
  - rewrite bool_decide_eq_false_2 by (by rewrite elem_of_firstOccurrences).
    rewrite map_set_absent.
    + by rewrite fmap_app, app_nil_r.
    + fold (JsMap.keys ((λ f, (f, f)) <$> firstOccurrences l)).
      rewrite keys_pairs. by rewrite elem_of_firstOccurrences.
Qed.

(** The side-effecting [filter] callback of resume mode is a partition. *)
Lemma resume_fold (uploaded allFiles kept already skippedSoFar : list string) :
  foldl (resumeStep uploaded) (kept, already, skippedSoFar) allFiles
  = (kept ++ filter (λ f, f ∉ uploaded) allFiles,
     already ++ filter (λ f, f ∈ uploaded) allFiles,
     skippedSoFar ++ filter (λ f, f ∈ uploaded) allFiles).
Proof.
  revert kept already skippedSoFar.
  induction allFiles as [| x l IH]; intros kept already skippedSoFar; simpl.
  - by rewrite !app_nil_r.
  - unfold JsSet.has. rewrite !filter_cons.
    destruct (decide (x ∈ uploaded)) as [Hin | Hout].
    + rewrite bool_decide_eq_true_2 by done. rewrite IH.
      rewrite decide_False by (intros H; exact (H Hin)).
      by rewrite <- !app_assoc.
    + rewrite bool_decide_eq_false_2 by done. rewrite IH.
      rewrite decide_True by done. by rewrite <- !app_assoc.
Qed.

Lemma firstOccurrences_sublist (l : list string) : firstOccurrences l `sublist_of` l.
Proof.
  induction l as [| x l IH] using rev_ind; [done |].
  rewrite firstOccurrences_snoc. apply sublist_app; [done |].
  destruct (decide (x ∈ l)); [apply sublist_nil_l | done].
Qed.

(** The differ's result, in closed form. *)
Lemma computeUploadSet_result (ragStoreName : string) (allFilesArray : list string)
    (resumeMode : bool) (w : World) :
  (computeUploadSet ragStoreName allFilesArray resumeMode w).2
  = Ok (filter (λ f, ¬ (resumeMode = true ∧ f ∈ ledgerOf w ragStoreName))
               (firstOccurrences allFilesArray),
        repeatedOccurrences allFilesArray
        ++ (if resumeMode
            then filter (λ f, f ∈ ledgerOf w ragStoreName) (firstOccurrences allFilesArray)
            else [])).
Proof.
  unfold computeUploadSet. rewrite dedupDirectory_spec, keys_pairs.
  destruct resumeMode.
  - unfold bind.
    pose proof (listDocumentsInRagStore_result w ragStoreName) as Hres.
    destruct (listDocumentsInRagStore ragStoreName w) as [w1 r]. simpl in Hres. subst r.
    rewrite resume_fold. simpl. do 2 f_equal.
    + apply list_filter_iff. intros f. rewrite elem_of_firstOccurrences. tauto.
    + f_equal. apply list_filter_iff. intros f. by rewrite elem_of_firstOccurrences.
  - simpl. do 2 f_equal.
    + symmetry. apply filter_all. intros f _ [Hres _]. done.
    + by rewrite app_nil_r.
Qed.

End Differ.

(** C1.  The differ keeps the first occurrence of every listed name, in
    listing order, and in resume mode drops the names the ledger already
    records for the store; every later occurrence of a name, and in resume
    mode every dropped name, is pushed onto [skipped]. *)
Theorem corpus_differ_spec (ragStoreName : string) (allFilesArray : list string)
    (resumeMode : bool) (w : World) :
  ∃ toUpload skipped,
    (computeUploadSet ragStoreName allFilesArray resumeMode w).2 = Ok (toUpload, skipped)
    ∧ toUpload
      = filter (λ f, ¬ (resumeMode = true ∧ f ∈ ledgerOf w ragStoreName))
               (firstOccurrences allFilesArray)
    ∧ skipped
      = repeatedOccurrences allFilesArray
        ++ (if resumeMode
            then filter (λ f, f ∈ ledgerOf w ragStoreName) (firstOccurrences allFilesArray)
            else [])
    ∧ NoDup toUpload
    ∧ toUpload `sublist_of` allFilesArray
    ∧ (∀ f, f ∈ toUpload
            ↔ f ∈ allFilesArray ∧ ¬ (resumeMode = true ∧ f ∈ ledgerOf w ragStoreName))
    ∧ (∀ f, 2 ≤ length (filter (λ g, g = f) allFilesArray) → f ∈ skipped)
    ∧ (∀ f, resumeMode = true → f ∈ allFilesArray → f ∈ ledgerOf w ragStoreName →
            f ∈ skipped).
Proof.
  eexists _, _. split; [apply computeUploadSet_result |].
  split_and!; try done.
  - apply NoDup_filter, firstOccurrences_NoDup.
  - etrans; [apply sublist_filter | apply firstOccurrences_sublist].
  - intros f. rewrite list_elem_of_filter, elem_of_firstOccurrences. tauto.
  - intros f Htwice. apply elem_of_app. left. by apply repeated_twice.
  - intros f -> Hin Hled. apply elem_of_app. right.
    apply list_elem_of_filter. by rewrite elem_of_firstOccurrences.
Qed.

(** ** Events and the world *)

Section Frame.

Implicit Types (w : World) (e : Event) (events : list Event).

Lemma play_nil w : play [] w = w.
Proof. done. Qed.

Lemma play_app events1 events2 w :
  play (events1 ++ events2) w = play events2 (play events1 w).
Proof. unfold play. by rewrite foldl_app. Qed.

Lemma play_cons e events w : play (e :: events) w = play events (happen w e).
Proof. done. Qed.

Lemma trace_play events w : trace (play events w) = trace w ++ events.
Proof.
  revert w. induction events as [| e events IH]; intros w.
  - by rewrite app_nil_r.
  - rewrite play_cons, IH. destruct e; simpl; by rewrite <- app_assoc.
Qed.

(** Events never touch the client, the local files other than the ledger,
    or the behaviour of the remote service. *)
Lemma ai_play events w : ai (play events w) = ai w.
Proof.
  revert w. induction events as [| e events IH]; intros w; [done |].
  rewrite play_cons, IH. by destruct e.
Qed.

Lemma fs_readable_play events w : fs_readable (play events w) = fs_readable w.
Proof.
  revert w. induction events as [| e events IH]; intros w; [done |].
  rewrite play_cons, IH. by destruct e.
Qed.

Lemma fs_write_fails_play events w : fs_write_fails (play events w) = fs_write_fails w.
Proof.
  revert w. induction events as [| e events IH]; intros w; [done |].
  rewrite play_cons, IH. by destruct e.
Qed.

Lemma ingestion_play events w : ingestion (play events w) = ingestion w.
Proof.
  revert w. induction events as [| e events IH]; intros w; [done |].
  rewrite play_cons, IH. by destruct e.
Qed.

Lemma submissions_play events w :
  submissions (play events w) = submissions w + length (List.filter isSubmit events).
Proof.
  revert w. induction events as [| e events IH]; intros w.
  - rewrite play_nil. simpl. lia.
  - rewrite play_cons, IH. destruct e; unfold happen; simpl; lia.
Qed.

(** Without a ledger write the ledger file stays as it is. *)
Lemma tracker_file_play events w :
  List.filter isSave events = [] → tracker_file (play events w) = tracker_file w.
Proof.
  revert w. induction events as [| e events IH]; intros w Hnone; [done |].
  rewrite play_cons. destruct e; simpl in Hnone; try done; by rewrite IH.
Qed.

End Frame.

(** ** The uploader *)

Section Uploader.

Context {lib : NodeLib}.

Implicit Types (w : World) (i : Ingestion).

Lemma pollRounds_S fileName k :
  pollRounds fileName (S k) = [EvDelay 3000; EvPoll fileName] ++ pollRounds fileName k.
Proof. done. Qed.

(** An operation that never completes uses up the whole poll budget. *)
Lemma poll_stalls fileName budget file polled w :
  pollUntilDone fileName budget
    {| op_file := file; op_script := Stalls; op_polled := polled; done := false |} w
  = (play (pollRounds file budget) w, Throw (timeoutMessage fileName)).
Proof.
  revert polled w. induction budget as [| budget IH]; intros polled w; [done |].
  simpl. unfold bind, delay, perform, operations_get. simpl.
  rewrite IH. by rewrite pollRounds_S, play_app.
Qed.

(** An operation that completes at poll [polls]. *)
Lemma poll_done fileName budget file polls polled w :
  pollUntilDone fileName budget
    {| op_file := file; op_script := DoneAfter polls; op_polled := polled;
       done := polls <=? polled |} w
  = if polls - polled <=? budget
    then (play (pollRounds file (polls - polled)) w, Ok tt)
    else (play (pollRounds file budget) w, Throw (timeoutMessage fileName)).
Proof.
  revert polled w. induction budget as [| budget IH]; intros polled w.
  - simpl. destruct (polls <=? polled) eqn:Hdone.
    + apply Nat.leb_le in Hdone. replace (polls - polled) with 0 by lia. done.
    + apply Nat.leb_gt in Hdone. rewrite (proj2 (Nat.leb_gt _ _)) by lia. done.
  - simpl. destruct (polls <=? polled) eqn:Hdone.
    + apply Nat.leb_le in Hdone. replace (polls - polled) with 0 by lia. done.
    + apply Nat.leb_gt in Hdone.
      unfold bind, delay, perform, operations_get. simpl.
      rewrite IH. replace (polls - polled) with (S (polls - S polled)) by lia.
      rewrite pollRounds_S, !play_app.
      change (S (polls - S polled) <=? S budget) with (polls - S polled <=? budget).
      by destruct (polls - S polled <=? budget).
Qed.

(** An operation whose poll rejects after [pending] pending answers. *)
Lemma poll_throws fileName budget file pending msg polled w :
  polled ≤ pending →
  pollUntilDone fileName budget
    {| op_file := file; op_script := PollThrows pending msg; op_polled := polled;
       done := false |} w
  = if pending - polled <? budget
    then (play (pollRounds file (S (pending - polled))) w, Throw msg)
    else (play (pollRounds file budget) w, Throw (timeoutMessage fileName)).
Proof.
  revert polled w. induction budget as [| budget IH]; intros polled w Hle; [done |].
  simpl. unfold bind, delay, perform, operations_get. simpl.
  destruct (pending <? S polled) eqn:Hthrow.
  - apply Nat.ltb_lt in Hthrow. replace (pending - polled) with 0 by lia. done.
  - apply Nat.ltb_ge in Hthrow. rewrite IH by lia.
    replace (pending - polled) with (S (pending - S polled)) by lia.
    rewrite !pollRounds_S, !play_app.
    change (S (pending - S polled) <? S budget) with (pending - S polled <? budget).
    by destruct (pending - S polled <? budget).
Qed.

(** One attempt, in closed form. *)
Lemma attemptUpload_run ragStoreName filePath fileName onProgress w :
  let readable := fs_readable w filePath in
  let i := ingestion w (submissions w) fileName in
  attemptUpload ragStoreName filePath fileName onProgress w
  = (play (attemptEvents ragStoreName filePath fileName onProgress readable i) w,
     attemptOutcome filePath fileName readable i).
Proof.
  intros readable i. unfold attemptUpload, attemptEvents, attemptOutcome.
  rewrite play_app. unfold bind at 1.
  set (w0 := play (if onProgress then [EvFileProgress fileName] else []) w).
  assert ((if onProgress then perform (EvFileProgress fileName) else ret tt) w
          = (w0, Ok tt)) as -> by (unfold w0; by destruct onProgress).
  assert (fs_readable w0 filePath = readable) as Hread
    by (unfold w0; by rewrite fs_readable_play).
  assert (ingestion w0 (submissions w0) fileName = i) as Hscript.
  { unfold w0. rewrite ingestion_play, submissions_play.
    destruct onProgress; simpl; by rewrite Nat.add_0_r. }
  clearbody w0. unfold bind at 1, readFileSync. rewrite Hread.
  destruct readable; [| done].
  unfold perform. unfold bind at 1, uploadToFileSearchStore.
  replace (ingestion (happen w0 (EvReadFile filePath))
             (submissions (happen w0 (EvReadFile filePath))) fileName) with i by done.
  rewrite !play_app, !play_cons, !play_nil.
  set (w1 := happen (happen w0 (EvReadFile filePath))
               (EvSubmit ragStoreName fileName (getContentType filePath))).
  clearbody w1. unfold ingestionOutcome, pollCount, ingestionFails.
  destruct i as [msg | pending msg | polls |].
  - done.
  - unfold bind. rewrite poll_throws by lia. rewrite Nat.sub_0_r.
    destruct (pending <? maxPollAttempts) eqn:Hlt.
    + apply Nat.ltb_lt in Hlt. rewrite Nat.min_l by lia. by rewrite play_nil.
    + apply Nat.ltb_ge in Hlt. rewrite Nat.min_r by lia. by rewrite play_nil.
  - assert (∀ w', pollUntilDone fileName maxPollAttempts
              {| op_file := fileName; op_script := DoneAfter polls; op_polled := 0;
                 done := polls <=? 0 |} w'
            = if polls <=? maxPollAttempts
              then (play (pollRounds fileName polls) w', Ok tt)
              else (play (pollRounds fileName maxPollAttempts) w',
                    Throw (timeoutMessage fileName))) as Hpoll.
    { intros w'. rewrite poll_done. by rewrite Nat.sub_0_r. }
    unfold bind.
    destruct polls as [| polls].
    + by simpl.
    + specialize (Hpoll w1). simpl (S polls <=? 0) in Hpoll. rewrite Hpoll.
      destruct (S polls <=? maxPollAttempts) eqn:Hle.
      * apply Nat.leb_le in Hle. rewrite Nat.min_l by lia.
        rewrite (proj2 (Nat.ltb_ge _ _)) by lia. done.
      * apply Nat.leb_gt in Hle. rewrite Nat.min_r by lia.
        rewrite (proj2 (Nat.ltb_lt _ _)) by lia. by rewrite play_nil.
  - unfold bind. rewrite poll_stalls. by rewrite play_nil.
Qed.

Lemma ingestionOutcome_fails fileName i :
  ingestionFails i = true →
  ingestionOutcome fileName i = Throw (errorOf (ingestionOutcome fileName i)).
Proof.
  destruct i as [msg | pending msg | polls |]; simpl; try done.
  - by destruct (pending <? maxPollAttempts).
  - intros Hlt. apply Nat.ltb_lt in Hlt.
    rewrite (proj2 (Nat.leb_gt polls maxPollAttempts)) by lia. done.
Qed.

Lemma ingestionOutcome_succeeds fileName i :
  ingestionFails i = false → ingestionOutcome fileName i = Ok tt.
Proof.
  destruct i as [msg | pending msg | polls |]; simpl; try done.
  intros Hge. apply Nat.ltb_ge in Hge.
  by rewrite (proj2 (Nat.leb_le polls maxPollAttempts)).
Qed.

Lemma attemptOutcome_fails w filePath fileName k :
  attemptFails w filePath fileName k →
  attemptOutcome filePath fileName (fs_readable w filePath) (scriptOf w filePath fileName k)
  = Throw (attemptErrorAt w filePath fileName k).
Proof.
  unfold attemptFails, attemptErrorAt, attemptOutcome.
  intros [Hread | Hfail].
  - by rewrite Hread.
  - destruct (fs_readable w filePath); [| done]. by apply ingestionOutcome_fails.
Qed.

Lemma scriptOf_0 w filePath fileName :
  scriptOf w filePath fileName 0 = ingestion w (submissions w) fileName.
Proof. unfold scriptOf. destruct (fs_readable w filePath); by rewrite Nat.add_0_r. Qed.

Lemma pollRounds_no_submit fileName k : List.filter isSubmit (pollRounds fileName k) = [].
Proof. induction k as [| k IH]; [done |]. by rewrite pollRounds_S. Qed.

Lemma attemptEvents_submits ragStoreName filePath fileName onProgress readable i :
  length (List.filter isSubmit
            (attemptEvents ragStoreName filePath fileName onProgress readable i))
  = if readable then 1 else 0.
Proof.
  unfold attemptEvents. rewrite List.filter_app, length_app.
  destruct onProgress, readable; simpl; try done;
    rewrite List.filter_app, pollRounds_no_submit;
    by destruct (ingestionFails i).
Qed.

(** The world after a failed attempt and its backoff, seen from the next
    attempt: same files, same service, scripts shifted by one. *)
Lemma after_attempt w ragStoreName filePath fileName onProgress backoffDelay :
  let w' := play (attemptEventsAt w ragStoreName filePath fileName onProgress 0
                    ++ [EvDelay backoffDelay]) w in
  fs_readable w' filePath = fs_readable w filePath
  ∧ ∀ k, scriptOf w' filePath fileName k = scriptOf w filePath fileName (S k).
Proof.
  intros w'. split; [unfold w'; by rewrite fs_readable_play |].
  intros k. unfold scriptOf, w'.
  rewrite fs_readable_play, ingestion_play, submissions_play.
  unfold attemptEventsAt. rewrite List.filter_app, length_app, attemptEvents_submits.
  simpl. destruct (fs_readable w filePath); f_equal; lia.
Qed.

(** The three ways one turn of the retry loop can go. *)
Lemma retryLoop_succeeds ragStoreName filePath fileName onProgress remaining attempt w :
  ¬ attemptFails w filePath fileName 0 →
  retryLoop ragStoreName filePath fileName onProgress (S remaining) attempt w
  = (play (attemptEventsAt w ragStoreName filePath fileName onProgress 0) w, Ok tt).
Proof.
  intros Hok. cbn [retryLoop]. unfold bind, try_catch. rewrite attemptUpload_run.
  unfold attemptEventsAt. rewrite scriptOf_0.
  unfold attemptFails in Hok. rewrite scriptOf_0 in Hok.
  unfold attemptOutcome.
  destruct (fs_readable w filePath); [| exfalso; apply Hok; by left].
  destruct (ingestionFails (ingestion w (submissions w) fileName)) eqn:Hf;
    [exfalso; apply Hok; by right |].
  by rewrite ingestionOutcome_succeeds.
Qed.

Lemma retryLoop_gives_up ragStoreName filePath fileName onProgress remaining w :
  attemptFails w filePath fileName 0 →
  retryLoop ragStoreName filePath fileName onProgress (S remaining) (maxRetries - 1) w
  = (play (attemptEventsAt w ragStoreName filePath fileName onProgress 0) w,
     Throw (uploadFailed fileName maxRetries (attemptErrorAt w filePath fileName 0))).
Proof.
  intros Hfail. cbn [retryLoop]. unfold bind, try_catch. rewrite attemptUpload_run.
  pose proof (attemptOutcome_fails _ _ _ _ Hfail) as Hout.
  unfold attemptEventsAt. rewrite scriptOf_0 in *. by rewrite Hout.
Qed.

Lemma retryLoop_backs_off ragStoreName filePath fileName onProgress remaining attempt w :
  attemptFails w filePath fileName 0 →
  attempt ≠ maxRetries - 1 →
  retryLoop ragStoreName filePath fileName onProgress (S remaining) attempt w
  = retryLoop ragStoreName filePath fileName onProgress remaining (S attempt)
      (play (attemptEventsAt w ragStoreName filePath fileName onProgress 0
               ++ [EvDelay (backoff attempt)]) w).
Proof.
  intros Hfail Hnotlast. cbn [retryLoop]. unfold bind at 1, try_catch. unfold bind at 1. rewrite attemptUpload_run.
  pose proof (attemptOutcome_fails _ _ _ _ Hfail) as Hout.
  unfold attemptEventsAt. rewrite scriptOf_0 in *. rewrite Hout.
  rewrite (proj2 (Nat.eqb_neq attempt (maxRetries - 1)) Hnotlast).
  unfold bind, delay, perform, ret. by rewrite play_app.
Qed.

(** When every attempt fails the loop makes all the attempts that are
    left, backs off between them, and gives up with the last error. *)
Lemma retryLoop_exhausts ragStoreName filePath fileName onProgress remaining attempt w :
  attempt + S remaining = maxRetries →
  (∀ k, k ≤ remaining → attemptFails w filePath fileName k) →
  retryLoop ragStoreName filePath fileName onProgress (S remaining) attempt w
  = (play (withBackoff
             ((λ k, attemptEventsAt w ragStoreName filePath fileName onProgress k)
                <$> seq 0 (S remaining)) attempt) w,
     Throw (uploadFailed fileName maxRetries (attemptErrorAt w filePath fileName remaining))).
Proof.
  revert attempt w. induction remaining as [| remaining IH]; intros attempt w Hsum Hfail.
  - replace attempt with (maxRetries - 1) by lia.
    rewrite retryLoop_gives_up by (apply Hfail; lia). done.
  - rewrite retryLoop_backs_off; [| apply Hfail; lia | lia].
    pose proof (after_attempt w ragStoreName filePath fileName onProgress (backoff attempt))
      as [Hread Hscript].
    set (w' := play _ w) in *.
    assert (∀ k, attemptEventsAt w' ragStoreName filePath fileName onProgress k
                 = attemptEventsAt w ragStoreName filePath fileName onProgress (S k)) as Hev.
    { intros k. unfold attemptEventsAt. by rewrite Hread, Hscript. }
    rewrite IH.
    + unfold attemptErrorAt at 1. rewrite Hread, Hscript.
      fold (attemptErrorAt w filePath fileName (S remaining)). f_equal.
      unfold w'. rewrite <- play_app. f_equal.
      transitivity
        (withBackoff
           (attemptEventsAt w ragStoreName filePath fileName onProgress 0
              :: ((λ k, attemptEventsAt w' ragStoreName filePath fileName onProgress k)
                    <$> seq 0 (S remaining))) attempt).
      * cbn [seq fmap list_fmap withBackoff]. by rewrite <- !app_assoc.
      * f_equal. change (seq 0 (S (S remaining))) with (0 :: seq 1 (S remaining)).
        rewrite fmap_cons. f_equal.
        rewrite <- (fmap_S_seq 0 (S remaining)), <- list_fmap_compose.
        apply list_fmap_ext. intros ? k _. simpl. by rewrite Hev.
    + lia.
    + intros k Hk. unfold attemptFails. rewrite Hread, Hscript. apply Hfail. lia.
Qed.

Lemma pollRounds_uploader fileName k :
  Forall (λ e, isUploaderEvent e = true) (pollRounds fileName k).
Proof.
  induction k as [| k IH]; [apply Forall_nil_2 |].
  rewrite pollRounds_S. apply Forall_app. split; [| done].
  by repeat constructor.
Qed.

Lemma attemptEvents_uploader ragStoreName filePath fileName onProgress readable i :
  Forall (λ e, isUploaderEvent e = true)
    (attemptEvents ragStoreName filePath fileName onProgress readable i)
  ∧ EvReadFile filePath ∈ attemptEvents ragStoreName filePath fileName onProgress readable i.
Proof.
  unfold attemptEvents. split.
  - rewrite !Forall_app. split_and!.
    + destruct onProgress; by repeat constructor.
    + by repeat constructor.
    + destruct readable; [| apply Forall_nil_2].
      rewrite !Forall_app. split_and!; [by repeat constructor | apply pollRounds_uploader |].
      destruct (ingestionFails i); by repeat constructor.
  - rewrite !elem_of_app. right. left. by apply list_elem_of_singleton.
Qed.

Lemma attemptFails_dec w filePath fileName k :
  attemptFails w filePath fileName k ∨ ¬ attemptFails w filePath fileName k.
Proof.
  unfold attemptFails.
  destruct (fs_readable w filePath); [| by left; left].
  destruct (ingestionFails (scriptOf w filePath fileName k)); [by left; right |].
  right. intros [? | ?]; done.
Qed.

(** Whatever the service does, the retry loop only causes uploader events,
    and it ends normally or with the give-up error. *)
Lemma retryLoop_events ragStoreName filePath fileName onProgress remaining attempt w :
  ∃ events r,
    retryLoop ragStoreName filePath fileName onProgress remaining attempt w
    = (play events w, r)
    ∧ Forall (λ e, isUploaderEvent e = true) events
    ∧ (0 < remaining → EvReadFile filePath ∈ events)
    ∧ (r = Ok tt ∨ ∃ lastError, r = Throw (uploadFailed fileName maxRetries lastError)).
Proof.
  revert attempt w. induction remaining as [| remaining IH]; intros attempt w.
  - exists [], (Ok tt). split_and!; [done | apply Forall_nil_2 | lia | by left].
  - pose proof (attemptEvents_uploader ragStoreName filePath fileName onProgress
                  (fs_readable w filePath) (scriptOf w filePath fileName 0)) as [Hup Hrd].
    fold (attemptEventsAt w ragStoreName filePath fileName onProgress 0) in Hup, Hrd.
    destruct (attemptFails_dec w filePath fileName 0) as [Hfail | Hok].
    + destruct (decide (attempt = maxRetries - 1)) as [-> | Hnotlast].
      * eexists _, _. split; [by apply retryLoop_gives_up |].
        split_and!; [done | done | right; by eexists].
      * rewrite retryLoop_backs_off by done.
        destruct (IH (S attempt)
                    (play (attemptEventsAt w ragStoreName filePath fileName onProgress 0
                             ++ [EvDelay (backoff attempt)]) w))
          as (events & r & Hrun & Hall & _ & Hres).
        eexists _, r. split; [by rewrite Hrun, <- play_app |].
        split_and!; [| | done].
        -- rewrite !Forall_app. split_and!; [done | by repeat constructor | done].
        -- intros _. rewrite !elem_of_app. by left; left.
    + eexists _, _. split; [by apply retryLoop_succeeds |].
      split_and!; [done | done | by left].
Qed.

Lemma uploadFileToRagStore_events ragStoreName filePath onProgress w :
  ai w = true →
  ∃ events r,
    uploadFileToRagStore ragStoreName filePath onProgress w = (play events w, r)
    ∧ Forall (λ e, isUploaderEvent e = true) events
    ∧ EvReadFile filePath ∈ events
    ∧ (r = Ok tt
       ∨ ∃ lastError,
           r = Throw (uploadFailed (path_basename filePath) maxRetries lastError)).
Proof.
  intros Hai. unfold uploadFileToRagStore, bind, require_ai. rewrite Hai.
  destruct (retryLoop_events ragStoreName filePath (path_basename filePath) onProgress
              maxRetries 0 w) as (events & r & Hrun & Hall & Hrd & Hres).
  exists events, r. split_and!; [done | done | | done].
  apply Hrd. unfold maxRetries. lia.
Qed.

End Uploader.

Section PollTimeout.




End PollTimeout.

(** C2.  When every attempt fails, [uploadFileToRagStore]
    makes exactly [maxRetries] = 5 attempts, sleeps [baseDelay * 2^attempt]
    between consecutive attempts, that is 2 s, 4 s, 8 s and 16 s, does not
    sleep after the last attempt, and throws an error that carries the
    file name, the number of attempts and the last attempt's error. *)
Theorem upload_gives_up_after_max_retries {lib : NodeLib}
    (ragStoreName filePath : string) (onProgress : bool) (w : World) :
  ai w = true →
  (∀ k, k < maxRetries → attemptFails w filePath (path_basename filePath) k) →
  let fileName := path_basename filePath in
  let attempt k := attemptEventsAt w ragStoreName filePath fileName onProgress k in
  uploadFileToRagStore ragStoreName filePath onProgress w
  = (play (attempt 0 ++ [EvDelay 2000] ++ attempt 1 ++ [EvDelay 4000] ++ attempt 2
             ++ [EvDelay 8000] ++ attempt 3 ++ [EvDelay 16000] ++ attempt 4) w,
     Throw (uploadFailed fileName maxRetries (attemptErrorAt w filePath fileName 4)))
  ∧ (∀ k, backoff k = (baseDelay * 2 ^ N.of_nat k)%N)
  ∧ (fs_readable w filePath = true →
     submissions (uploadFileToRagStore ragStoreName filePath onProgress w).1
     = submissions w + maxRetries).
Proof.
  intros Hai Hfail fileName attempt.
  assert (uploadFileToRagStore ragStoreName filePath onProgress w
          = (play (attempt 0 ++ [EvDelay 2000] ++ attempt 1 ++ [EvDelay 4000] ++ attempt 2
                     ++ [EvDelay 8000] ++ attempt 3 ++ [EvDelay 16000] ++ attempt 4) w,
             Throw (uploadFailed fileName maxRetries (attemptErrorAt w filePath fileName 4))))
    as Hrun.
  { unfold uploadFileToRagStore, bind, require_ai. rewrite Hai.
    fold fileName. change maxRetries with (S 4) at 1.
    rewrite retryLoop_exhausts; [reflexivity | reflexivity |].
    intros k Hk. apply Hfail. unfold maxRetries. lia. }
  split_and!; [done | done |].
  intros Hread. rewrite Hrun. simpl. rewrite submissions_play.
  rewrite !List.filter_app, !length_app. unfold attempt, attemptEventsAt.
  rewrite Hread. unfold maxRetries.
  repeat first [ rewrite List.filter_app | rewrite length_app
               | rewrite attemptEvents_submits | progress simpl ].
  lia.
Qed.

Lemma upload_gives_up_after_max_retries_witness :
  uploadFileToRagStore (lib := posix) "store" "docs/a.txt" false rejectingWorld
  = (play [EvReadFile "docs/a.txt"; EvSubmit "store" "a.txt" "text/plain"; EvDelay 2000;
           EvReadFile "docs/a.txt"; EvSubmit "store" "a.txt" "text/plain"; EvDelay 4000;
           EvReadFile "docs/a.txt"; EvSubmit "store" "a.txt" "text/plain"; EvDelay 8000;
           EvReadFile "docs/a.txt"; EvSubmit "store" "a.txt" "text/plain"; EvDelay 16000;
           EvReadFile "docs/a.txt"; EvSubmit "store" "a.txt" "text/plain"] rejectingWorld,
     Throw "Failed to upload a.txt after 5 attempts: 503").
Proof.
  exact (proj1 (upload_gives_up_after_max_retries (lib := posix) "store" "docs/a.txt" false
                  rejectingWorld eq_refl (λ k _, or_intror eq_refl))).
Defined.

(** Against C2's list of delays (2 s, 4 s, 8 s, 16 s, 32 s): with five
    attempts there are four sleeps, and the 32 s delay is never taken. *)
Lemma upload_backoff_has_no_32s :
  delaysOf (trace (uploadFileToRagStore (lib := posix) "store" "docs/a.txt" false
                     rejectingWorld).1)
  = [2000; 4000; 8000; 16000]%N
  ∧ delaysOf (trace (uploadFileToRagStore (lib := posix) "store" "docs/a.txt" false
                       rejectingWorld).1)
    ≠ [2000; 4000; 8000; 16000; 32000]%N.
Proof. split; [by vm_compute | by vm_compute]. Qed.



(** ** The upload loop *)

Section Orchestrator.

Context {lib : NodeLib}.

Implicit Types (w : World) (st : LoopState) (runs : list FileRun).

Lemma uploadAlwaysFails_play events w filePath :
  uploadAlwaysFails (play events w) filePath ↔ uploadAlwaysFails w filePath.
Proof. unfold uploadAlwaysFails. by rewrite fs_readable_play, ingestion_play. Qed.

Lemma uploadAlwaysSucceeds_play events w filePath :
  uploadAlwaysSucceeds (play events w) filePath ↔ uploadAlwaysSucceeds w filePath.
Proof. unfold uploadAlwaysSucceeds. by rewrite fs_readable_play, ingestion_play. Qed.

Lemma goodRun_play events w ragStoreName directoryPath r :
  goodRun (play events w) ragStoreName directoryPath r
  → goodRun w ragStoreName directoryPath r.
Proof.
  unfold goodRun. rewrite uploadAlwaysFails_play, uploadAlwaysSucceeds_play. tauto.
Qed.

Lemma uploadAlwaysFails_throws ragStoreName filePath onProgress w :
  ai w = true → uploadAlwaysFails w filePath →
  ∃ e, (uploadFileToRagStore ragStoreName filePath onProgress w).2 = Throw e.
Proof.
  intros Hai Hfail. unfold uploadFileToRagStore, bind, require_ai. rewrite Hai.
  change maxRetries with (S 4) at 1.
  rewrite retryLoop_exhausts; [by eexists | done |].
  intros k _. unfold attemptFails, scriptOf. destruct Hfail as [Hread | Hall].
  - by left.
  - right. apply Hall.
Qed.

Lemma uploadAlwaysSucceeds_returns ragStoreName filePath onProgress w :
  ai w = true → uploadAlwaysSucceeds w filePath →
  (uploadFileToRagStore ragStoreName filePath onProgress w).2 = Ok tt.
Proof.
  intros Hai [Hread Hall]. unfold uploadFileToRagStore, bind, require_ai. rewrite Hai.
  change maxRetries with (S 4) at 1.
  rewrite retryLoop_succeeds; [done |].
  unfold attemptFails, scriptOf. rewrite Hread, Hall. intros [? | ?]; done.
Qed.

(** The ledger write of [addUploadedFile], as events; under an inherited
    name without an entry the call throws before any write. *)
Lemma addUploadedFile_events ragStoreName fileName w :
  (∃ saves,
     addUploadedFile ragStoreName fileName w = (play saves w, Ok tt)
     ∧ recordsFile ragStoreName fileName saves)
  ∨ (inherited ragStoreName = true
     ∧ addUploadedFile ragStoreName fileName w = (w, Throw (readOfUndefined "includes"))).
Proof.
  rewrite addUploadedFile_run.
  destruct (shadowed w ragStoreName) eqn:Hs.
  { right. split; [by apply shadowed_inherited in Hs | done]. }
  left. destruct (decide (fileName ∈ ledgerOf w ragStoreName)).
  { exists []. split; [done | by left]. }
  destruct (fs_write_fails w).
  { exists []. split; [done | by left]. }
  eexists [_]. split; [done |]. right. eexists _, _. split_and!; [done | |].
  - apply lookup_insert_eq.
  - simpl. apply elem_of_app. right. by apply list_elem_of_singleton.
Qed.

(** One turn of the loop for a file not yet uploaded in this session. *)
Lemma uploadLoop_turn ragStoreName directoryPath onProgress total i fileName rest st w :
  ai w = true →
  fileName ∉ uploadedInSession st →
  ∃ r,
    fr_file r = fileName
    ∧ goodRun w ragStoreName directoryPath r
    ∧ uploadLoop ragStoreName directoryPath onProgress total i (fileName :: rest) st w
      = uploadLoop ragStoreName directoryPath onProgress total (S i) rest
          {| ls_successful := ls_successful st ++ succeeded [r];
             ls_failed := ls_failed st ++ failures [r];
             ls_skipped := ls_skipped st;
             uploadedInSession := foldl JsSet.add (uploadedInSession st) (succeeded [r]) |}
          (play (turnEvents onProgress total i r) w).
Proof.
  intros Hai Hnew. cbn [uploadLoop].
  rewrite (proj2 (has_false _ _) Hnew).
  set (filePath := path_join directoryPath fileName).
  set (w0 := play (progressEvents onProgress (i + 1) total fileName) w).
  assert ((if onProgress then perform (EvProgress (i + 1) total fileName) else ret tt) w
          = (w0, Ok tt)) as Hprogress by (unfold w0; by destruct onProgress).
  assert (ai w0 = true) as Hai0 by (unfold w0; by rewrite ai_play).
  destruct (uploadFileToRagStore_events ragStoreName filePath false w0 Hai0)
    as (upload & res & Hrun & Hall & Hread & Hres).
  pose proof (uploadAlwaysFails_throws ragStoreName filePath false w0 Hai0) as Hfails.
  pose proof (uploadAlwaysSucceeds_returns ragStoreName filePath false w0 Hai0) as Hsucceeds.
  unfold w0 in Hfails, Hsucceeds.
  rewrite uploadAlwaysFails_play in Hfails. rewrite uploadAlwaysSucceeds_play in Hsucceeds.
  fold w0 in Hfails, Hsucceeds. rewrite Hrun in Hfails, Hsucceeds. simpl in Hfails, Hsucceeds.
  unfold bind at 1, try_catch. unfold bind at 1. rewrite Hprogress.
  unfold bind at 1. rewrite Hrun.
  destruct Hres as [-> | [lastError ->]].
  - destruct (addUploadedFile_events ragStoreName fileName (play upload w0))
      as [(saves & Hadd & Hrec) | [Hinherited Hadd]].
    + unfold bind at 1. rewrite Hadd. unfold ret.
      exists {| fr_file := fileName; fr_upload := upload; fr_error := None;
                fr_saves := saves |}.
      split_and!; [done | | ].
      * unfold goodRun. simpl. split_and!; try done.
        intros Hf. destruct (Hfails Hf) as [e He]. done.
      * unfold turnEvents, w0. simpl. by rewrite !play_app, app_nil_r.
    + unfold bind at 1. rewrite Hadd. unfold ret.
      exists {| fr_file := fileName; fr_upload := upload;
                fr_error := Some (readOfUndefined "includes"); fr_saves := [] |}.
      split_and!; [done | | ].
      * unfold goodRun. simpl. split_and!; try done.
        -- by right.
        -- intros Hf. destruct (Hfails Hf) as [e He]. done.
        -- intros _ Hown. by rewrite Hown in Hinherited.
      * unfold turnEvents, w0. simpl. by rewrite !play_app, app_nil_r.
  - exists {| fr_file := fileName; fr_upload := upload;
              fr_error := Some (uploadFailed (path_basename filePath) maxRetries lastError);
              fr_saves := [] |}.
    split_and!; [done | | ].
    + unfold goodRun. simpl. split_and!; try done.
      * left. by eexists.
      * intros _. by eexists.
      * intros Hs. specialize (Hsucceeds Hs). done.
    + unfold turnEvents, w0. simpl. by rewrite !play_app, app_nil_r.
Qed.

Lemma succeeded_cons r runs : succeeded (r :: runs) = succeeded [r] ++ succeeded runs.
Proof. unfold succeeded. simpl. by destruct (fr_error r). Qed.

Lemma failures_cons r runs : failures (r :: runs) = failures [r] ++ failures runs.
Proof. unfold failures. simpl. by destruct (fr_error r). Qed.

Lemma succeeded_files runs x : x ∈ succeeded runs → x ∈ fr_file <$> runs.
Proof.
  induction runs as [| r runs IH]; [done |].
  rewrite succeeded_cons, fmap_cons, elem_of_app, elem_of_cons.
  intros [Hx | Hx]; [left | right; by apply IH].
  unfold succeeded in Hx. simpl in Hx. destruct (fr_error r); [by apply elem_of_nil in Hx |].
  by apply list_elem_of_singleton in Hx.
Qed.

(** The whole loop: one good turn per file, in order; nothing is thrown
    and nothing is added to [skipped]. *)
Lemma uploadLoop_run ragStoreName directoryPath onProgress total files :
  ∀ i st w,
    ai w = true →
    NoDup files →
    (∀ f, f ∈ files → f ∉ uploadedInSession st) →
    ∃ runs,
      fr_file <$> runs = files
      ∧ Forall (goodRun w ragStoreName directoryPath) runs
      ∧ uploadLoop ragStoreName directoryPath onProgress total i files st w
        = (play (loopEvents onProgress total i runs) w,
           Ok {| ls_successful := ls_successful st ++ succeeded runs;
                 ls_failed := ls_failed st ++ failures runs;
                 ls_skipped := ls_skipped st;
                 uploadedInSession :=
                   foldl JsSet.add (uploadedInSession st) (succeeded runs) |}).
Proof.
  induction files as [| f rest IH]; intros i st w Hai Hnd Hnew.
  - exists []. split_and!; [done | apply Forall_nil_2 |].
    simpl. rewrite !app_nil_r. by destruct st.
  - apply NoDup_cons in Hnd as [Hf Hnd].
    destruct (uploadLoop_turn ragStoreName directoryPath onProgress total i f rest st w Hai)
      as (r & Hfile & Hgood & Hturn); [apply Hnew; left |].
    rewrite Hturn. clear Hturn.
    set (st1 := {| ls_successful := _ |}).
    set (w1 := play (turnEvents onProgress total i r) w).
    destruct (IH (S i) st1 w1) as (runs & Hfiles & Hall & Hloop).
    + unfold w1. by rewrite ai_play.
    + done.
    + intros g Hg. unfold st1. cbn [uploadedInSession]. rewrite elem_of_foldl_add.
      intros [Hin | Hin].
      * apply (Hnew g); [by right | done].
      * apply succeeded_files in Hin. simpl in Hin.
        apply list_elem_of_singleton in Hin. rewrite Hfile in Hin. by subst g.
    + exists (r :: runs). split_and!.
      * by rewrite fmap_cons, Hfile, Hfiles.
      * apply Forall_cons. split; [done |].
        eapply Forall_impl; [exact Hall |]. intros r'. apply goodRun_play.
      * rewrite Hloop. unfold w1, st1.
        cbn [ls_successful ls_failed ls_skipped uploadedInSession loopEvents].
        rewrite <- play_app, (succeeded_cons r runs), (failures_cons r runs).
        by rewrite foldl_app, <- !app_assoc.
Qed.

(** The differ writes at most the self-healed ledger. *)
Lemma computeUploadSet_run ragStoreName allFilesArray resumeMode w :
  ∃ saves,
    Forall (λ e, isSave e = true) saves
    ∧ computeUploadSet ragStoreName allFilesArray resumeMode w
      = (play saves w,
         Ok (toUploadOf w ragStoreName allFilesArray resumeMode,
             skippedOf w ragStoreName allFilesArray resumeMode)).
Proof.
  pose proof (computeUploadSet_result ragStoreName allFilesArray resumeMode w) as Hres.
  fold (toUploadOf w ragStoreName allFilesArray resumeMode) in Hres.
  fold (skippedOf w ragStoreName allFilesArray resumeMode) in Hres.
  assert (∃ saves, Forall (λ e, isSave e = true) saves
                   ∧ (computeUploadSet ragStoreName allFilesArray resumeMode w).1
                     = play saves w) as (saves & Hsaves & Hworld).
  { unfold computeUploadSet. destruct (dedupDirectory allFilesArray) as [m dups].
    destruct resumeMode; [| by exists []].
    unfold bind. rewrite listDocumentsInRagStore_run. simpl.
    destruct (decide _).
    { destruct (foldl _ _ _) as [[? ?] ?]. by exists []. }
    destruct (fs_write_fails w).
    { destruct (foldl _ _ _) as [[? ?] ?]. by exists []. }
    destruct (foldl _ _ _) as [[? ?] ?]. eexists [_]. split; [| done].
    by repeat constructor. }
  exists saves. split; [done |].
  destruct (computeUploadSet ragStoreName allFilesArray resumeMode w) as [w1 r].
  simpl in *. by subst.
Qed.

Lemma toUploadOf_NoDup w ragStoreName allFilesArray resumeMode :
  NoDup (toUploadOf w ragStoreName allFilesArray resumeMode).
Proof. apply NoDup_filter, firstOccurrences_NoDup. Qed.

(** The whole of [uploadDirectoryToRagStore] on a directory that holds a
    supported file. *)
Lemma uploadDirectoryToRagStore_run ragStoreName directoryPath onProgress resumeMode
    entries w :
  ai w = true →
  fs_readdir w directoryPath = Some entries →
  List.filter isSupported entries ≠ [] →
  let toUpload := toUploadOf w ragStoreName (List.filter isSupported entries) resumeMode in
  ∃ saves runs,
    Forall (λ e, isSave e = true) saves
    ∧ fr_file <$> runs = toUpload
    ∧ Forall (goodRun w ragStoreName directoryPath) runs
    ∧ uploadDirectoryToRagStore ragStoreName directoryPath onProgress resumeMode w
      = (play (saves ++ loopEvents onProgress (length toUpload) 0 runs) w,
         Ok {| successful := succeeded runs;
               failed := failures runs;
               skipped := skippedOf w ragStoreName (List.filter isSupported entries)
                            resumeMode |}).
Proof.
  intros Hai Hdir Hsome toUpload.
  destruct (computeUploadSet_run ragStoreName (List.filter isSupported entries)
              resumeMode w) as (saves & Hsaves & Hplan).
  fold toUpload in Hplan.
  destruct (uploadLoop_run ragStoreName directoryPath onProgress (length toUpload) toUpload
              0 {| ls_successful := []; ls_failed := [];
                   ls_skipped := skippedOf w ragStoreName
                                   (List.filter isSupported entries) resumeMode;
                   uploadedInSession := [] |} (play saves w))
    as (runs & Hfiles & Hgood & Hloop).
  { by rewrite ai_play. }
  { apply toUploadOf_NoDup. }
  { intros f _. apply not_elem_of_nil. }
  exists saves, runs. split_and!; [done | done | |].
  - eapply Forall_impl; [exact Hgood |]. intros r. apply goodRun_play.
  - unfold uploadDirectoryToRagStore, bind, require_ai, readdirSync.
    rewrite Hai, Hdir.
    destruct (List.filter isSupported entries) as [| x l] eqn:Hfilter; [done |].
    cbn [length Nat.eqb]. rewrite Hplan, Hloop. unfold ret. by rewrite play_app.
Qed.

End Orchestrator.

Section Accounting.

Implicit Types (runs : list FileRun).

Lemma elem_of_succeeded runs f :
  f ∈ succeeded runs ↔ ∃ r, r ∈ runs ∧ fr_file r = f ∧ fr_error r = None.
Proof.
  unfold succeeded. rewrite list_elem_of_omap. split.
  - intros (r & Hr & Hsome). exists r. destruct (fr_error r); naive_solver.
  - intros (r & Hr & Hf & Herr). exists r. rewrite Herr. naive_solver.
Qed.

Lemma elem_of_failures runs f e :
  (f, e) ∈ failures runs ↔ ∃ r, r ∈ runs ∧ fr_file r = f ∧ fr_error r = Some e.
Proof.
  unfold failures. rewrite list_elem_of_omap. split.
  - intros (r & Hr & Hsome). exists r. destruct (fr_error r); naive_solver.
  - intros (r & Hr & Hf & Herr). exists r. rewrite Herr. naive_solver.
Qed.

(** Each turn lands in exactly one of the two lists. *)
Lemma succeeded_failures_perm runs :
  succeeded runs ++ (failures runs).*1 ≡ₚ fr_file <$> runs.
Proof.
  induction runs as [| r runs IH]; [done |].
  rewrite succeeded_cons, failures_cons, fmap_app, fmap_cons.
  unfold succeeded at 1, failures at 1. simpl.
  destruct (fr_error r); simpl.
  - rewrite <- IH. by rewrite Permutation_middle.
  - by rewrite IH.
Qed.

Lemma succeeded_failures_length runs :
  length (succeeded runs) + length (failures runs) = length runs.
Proof.
  rewrite <- (length_fmap fr_file runs), <- (succeeded_failures_perm runs).
  by rewrite length_app, length_fmap.
Qed.

Lemma loopEvents_turns onProgress total i runs :
  loopEvents onProgress total i runs
  = concat (imap (λ k r, turnEvents onProgress total (i + k) r) runs).
Proof.
  revert i. induction runs as [| r runs IH]; intros i; [done |].
  simpl. rewrite Nat.add_0_r, IH. do 2 f_equal.
  apply imap_ext. intros k r' _. simpl. f_equal. lia.
Qed.

End Accounting.

(** C9.  On a directory with at least one supported file the run returns a
    result in which every name of [toUpload] is in exactly one of
    [successful] and [failed], so the two lengths add up to
    [toUpload.length]; [skipped] is what the differ produced: the
    in-session guard adds nothing, because [toUpload] has no duplicates. *)
Theorem every_upload_is_accounted_for {lib : NodeLib}
    (ragStoreName directoryPath : string) (onProgress resumeMode : bool)
    (entries : list string) (w : World) :
  ai w = true →
  fs_readdir w directoryPath = Some entries →
  List.filter isSupported entries ≠ [] →
  ∃ w' result toUpload,
    uploadDirectoryToRagStore ragStoreName directoryPath onProgress resumeMode w
    = (w', Ok result)
    ∧ (computeUploadSet ragStoreName (List.filter isSupported entries) resumeMode w).2
      = Ok (toUpload, skipped result)
    ∧ NoDup toUpload
    ∧ successful result ++ (failed result).*1 ≡ₚ toUpload
    ∧ (∀ f, f ∈ toUpload →
            (f ∈ successful result ∧ (f ∉ (failed result).*1))
            ∨ ((f ∉ successful result) ∧ f ∈ (failed result).*1))
    ∧ length (successful result) + length (failed result) = length toUpload.
Proof.
  intros Hai Hdir Hsome.
  destruct (uploadDirectoryToRagStore_run ragStoreName directoryPath onProgress resumeMode
              entries w Hai Hdir Hsome) as (saves & runs & _ & Hfiles & _ & Hrun).
  eexists _, _, (toUploadOf w ragStoreName (List.filter isSupported entries) resumeMode).
  split; [exact Hrun |]. simpl.
  pose proof (toUploadOf_NoDup w ragStoreName (List.filter isSupported entries) resumeMode)
    as Hnd.
  pose proof (succeeded_failures_perm runs) as Hperm. rewrite Hfiles in Hperm.
  split_and!.
  - apply computeUploadSet_result.
  - done.
  - done.
  - intros f Hf. rewrite <- Hperm in Hnd, Hf.
    apply NoDup_app in Hnd as (_ & Hdisj & _). apply elem_of_app in Hf as [Hs | Hfl].
    + left. split; [done | by apply Hdisj].
    + right. split; [| done]. intros Hs. by apply (Hdisj f Hs).
  - rewrite <- Hfiles, length_fmap. apply succeeded_failures_length.
Qed.

Lemma loopEvents_upload onProgress total i (runs : list FileRun) r e :
  r ∈ runs → e ∈ fr_upload r → e ∈ loopEvents onProgress total i runs.
Proof.
  revert i. induction runs as [| r' runs IH]; intros i Hr He.
  - by apply elem_of_nil in Hr.
  - simpl. apply elem_of_cons in Hr as [<- | Hr].
    + unfold turnEvents. rewrite !elem_of_app. left. right. by left.
    + apply elem_of_app. right. by apply IH.
Qed.

(** Membership in a list given by its elements. *)
Ltac here := repeat first [ apply list_elem_of_here | apply list_elem_of_further ].

(** X25.  A run over a directory with a supported file always returns a
    result: a failing upload is caught, recorded in [failed] with its error
    message, and the loop goes on, so that by the time the result is
    returned every file of [toUpload] has been read for upload.  A file
    whose uploads always fail is in [failed] with the give-up message.
    An entry of [failed] carries the give-up message of the uploader or,
    under a store name that the ledger object inherits a value for, the
    error of the ledger write.  Under any other store name a file whose
    uploads always succeed is in [successful] wherever it stands in the
    batch, and with five documents of which only the third fails,
    [successful] holds the other four and [failed] holds the third. *)
Theorem batch_outcome_by_store_name {lib : NodeLib}
    (ragStoreName directoryPath : string) (onProgress resumeMode : bool)
    (entries : list string) (w : World) :
  ai w = true →
  fs_readdir w directoryPath = Some entries →
  List.filter isSupported entries ≠ [] →
  let toUpload := toUploadOf w ragStoreName (List.filter isSupported entries) resumeMode in
  ∃ w' result events,
    uploadDirectoryToRagStore ragStoreName directoryPath onProgress resumeMode w
    = (w', Ok result)
    ∧ trace w' = trace w ++ events
    ∧ (∀ f, f ∈ toUpload → EvReadFile (path_join directoryPath f) ∈ events)
    ∧ (∀ f, f ∈ toUpload → uploadAlwaysFails w (path_join directoryPath f) →
            ∃ lastError,
              (f, uploadFailed (path_basename (path_join directoryPath f)) maxRetries lastError)
              ∈ failed result)
    ∧ (inherited ragStoreName = false →
       ∀ f, f ∈ toUpload → uploadAlwaysSucceeds w (path_join directoryPath f) →
            f ∈ successful result)
    ∧ (∀ f errorMessage,
         (f, errorMessage) ∈ failed result →
         f ∈ toUpload
         ∧ ((∃ lastError,
               errorMessage
               = uploadFailed (path_basename (path_join directoryPath f)) maxRetries lastError)
            ∨ (inherited ragStoreName = true
               ∧ errorMessage = readOfUndefined "includes")))
    ∧ (inherited ragStoreName = false →
       ∀ d1 d2 d3 d4 d5,
         toUpload = [d1; d2; d3; d4; d5] →
         uploadAlwaysFails w (path_join directoryPath d3) →
         (∀ d, d ∈ [d1; d2; d4; d5] → uploadAlwaysSucceeds w (path_join directoryPath d)) →
         successful result = [d1; d2; d4; d5]
         ∧ (∃ errorMessage, failed result = [(d3, errorMessage)])
         ∧ length (successful result) = 4
         ∧ length (failed result) = 1).
Proof.
  intros Hai Hdir Hsome toUpload.
  destruct (uploadDirectoryToRagStore_run ragStoreName directoryPath onProgress resumeMode
              entries w Hai Hdir Hsome) as (saves & runs & _ & Hfiles & Hgood & Hrun).
  fold toUpload in Hfiles, Hrun.
  eexists _, _, _. split; [exact Hrun |]. simpl.
  rewrite Forall_forall in Hgood.
  assert (∀ f, f ∈ toUpload → ∃ r, r ∈ runs ∧ fr_file r = f) as Hfind.
  { intros f Hf. rewrite <- Hfiles in Hf. apply list_elem_of_fmap in Hf as (r & -> & Hr).
    by exists r. }
  split_and!.
  - apply trace_play.
  - intros f Hf. destruct (Hfind f Hf) as (r & Hr & <-).
    apply elem_of_app. right. eapply loopEvents_upload; [exact Hr |].
    by destruct (Hgood r Hr) as (_ & Hread & _).
  - intros f Hf Hfails. destruct (Hfind f Hf) as (r & Hr & <-).
    destruct (Hgood r Hr) as (_ & _ & _ & Hmust & _).
    destruct (Hmust Hfails) as [lastError He]. exists lastError.
    apply elem_of_failures. by exists r.
  - intros Hown f Hf Hok. destruct (Hfind f Hf) as (r & Hr & <-).
    destruct (Hgood r Hr) as (_ & _ & _ & _ & Hmust).
    apply elem_of_succeeded. exists r. split_and!; [done | done | by apply Hmust].
  - intros f e Hfailed. apply elem_of_failures in Hfailed as (r & Hr & <- & He).
    split; [rewrite <- Hfiles; by apply list_elem_of_fmap_2 |].
    destruct (Hgood r Hr) as (_ & _ & Herr & _). rewrite He in Herr.
    by destruct Herr as [_ Hshape].
  - intros Hown d1 d2 d3 d4 d5 Hfive Hfails Hok. rewrite Hfive in Hfiles.
    destruct runs as [| r1 [| r2 [| r3 [| r4 [| r5 [| r6 runs]]]]]]; try discriminate Hfiles.
    injection Hfiles as E1 E2 E3 E4 E5. subst d1 d2 d3 d4 d5.
    assert (fr_error r1 = None) as H1.
    { apply (Hgood r1); [here | apply Hok; here | done]. }
    assert (fr_error r2 = None) as H2.
    { apply (Hgood r2); [here | apply Hok; here | done]. }
    assert (fr_error r4 = None) as H4.
    { apply (Hgood r4); [here | apply Hok; here | done]. }
    assert (fr_error r5 = None) as H5.
    { apply (Hgood r5); [here | apply Hok; here | done]. }
    assert (∃ e, fr_error r3 = Some e) as [e H3].
    { destruct (Hgood r3) as (_ & _ & _ & Hmust & _); [here |].
      destruct (Hmust Hfails) as [lastError He]. by eexists. }
    unfold succeeded, failures. simpl. rewrite H1, H2, H3, H4, H5. simpl.
    split_and!; [done | by eexists | done | done].
Qed.

Lemma fiveDocs_supported :
  List.filter (isSupported (lib := posix))
    ["d1.txt"; "d2.txt"; "d3.txt"; "d4.txt"; "d5.txt"] ≠ [].
Proof. vm_compute. discriminate. Qed.

Lemma fiveDocs_toUpload :
  toUploadOf fiveDocsWorld "store"
    (List.filter (isSupported (lib := posix))
       ["d1.txt"; "d2.txt"; "d3.txt"; "d4.txt"; "d5.txt"]) false
  = ["d1.txt"; "d2.txt"; "d3.txt"; "d4.txt"; "d5.txt"].
Proof. by vm_compute. Qed.

Lemma fiveDocs_third_fails :
  uploadAlwaysFails (lib := posix) fiveDocsWorld (path_join (NodeLib := posix) "docs" "d3.txt").
Proof. right. intros n. vm_compute. reflexivity. Qed.

Lemma fiveDocs_others_succeed d :
  d ∈ ["d1.txt"; "d2.txt"; "d4.txt"; "d5.txt"] →
  uploadAlwaysSucceeds (lib := posix) fiveDocsWorld (path_join (NodeLib := posix) "docs" d).
Proof.
  intros Hd. split; [vm_compute; reflexivity |]. intros n.
  repeat (apply elem_of_cons in Hd as [-> | Hd]; [vm_compute; reflexivity |]).
  by apply elem_of_nil in Hd.
Qed.

Lemma batch_outcome_by_store_name_witness :
  ∃ w' result,
    uploadDirectoryToRagStore (lib := posix) "store" "docs" true false fiveDocsWorld
    = (w', Ok result)
    ∧ length (successful result) = 4
    ∧ length (failed result) = 1.
Proof.
  destruct (batch_outcome_by_store_name (lib := posix) "store" "docs" true false
              ["d1.txt"; "d2.txt"; "d3.txt"; "d4.txt"; "d5.txt"] fiveDocsWorld
              eq_refl eq_refl fiveDocs_supported)
    as (w' & result & events & Hrun & _ & _ & _ & _ & _ & Hfive).
  exists w', result. split; [exact Hrun |].
  pose proof (Hfive eq_refl "d1.txt" "d2.txt" "d3.txt" "d4.txt" "d5.txt" fiveDocs_toUpload
                fiveDocs_third_fails fiveDocs_others_succeed) as (_ & _ & H4 & H1).
  by split.
Defined.


Lemma every_upload_is_accounted_for_witness :
  ∃ w' result (toUpload : list string),
    uploadDirectoryToRagStore (lib := posix) "store" "docs" true false fiveDocsWorld
    = (w', Ok result)
    ∧ NoDup toUpload
    ∧ length (successful result) + length (failed result) = length toUpload.
Proof.
  destruct (every_upload_is_accounted_for (lib := posix) "store" "docs" true false
              ["d1.txt"; "d2.txt"; "d3.txt"; "d4.txt"; "d5.txt"] fiveDocsWorld
              eq_refl eq_refl fiveDocs_supported)
    as (w' & result & toUpload & Hrun & _ & Hnd & _ & _ & Hlen).
  exists w', result, toUpload. split; [exact Hrun |]. split; [exact Hnd | exact Hlen].
Defined.

(** C8.  With a progress callback, the run is one turn per
    file of [toUpload], in order.  A turn starts with the progress event
    [(i + 1, toUpload.length, fileName)]; then come the uploader's events
    for that file; the ledger write recording the file, when there is one,
    ends the turn and is made only for a file that ends up in
    [successful].  So the progress event comes before the upload attempts
    and before the ledger write of its file. *)
Theorem progress_precedes_upload_and_ledger_write {lib : NodeLib}
    (ragStoreName directoryPath : string) (resumeMode : bool)
    (entries : list string) (w : World) :
  ai w = true →
  fs_readdir w directoryPath = Some entries →
  List.filter isSupported entries ≠ [] →
  let toUpload := toUploadOf w ragStoreName (List.filter isSupported entries) resumeMode in
  ∃ w' result healed turns,
    uploadDirectoryToRagStore ragStoreName directoryPath true resumeMode w = (w', Ok result)
    ∧ trace w' = trace w ++ healed ++ concat turns
    ∧ Forall (λ e, isSave e = true) healed
    ∧ length turns = length toUpload
    ∧ ∀ i f,
        toUpload !! i = Some f →
        ∃ upload saves,
          turns !! i = Some (EvProgress (i + 1) (length toUpload) f :: upload ++ saves)
          ∧ Forall (λ e, isUploaderEvent e = true) upload
          ∧ EvReadFile (path_join directoryPath f) ∈ upload
          ∧ recordsFile ragStoreName f saves
          ∧ (saves ≠ [] → f ∈ successful result).
Proof.
  intros Hai Hdir Hsome toUpload.
  destruct (uploadDirectoryToRagStore_run ragStoreName directoryPath true resumeMode
              entries w Hai Hdir Hsome) as (saves0 & runs & Hsaves0 & Hfiles & Hgood & Hrun).
  fold toUpload in Hfiles, Hrun.
  exists (play (saves0 ++ loopEvents true (length toUpload) 0 runs) w),
         {| successful := succeeded runs; failed := failures runs;
            skipped := skippedOf w ragStoreName (List.filter isSupported entries) resumeMode |},
         saves0,
         (imap (λ k r, turnEvents true (length toUpload) (0 + k) r) runs).
  split_and!.
  - exact Hrun.
  - rewrite trace_play, loopEvents_turns. done.
  - exact Hsaves0.
  - rewrite length_imap, <- Hfiles, length_fmap. done.
  - intros i f Hi. rewrite <- Hfiles, list_lookup_fmap in Hi.
    destruct (runs !! i) as [r |] eqn:Hr; [| done]. simpl in Hi. injection Hi as <-.
    rewrite Forall_lookup in Hgood. pose proof (Hgood i r Hr) as (Hup & Hread & Herr & _).
    exists (fr_upload r), (fr_saves r). split_and!.
    + rewrite list_lookup_imap, Hr. done.
    + exact Hup.
    + exact Hread.
    + destruct (fr_error r); [left; apply Herr | exact Herr].
    + intros Hsaved. apply elem_of_succeeded. exists r. split_and!.
      * eapply list_elem_of_lookup_2. exact Hr.
      * done.
      * destruct (fr_error r); [by destruct Herr | done].
Qed.

Lemma oneDoc_supported : List.filter (isSupported (lib := posix)) ["a.txt"] ≠ [].
Proof. vm_compute. discriminate. Qed.

Lemma progress_precedes_upload_and_ledger_write_witness :
  ∃ w' result (turns : list (list Event)),
    uploadDirectoryToRagStore (lib := posix) "store" "docs" true false oneDocWorld
    = (w', Ok result)
    ∧ length turns
      = length (toUploadOf oneDocWorld "store"
                  (List.filter (isSupported (lib := posix)) ["a.txt"]) false).
Proof.
  destruct (progress_precedes_upload_and_ledger_write (lib := posix) "store" "docs" false
              ["a.txt"] oneDocWorld eq_refl eq_refl oneDoc_supported)
    as (w' & result & healed & turns & Hrun & _ & _ & Hlen & _).
  exists w', result, turns. split; [exact Hrun | exact Hlen].
Defined.

(** Against C8's order of events (ledger write, then progress event, the
    latter after the upload attempt): in a run over one document the
    progress event is the first event of all; the upload and the ledger
    write recording the document both come after it. *)
Lemma ledger_write_follows_progress_event :
  let events :=
    trace (uploadDirectoryToRagStore (lib := posix) "store" "docs" true false oneDocWorld).1 in
  (∃ tracker,
     events = [EvProgress 1 1 "a.txt"; EvReadFile "docs/a.txt";
               EvSubmit "store" "a.txt" "text/plain"; EvDelay 3000; EvPoll "a.txt";
               EvDelay 1500; EvSaveTracker tracker]
     ∧ (uploadedFiles <$> tracker !! "store") = Some ["a.txt"])
  ∧ ¬ (∃ i j tracker,
         events !! i = Some (EvSaveTracker tracker)
         ∧ events !! j = Some (EvProgress 1 1 "a.txt")
         ∧ i < j)
  ∧ ¬ (∃ i j contentType,
         events !! i = Some (EvSubmit "store" "a.txt" contentType)
         ∧ events !! j = Some (EvProgress 1 1 "a.txt")
         ∧ i < j).
Proof.
  intros events.
  assert (∃ tracker,
            events = [EvProgress 1 1 "a.txt"; EvReadFile "docs/a.txt";
                      EvSubmit "store" "a.txt" "text/plain"; EvDelay 3000; EvPoll "a.txt";
                      EvDelay 1500; EvSaveTracker tracker]
            ∧ (uploadedFiles <$> tracker !! "store") = Some ["a.txt"])
    as (tracker & Hevents & Hrecorded).
  { eexists. split; [by vm_compute | by vm_compute]. }
  split; [by exists tracker |].
  clearbody events. subst events. split.
  - intros (i & j & t & Hi & Hj & Hlt).
    destruct j as [| j]; [lia |].
    do 7 (destruct j as [| j]; [discriminate Hj |]). discriminate Hj.
  - intros (i & j & ct & Hi & Hj & Hlt).
    destruct j as [| j]; [lia |].
    do 7 (destruct j as [| j]; [discriminate Hj |]). discriminate Hj.
Qed.

(** ** The remote store directory *)

Section Directory.

Implicit Types (w : World) (s best : Store) (l : list Store).

Lemma moreDocuments_first_max rest first :
  firstWithMostDocuments (foldl moreDocuments first rest) (first :: rest).
Proof.
  induction rest as [| x rest IH] using rev_ind.
  - exists [], []. split_and!; [done | |]; intros s Hs; by apply elem_of_nil in Hs.
  - rewrite foldl_app. simpl. destruct IH as (before & after & Hl & Hbefore & Hafter).
    set (best := foldl moreDocuments first rest) in *.
    unfold moreDocuments. destruct (documentCount best <? documentCount x)%N eqn:Hlt.
    + apply N.ltb_lt in Hlt. exists (first :: rest), []. split_and!.
      * done.
      * intros s Hs. rewrite Hl in Hs.
        apply elem_of_app in Hs as [Hs | Hs]; [specialize (Hbefore s Hs); lia |].
        apply elem_of_cons in Hs as [-> | Hs]; [done |].
        specialize (Hafter s Hs). lia.
      * intros s Hs. by apply elem_of_nil in Hs.
    + apply N.ltb_ge in Hlt. exists before, (after ++ [x]). split_and!.
      * rewrite app_comm_cons, Hl. by rewrite <- app_assoc.
      * done.
      * intros s Hs. apply elem_of_app in Hs as [Hs | Hs]; [by apply Hafter |].
        apply list_elem_of_singleton in Hs. by subst s.
Qed.

Lemma first_max_elem best l : firstWithMostDocuments best l → best ∈ l.
Proof. intros (before & after & -> & _). apply elem_of_app. right. left. Qed.

Lemma first_max_greatest best l s :
  firstWithMostDocuments best l → s ∈ l → (documentCount s ≤ documentCount best)%N.
Proof.
  intros (before & after & -> & Hbefore & Hafter) Hs.
  apply elem_of_app in Hs as [Hs | Hs]; [specialize (Hbefore s Hs); lia |].
  apply elem_of_cons in Hs as [-> | Hs]; [done | by apply Hafter].
Qed.

Lemma elem_of_List_filter {A} (p : A → bool) (xs : list A) (x : A) :
  x ∈ List.filter p xs ↔ x ∈ xs ∧ p x = true.
Proof. rewrite !list_elem_of_In. apply List.filter_In. Qed.

Lemma elem_of_matching display l s :
  s ∈ matching display l ↔ s ∈ l ∧ displayName s = display.
Proof. unfold matching. by rewrite elem_of_List_filter, String.eqb_eq. Qed.

Lemma elem_of_duplicatesOf storeToKeep l s :
  s ∈ duplicatesOf storeToKeep l ↔ s ∈ l ∧ name s ≠ name storeToKeep.
Proof.
  unfold duplicatesOf. rewrite elem_of_List_filter, negb_true_iff, String.eqb_neq. done.
Qed.

Lemma elem_of_removeNamed names l s :
  s ∈ removeNamed names l ↔ s ∈ l ∧ name s ∉ names.
Proof.
  unfold removeNamed. rewrite elem_of_List_filter, negb_true_iff, includes_false. done.
Qed.

Lemma removeNamed_nil l : removeNamed [] l = l.
Proof.
  unfold removeNamed. induction l as [| s l IH]; [done |].
  cbn [List.filter]. unfold includes at 1.
  rewrite bool_decide_eq_false_2 by apply not_elem_of_nil. simpl. by f_equal.
Qed.

Lemma removeNamed_cons n names l :
  removeNamed (n :: names) l
  = removeNamed names (List.filter (λ s, negb (String.eqb (name s) n)) l).
Proof.
  unfold removeNamed, includes. induction l as [| s l IH]; [done |]. simpl.
  destruct (String.eqb_spec (name s) n) as [Heq | Hne]; simpl.
  - rewrite bool_decide_eq_true_2 by (rewrite Heq; left). simpl. apply IH.
  - rewrite <- IH.
    destruct (decide (name s ∈ names)) as [Hin | Hout].
    + rewrite (bool_decide_eq_true_2 (name s ∈ n :: names)) by (by right).
      by rewrite (bool_decide_eq_true_2 (name s ∈ names)).
    + rewrite (bool_decide_eq_false_2 (name s ∈ n :: names))
        by (rewrite not_elem_of_cons; done).
      by rewrite (bool_decide_eq_false_2 (name s ∈ names)).
Qed.

Lemma removeNamed_app names1 names2 l :
  removeNamed (names1 ++ names2) l = removeNamed names2 (removeNamed names1 l).
Proof.
  revert l. induction names1 as [| n names1 IH]; intros l; simpl.
  - by rewrite removeNamed_nil.
  - by rewrite !removeNamed_cons, IH.
Qed.

(** In a list without repeated names, a name picks out one store. *)
Lemma filter_by_name best l :
  NoDup (name <$> l) → best ∈ l →
  List.filter (λ s, String.eqb (name s) (name best)) l = [best].
Proof.
  induction l as [| s l IH]; intros Hnd Hbest; [by apply elem_of_nil in Hbest |].
  rewrite fmap_cons in Hnd. apply NoDup_cons in Hnd as [Hfresh Hnd]. simpl.
  apply elem_of_cons in Hbest as [<- | Hbest].
  - rewrite String.eqb_refl. f_equal.
    assert (∀ t, t ∈ l → String.eqb (name t) (name best) = false) as Hother.
    { intros t Ht. apply String.eqb_neq. intros Heq. apply Hfresh. rewrite <- Heq.
      by apply list_elem_of_fmap_2. }
    clear -Hother. induction l as [| t l IH]; [done |]. simpl.
    rewrite Hother by left. apply IH. intros u Hu. apply Hother. by right.
  - destruct (String.eqb_spec (name s) (name best)) as [Heq | Hne].
    + exfalso. apply Hfresh. rewrite Heq. by apply list_elem_of_fmap_2.
    + by apply IH.
Qed.

Lemma List_filter_ext_in {A} (p q : A → bool) (xs : list A) :
  (∀ x, x ∈ xs → p x = q x) → List.filter p xs = List.filter q xs.
Proof.
  intros H. apply List.filter_ext_in. intros x Hx. apply H. by apply list_elem_of_In.
Qed.

Lemma List_filter_filter {A} (p q : A → bool) (xs : list A) :
  List.filter p (List.filter q xs) = List.filter (λ x, q x && p x) xs.
Proof.
  induction xs as [| x xs IH]; [done |]. simpl.
  destruct (q x); simpl; [destruct (p x) |]; by rewrite IH.
Qed.

(** Deleting the duplicates leaves exactly the kept store under the name. *)
Lemma matching_after_cleanup display l best :
  NoDup (name <$> l) →
  best ∈ matching display l →
  matching display
    (removeNamed (name <$> duplicatesOf best (matching display l)) l)
  = [best].
Proof.
  intros Hnd Hbest. apply elem_of_matching in Hbest as [Hbest Hdisplay].
  unfold matching at 1, removeNamed. rewrite List_filter_filter.
  rewrite <- (filter_by_name best l Hnd Hbest).
  apply List_filter_ext_in. intros s Hs.
  destruct (String.eqb_spec (name s) (name best)) as [Heq | Hne].
  - assert (s = best) as ->.
    { pose proof (filter_by_name best l Hnd Hbest) as Hone.
      assert (s ∈ List.filter (λ s, String.eqb (name s) (name best)) l) as Hin.
      { apply elem_of_List_filter. split; [done | by apply String.eqb_eq]. }
      rewrite Hone in Hin. by apply list_elem_of_singleton in Hin. }
    rewrite (proj2 (String.eqb_eq _ _) Hdisplay), andb_true_r.
    apply negb_true_iff, includes_false. intros Hin.
    apply list_elem_of_fmap in Hin as (t & Hname & Ht).
    apply elem_of_duplicatesOf in Ht as [_ Hne]. by symmetry in Hname.
  - destruct (String.eqb_spec (displayName s) display) as [Hd | Hd];
      [| by rewrite andb_false_r].
    rewrite andb_true_r. apply negb_false_iff, includes_true.
    apply list_elem_of_fmap_2. apply elem_of_duplicatesOf. split; [| done].
    by apply elem_of_matching.
Qed.

End Directory.

Section DirectoryRuns.

Implicit Types (w : World) (s best : Store) (l : list Store).

Lemma serviceUp_play events w : serviceUp (play events w) ↔ serviceUp w.
Proof.
  revert w. induction events as [| e events IH]; intros w; [done |].
  rewrite play_cons, IH. unfold serviceUp. by destruct e.
Qed.

Lemma stores_saves events w :
  Forall (λ e, isSave e = true) events → stores (play events w) = stores w.
Proof.
  revert w. induction events as [| e events IH]; intros w Hall; [done |].
  apply Forall_cons in Hall as [He Hall]. rewrite play_cons, IH by done.
  by destruct e.
Qed.

Lemma listRagStores_run w : serviceUp w → listRagStores w = (w, Ok (stores w)).
Proof.
  intros (Hai & Hlist & _).
  unfold listRagStores, bind, require_ai, try_catch, fileSearchStores_list.
  by rewrite Hai, Hlist.
Qed.

Lemma getRagStoreByDisplayName_run display w :
  serviceUp w →
  getRagStoreByDisplayName display w
  = (w, Ok match matching display (stores w) with
           | [] => None
           | first :: rest => Some (name (foldl moreDocuments first rest))
           end).
Proof.
  intros Hup. unfold getRagStoreByDisplayName, bind. rewrite listRagStores_run by done.
  by destruct (matching display (stores w)).
Qed.

(** Deleting a store removes it from the service and clears its ledger
    entry. *)
Lemma deleteRagStore_run n w :
  serviceUp w →
  ∃ events,
    deleteRagStore n w = (play events w, Ok tt)
    ∧ stores (play events w) = removeNamed [n] (stores w).
Proof.
  intros (Hai & _ & _ & Hdel & _).
  unfold deleteRagStore, bind, require_ai, fileSearchStores_delete, clearUploadTracker.
  rewrite Hai, Hdel. run.
  assert (stores (happen w (EvDeleteStore n)) = removeNamed [n] (stores w)) as Hstores.
  { rewrite removeNamed_cons, removeNamed_nil. reflexivity. }
  destruct (fs_write_fails w).
  - exists [EvDeleteStore n]. split; [reflexivity | exact Hstores].
  - exists [EvDeleteStore n; EvSaveTracker (delete n (default ∅ (tracker_file w)))].
    split; [reflexivity |]. rewrite <- Hstores. reflexivity.
Qed.

Lemma deleteDuplicates_run storesToDelete w :
  serviceUp w →
  ∃ events,
    deleteDuplicates storesToDelete w = (play events w, Ok tt)
    ∧ stores (play events w) = removeNamed (name <$> storesToDelete) (stores w).
Proof.
  revert w. induction storesToDelete as [| s rest IH]; intros w Hup.
  - exists []. split; [done |]. by rewrite removeNamed_nil.
  - destruct (deleteRagStore_run (name s) w Hup) as (events1 & Hrun1 & Hstores1).
    destruct (IH (play events1 w)) as (events2 & Hrun2 & Hstores2);
      [by apply serviceUp_play |].
    exists (events1 ++ events2). cbn [deleteDuplicates]. unfold bind, try_catch.
    rewrite Hrun1, Hrun2, play_app. split; [done |].
    rewrite Hstores2, Hstores1, fmap_cons.
    change (name s :: (name <$> rest)) with ([name s] ++ (name <$> rest)).
    by rewrite removeNamed_app.
Qed.

Lemma deleteAndCollect_run storesToDelete deletedSoFar w :
  serviceUp w →
  ∃ events,
    deleteAndCollect storesToDelete deletedSoFar w
    = (play events w, Ok (deletedSoFar ++ (name <$> storesToDelete)))
    ∧ stores (play events w) = removeNamed (name <$> storesToDelete) (stores w).
Proof.
  revert deletedSoFar w.
  induction storesToDelete as [| s rest IH]; intros deletedSoFar w Hup.
  - exists []. split; [by rewrite app_nil_r |]. by rewrite removeNamed_nil.
  - destruct (deleteRagStore_run (name s) w Hup) as (events1 & Hrun1 & Hstores1).
    destruct (IH (deletedSoFar ++ [name s]) (play events1 w))
      as (events2 & Hrun2 & Hstores2); [by apply serviceUp_play |].
    exists (events1 ++ events2). cbn [deleteAndCollect]. unfold bind, try_catch.
    rewrite Hrun1. unfold ret. rewrite Hrun2, play_app. split.
    + by rewrite <- app_assoc.
    + rewrite Hstores2, Hstores1, fmap_cons.
      change (name s :: (name <$> rest)) with ([name s] ++ (name <$> rest)).
      by rewrite removeNamed_app.
Qed.

(** Cleanup with at least two matches. *)
Lemma cleanupDuplicateStores_run display first second rest w :
  serviceUp w →
  matching display (stores w) = first :: second :: rest →
  let matchingStores := first :: second :: rest in
  let best := foldl moreDocuments first (second :: rest) in
  ∃ w',
    cleanupDuplicateStores display w
    = (w', Ok {| found := length matchingStores;
                 deleted := length (duplicatesOf best matchingStores);
                 kept := Some (name best);
                 deletedStores := name <$> duplicatesOf best matchingStores |})
    ∧ stores w' = removeNamed (name <$> duplicatesOf best matchingStores) (stores w).
Proof.
  intros Hup Hmatch matchingStores best.
  unfold cleanupDuplicateStores, bind. destruct Hup as (Hai & Hrest).
  unfold require_ai. rewrite Hai. rewrite listRagStores_run by done.
  rewrite Hmatch. cbn [length Nat.leb].
  fold best. fold (duplicatesOf best (first :: second :: rest)). fold matchingStores.
  destruct (deleteAndCollect_run (duplicatesOf best matchingStores) [] w)
    as (events & Hrun & Hstores); [done |].
  rewrite Hrun. unfold ret. exists (play events w). split; [| done].
  simpl. by rewrite length_fmap.
Qed.

(** [getOrCreateRagStore], by the number of matches. *)
Lemma getOrCreateRagStore_none display w :
  serviceUp w →
  matching display (stores w) = [] →
  let created := {| name := mint w (minted w); displayName := display;
                    activeDocumentsCount := None |} in
  getOrCreateRagStore display w
  = (happen w (EvCreateStore display (name created)), Ok (name created, true))
  ∧ stores (happen w (EvCreateStore display (name created))) = stores w ++ [created].
Proof.
  intros Hup Hnone created. split; [| done].
  unfold getOrCreateRagStore, bind. pose proof Hup as (Hai & _ & Hcreate & _ & Hmint).
  unfold require_ai. rewrite Hai. rewrite listRagStores_run by done. rewrite Hnone.
  unfold createRagStore, bind, require_ai, fileSearchStores_create.
  rewrite Hai, Hcreate. cbn [name].
  rewrite (proj2 (String.eqb_neq _ _) (Hmint (minted w))). done.
Qed.

Lemma getOrCreateRagStore_one display only w :
  serviceUp w →
  matching display (stores w) = [only] →
  getOrCreateRagStore display w = (w, Ok (name only, false)).
Proof.
  intros Hup Hone. unfold getOrCreateRagStore, bind. pose proof Hup as (Hai & _).
  unfold require_ai. rewrite Hai. rewrite listRagStores_run by done. by rewrite Hone.
Qed.

Lemma getOrCreateRagStore_many display first second rest w :
  serviceUp w →
  matching display (stores w) = first :: second :: rest →
  let matchingStores := first :: second :: rest in
  let best := foldl moreDocuments first (second :: rest) in
  let w' := (deleteDuplicates (duplicatesOf best matchingStores) w).1 in
  getOrCreateRagStore display w = (w', Ok (name best, false))
  ∧ serviceUp w'
  ∧ stores w' = removeNamed (name <$> duplicatesOf best matchingStores) (stores w).
Proof.
  intros Hup Hmatch matchingStores best w'.
  destruct (deleteDuplicates_run (duplicatesOf best matchingStores) w Hup)
    as (events & Hrun & Hstores).
  assert (w' = play events w) as Hw' by (unfold w'; by rewrite Hrun).
  split_and!.
  - unfold getOrCreateRagStore, bind. pose proof Hup as (Hai & _).
    unfold require_ai. rewrite Hai. rewrite listRagStores_run by done. rewrite Hmatch.
    fold best. fold (duplicatesOf best (first :: second :: rest)). fold matchingStores.
    rewrite Hw', Hrun. done.
  - rewrite Hw'. by apply serviceUp_play.
  - by rewrite Hw'.
Qed.

(** After the cleanup every store left under the display name bears the
    kept store's name, and the kept store is among them. *)
Lemma matching_after_cleanup_names display l best :
  best ∈ matching display l →
  let remaining :=
    matching display (removeNamed (name <$> duplicatesOf best (matching display l)) l) in
  best ∈ remaining ∧ ∀ s, s ∈ remaining → name s = name best.
Proof.
  intros Hbest remaining. unfold remaining. split.
  - apply elem_of_matching. apply elem_of_matching in Hbest as [Hin Hd].
    split; [| done]. apply elem_of_removeNamed. split; [done |].
    intros Hnamed. apply list_elem_of_fmap in Hnamed as (t & Hname & Ht).
    apply elem_of_duplicatesOf in Ht as [_ Hne]. by symmetry in Hname.
  - intros s Hs. apply elem_of_matching in Hs as [Hs Hd].
    apply elem_of_removeNamed in Hs as [Hin Hout].
    destruct (decide (name s = name best)) as [Heq | Hne]; [done |].
    exfalso. apply Hout. apply list_elem_of_fmap_2. apply elem_of_duplicatesOf.
    split; [| done]. by apply elem_of_matching.
Qed.

Lemma duplicatesOf_same_name best l :
  (∀ s, s ∈ l → name s = name best) → duplicatesOf best l = [].
Proof.
  intros Hsame. unfold duplicatesOf.
  induction l as [| s l IH]; [done |]. simpl.
  rewrite (Hsame s) by left. rewrite String.eqb_refl. simpl.
  apply IH. intros t Ht. apply Hsame. by right.
Qed.

Lemma names_injective l s t :
  NoDup (name <$> l) → s ∈ l → t ∈ l → name s = name t → s = t.
Proof.
  intros Hnd Hs Ht Heq. pose proof (filter_by_name t l Hnd Ht) as Hone.
  assert (s ∈ List.filter (λ s, String.eqb (name s) (name t)) l) as Hin.
  { apply elem_of_List_filter. split; [done | by apply String.eqb_eq]. }
  rewrite Hone in Hin. by apply list_elem_of_singleton in Hin.
Qed.

End DirectoryRuns.

Lemma freshWorld_up : serviceUp freshWorld.
Proof. by split_and!. Qed.

Lemma tripleWorld_up : serviceUp tripleWorld.
Proof. by split_and!. Qed.

Lemma tripleWorld_names : NoDup (name <$> stores tripleWorld).
Proof. apply (bool_decide_unpack _). by vm_compute. Qed.

(** C5.  With the service answering, [getRagStoreByDisplayName] returns,
    among the stores bearing the display name, the first one with the
    greatest document count: no store has more documents, and every store
    listed before it has strictly fewer.  [cleanupDuplicateStores] keeps
    that store and deletes the others; on three stores holding 5, 12 and 3
    documents it keeps the one with 12, deletes the other two, leaves it as
    the only store under the name, and reports found = 3, deleted = 2, the
    kept name and the two deleted names. *)
Theorem canonical_store_selection (display : string) (w : World) :
  serviceUp w →
  (matching display (stores w) = [] → getRagStoreByDisplayName display w = (w, Ok None))
  ∧ (∀ first rest,
     matching display (stores w) = first :: rest →
     ∃ best,
       getRagStoreByDisplayName display w = (w, Ok (Some (name best)))
       ∧ firstWithMostDocuments best (first :: rest)
       ∧ best ∈ first :: rest
       ∧ ∀ s, s ∈ first :: rest → (documentCount s ≤ documentCount best)%N)
  ∧ (∀ first second rest,
       NoDup (name <$> stores w) →
       matching display (stores w) = first :: second :: rest →
       ∃ w' best,
         firstWithMostDocuments best (first :: second :: rest)
         ∧ cleanupDuplicateStores display w
           = (w', Ok {| found := length (first :: second :: rest);
                        deleted := length (duplicatesOf best (first :: second :: rest));
                        kept := Some (name best);
                        deletedStores :=
                          name <$> duplicatesOf best (first :: second :: rest) |})
         ∧ matching display (stores w') = [best])
  ∧ (∀ s5 s12 s3,
       NoDup (name <$> stores w) →
       matching display (stores w) = [s5; s12; s3] →
       documentCount s5 = 5%N → documentCount s12 = 12%N → documentCount s3 = 3%N →
       getRagStoreByDisplayName display w = (w, Ok (Some (name s12)))
       ∧ ∃ w',
           cleanupDuplicateStores display w
           = (w', Ok {| found := 3; deleted := 2; kept := Some (name s12);
                        deletedStores := [name s5; name s3] |})
           ∧ matching display (stores w') = [s12]
           ∧ stores w' = removeNamed [name s5; name s3] (stores w)).
Proof.
  intros Hup. split_and!.
  - intros Hnone. rewrite getRagStoreByDisplayName_run by done. by rewrite Hnone.
  - intros first rest Hmatch. exists (foldl moreDocuments first rest).
    pose proof (moreDocuments_first_max rest first) as Hbest.
    split_and!.
    + rewrite getRagStoreByDisplayName_run by done. by rewrite Hmatch.
    + done.
    + by apply first_max_elem.
    + intros s. by apply first_max_greatest.
  - intros first second rest Hnd Hmatch.
    destruct (cleanupDuplicateStores_run display first second rest w Hup Hmatch)
      as (w' & Hrun & Hstores).
    pose proof (moreDocuments_first_max (second :: rest) first) as Hbest.
    exists w', (foldl moreDocuments first (second :: rest)).
    split_and!; [done | done |].
    rewrite Hstores, <- Hmatch. apply matching_after_cleanup; [done |].
    rewrite Hmatch. by apply first_max_elem.
  - intros s5 s12 s3 Hnd Hmatch H5 H12 H3.
    assert (foldl moreDocuments s5 [s12; s3] = s12) as Hbest.
    { simpl. unfold moreDocuments. rewrite H5, H12. simpl. by rewrite H12, H3. }
    assert (∀ s, s ∈ [s5; s12; s3] → s ∈ stores w) as Hin.
    { intros s Hs. rewrite <- Hmatch in Hs. by apply elem_of_matching in Hs as [? _]. }
    assert (name s5 ≠ name s12) as Hne5.
    { intros Heq. apply (names_injective (stores w)) in Heq;
        [| done | apply Hin; here | apply Hin; here]. subst s5. rewrite H5 in H12. done. }
    assert (name s3 ≠ name s12) as Hne3.
    { intros Heq. apply (names_injective (stores w)) in Heq;
        [| done | apply Hin; here | apply Hin; here]. subst s3. rewrite H3 in H12. done. }
    assert (duplicatesOf s12 [s5; s12; s3] = [s5; s3]) as Hdups.
    { unfold duplicatesOf. simpl.
      rewrite (proj2 (String.eqb_neq _ _) Hne5), (proj2 (String.eqb_neq _ _) Hne3).
      by rewrite String.eqb_refl. }
    split.
    + rewrite getRagStoreByDisplayName_run by done. by rewrite Hmatch, Hbest.
    + destruct (cleanupDuplicateStores_run display s5 s12 [s3] w Hup Hmatch)
        as (w' & Hrun & Hstores).
      rewrite Hbest, Hdups in Hrun, Hstores. exists w'. split_and!; [done | | done].
      rewrite Hstores. change [name s5; name s3] with (name <$> [s5; s3]).
      rewrite <- Hdups, <- Hmatch. apply matching_after_cleanup; [done |].
      rewrite Hmatch. here.
Qed.

Lemma canonical_store_selection_witness :
  getRagStoreByDisplayName "corpus" tripleWorld = (tripleWorld, Ok (Some "fileSearchStores/b"))
  ∧ ∃ w',
      cleanupDuplicateStores "corpus" tripleWorld
      = (w', Ok {| found := 3; deleted := 2; kept := Some "fileSearchStores/b";
                   deletedStores := ["fileSearchStores/a"; "fileSearchStores/c"] |})
      ∧ matching "corpus" (stores w')
        = [{| name := "fileSearchStores/b"; displayName := "corpus";
              activeDocumentsCount := Some 12%N |}].
Proof.
  destruct (proj2 (proj2 (proj2 (canonical_store_selection "corpus" tripleWorld
                                   tripleWorld_up)))
              _ _ _ tripleWorld_names eq_refl eq_refl eq_refl eq_refl)
    as (Hget & w' & Hrun & Hleft & _).
  split; [exact Hget |]. exists w'. split; [exact Hrun | exact Hleft].
Defined.

(** Against C5 read for a service that may refuse a call.  On the three
    stores holding 5, 12 and 3 documents, with the deletion of the last
    one refused, the cleanup returns normally, reports one deletion and
    leaves the store with 3 documents beside the one with 12.  With the
    listing refused, the three stores are there and the lookup finds no
    store at all. *)
Lemma refused_call_defeats_store_selection :
  (documentCount <$> matching "corpus" (stores stubbornWorld) = [5; 12; 3]%N
   ∧ (cleanupDuplicateStores "corpus" stubbornWorld).2
     = Ok {| found := 3; deleted := 1; kept := Some "fileSearchStores/b";
             deletedStores := ["fileSearchStores/a"] |}
   ∧ matching "corpus" (stores (cleanupDuplicateStores "corpus" stubbornWorld).1)
     = [corpusB; corpusC]
   ∧ ¬ (∀ s, s ∈ matching "corpus" (stores stubbornWorld) → s ≠ corpusB →
             s ∉ stores (cleanupDuplicateStores "corpus" stubbornWorld).1))
  ∧ (documentCount <$> matching "corpus" (stores unlistableWorld) = [5; 12; 3]%N
     ∧ (getRagStoreByDisplayName "corpus" unlistableWorld).2 = Ok None
     ∧ (getRagStoreByDisplayName "corpus" unlistableWorld).2
       ≠ Ok (Some "fileSearchStores/b")).
Proof.
  split; split_and!.
  - by vm_compute.
  - by vm_compute.
  - by vm_compute.
  - intros Hall. apply (Hall corpusC).
    + assert (matching "corpus" (stores stubbornWorld) = [corpusA; corpusB; corpusC])
        as -> by (by vm_compute).
      here.
    + discriminate.
    + assert (stores (cleanupDuplicateStores "corpus" stubbornWorld).1 = [corpusB; corpusC])
        as -> by (by vm_compute).
      here.
  - by vm_compute.
  - by vm_compute.
  - vm_compute. discriminate.
Qed.

Lemma matching_app display (l1 l2 : list Store) :
  matching display (l1 ++ l2) = matching display l1 ++ matching display l2.
Proof. unfold matching. apply List.filter_app. Qed.

(** C7.  With the service answering, [getOrCreateRagStore] returns a store
    name, and calling it again straight away returns the same name with
    [isNew = false] and changes nothing.  [isNew] is true exactly when no
    store bore the display name.  When more than one did, the store kept is
    the first with the greatest document count and every other match is
    deleted.  In all cases, store names being unique, exactly one store is
    left under the display name the function was called with: the one
    returned. *)
Theorem getOrCreate_idempotent_and_self_healing (display : string) (w : World) :
  serviceUp w →
  ∃ w1 storeId isNew,
    getOrCreateRagStore display w = (w1, Ok (storeId, isNew))
    ∧ getOrCreateRagStore display w1 = (w1, Ok (storeId, false))
    ∧ (isNew = true ↔ matching display (stores w) = [])
    ∧ (∀ first second rest,
         matching display (stores w) = first :: second :: rest →
         ∃ best,
           firstWithMostDocuments best (first :: second :: rest)
           ∧ storeId = name best
           ∧ isNew = false
           ∧ stores w1
             = removeNamed (name <$> duplicatesOf best (first :: second :: rest)) (stores w))
    ∧ (NoDup (name <$> stores w) →
       ∃ only, matching display (stores w1) = [only] ∧ name only = storeId).
Proof.
  intros Hup.
  destruct (matching display (stores w)) as [| first [| second rest]] eqn:Hmatch.
  - (* no store yet: one is created *)
    destruct (getOrCreateRagStore_none display w Hup Hmatch) as [Hrun Hstores].
    set (created := {| name := mint w (minted w); displayName := display;
                       activeDocumentsCount := None |}) in *.
    set (w1 := happen w (EvCreateStore display (name created))) in *.
    assert (matching display (stores w1) = [created]) as Hmatch1.
    { rewrite Hstores, matching_app, Hmatch. unfold matching. simpl.
      by rewrite String.eqb_refl. }
    exists w1, (name created), true. split_and!.
    + exact Hrun.
    + apply getOrCreateRagStore_one; [| done].
      change w1 with (play [EvCreateStore display (name created)] w).
      by apply serviceUp_play.
    + done.
    + intros ? ? ? Hne. discriminate Hne.
    + intros _. by exists created.
  - (* one store: it is used as it is *)
    exists w, (name first), false.
    pose proof (getOrCreateRagStore_one display first w Hup Hmatch) as Hrun.
    split_and!.
    + exact Hrun.
    + exact Hrun.
    + split; intros H; discriminate H.
    + intros ? ? ? Hne. discriminate Hne.
    + intros _. by exists first.
  - (* several stores: the duplicates are deleted *)
    destruct (getOrCreateRagStore_many display first second rest w Hup Hmatch)
      as (Hrun & Hup1 & Hstores).
    set (best := foldl moreDocuments first (second :: rest)) in *.
    set (w1 := (deleteDuplicates (duplicatesOf best (first :: second :: rest)) w).1) in *.
    pose proof (moreDocuments_first_max (second :: rest) first) as Hbest. fold best in Hbest.
    assert (best ∈ matching display (stores w)) as Hin
      by (rewrite Hmatch; by apply first_max_elem).
    destruct (matching_after_cleanup_names display (stores w) best Hin) as [Hkept Hsame].
    rewrite Hmatch, <- Hstores in Hkept, Hsame.
    exists w1, (name best), false. split_and!.
    + exact Hrun.
    + destruct (matching display (stores w1)) as [| x [| y more]] eqn:Hmatch1.
      * by apply elem_of_nil in Hkept.
      * rewrite (getOrCreateRagStore_one display x w1 Hup1 Hmatch1).
        by rewrite (Hsame x) by left.
      * destruct (getOrCreateRagStore_many display x y more w1 Hup1 Hmatch1)
          as (Hrun1 & _ & _).
        pose proof (first_max_elem _ _ (moreDocuments_first_max (y :: more) x)) as Hbest1.
        rewrite Hrun1. rewrite (duplicatesOf_same_name _ (x :: y :: more)).
        -- rewrite (Hsame _ Hbest1). reflexivity.
        -- intros s Hs. by rewrite (Hsame s Hs), (Hsame _ Hbest1).
    + split; intros H; discriminate H.
    + intros first' second' rest' Heq. injection Heq as <- <- <-. by exists best.
    + intros Hnd. exists best. split; [| done].
      rewrite Hstores, <- Hmatch. by apply matching_after_cleanup.
Qed.

Lemma getOrCreate_idempotent_and_self_healing_witness :
  ∃ w1 storeId isNew,
    getOrCreateRagStore "corpus" tripleWorld = (w1, Ok (storeId, isNew))
    ∧ getOrCreateRagStore "corpus" w1 = (w1, Ok (storeId, false))
    ∧ ∃ only, matching "corpus" (stores w1) = [only] ∧ name only = storeId.
Proof.
  destruct (getOrCreate_idempotent_and_self_healing "corpus" tripleWorld tripleWorld_up)
    as (w1 & storeId & isNew & Hfirst & Hsecond & _ & _ & Hone).
  exists w1, storeId, isNew. split; [exact Hfirst |]. split; [exact Hsecond |].
  exact (Hone tripleWorld_names).
Defined.

(** Against C7 read for a service that may refuse a call.  With the
    listing refused, two calls in a row each create a store: each answers
    [isNew = true], the two names differ, and five stores bear the display
    name afterwards.  With the deletion of one duplicate refused, the call
    returns the canonical store and two stores still bear the name. *)
Lemma refused_call_defeats_get_or_create :
  let first := getOrCreateRagStore "corpus" unlistableWorld in
  let second := getOrCreateRagStore "corpus" first.1 in
  (first.2 = Ok ("fileSearchStores/0", true)
   ∧ second.2 = Ok ("fileSearchStores/1", true)
   ∧ name <$> matching "corpus" (stores second.1)
     = ["fileSearchStores/a"; "fileSearchStores/b"; "fileSearchStores/c";
        "fileSearchStores/0"; "fileSearchStores/1"]
   ∧ ¬ (∃ storeId isNew, first.2 = Ok (storeId, isNew) ∧ second.2 = Ok (storeId, false)))
  ∧ ((getOrCreateRagStore "corpus" stubbornWorld).2 = Ok ("fileSearchStores/b", false)
     ∧ matching "corpus" (stores (getOrCreateRagStore "corpus" stubbornWorld).1)
       = [corpusB; corpusC]
     ∧ ¬ length (matching "corpus" (stores (getOrCreateRagStore "corpus" stubbornWorld).1))
         ≤ 1).
Proof.
  assert ((getOrCreateRagStore "corpus"
             (getOrCreateRagStore "corpus" unlistableWorld).1).2
          = Ok ("fileSearchStores/1", true)) as Hsecond by (by vm_compute).
  cbn zeta. split; split_and!.
  - by vm_compute.
  - exact Hsecond.
  - by vm_compute.
  - intros (storeId & isNew & _ & Hsame). rewrite Hsecond in Hsame. discriminate Hsame.
  - by vm_compute.
  - by vm_compute.
  - vm_compute. lia.
Qed.

(** The differ on the two directories of the specification's examples. *)
Example differ_drops_repeats :
  (computeUploadSet "store" ["A.txt"; "B.txt"; "A.txt"; "C.txt"] false freshWorld).2
  = Ok (["A.txt"; "B.txt"; "C.txt"], ["A.txt"]).
Proof. by vm_compute. Qed.

Example differ_resume_skips_recorded :
  (computeUploadSet "store" ["A.txt"; "B.txt"; "C.txt"] true resumedWorld).2
  = Ok (["A.txt"; "C.txt"], ["B.txt"]).
Proof. by vm_compute. Qed.

(** A new store and four files: all four are uploaded and recorded. *)
Example sync_of_four_files :
  let run :=
    (_ <- getOrCreateRagStore "corpus" ;;
     uploadDirectoryToRagStore (lib := posix) "fileSearchStores/0" "docs" true false)
      (docsWorld ["a.txt"; "b.pdf"; "c.md"; "d.json"]) in
  run.2 = Ok {| successful := ["a.txt"; "b.pdf"; "c.md"; "d.json"]; failed := [];
                skipped := [] |}
  ∧ ledgerOf run.1 "fileSearchStores/0" = ["a.txt"; "b.pdf"; "c.md"; "d.json"].
Proof. split; by vm_compute. Qed.

(** ** More on the ledger *)

Section LedgerInterface.

Implicit Types (w : World).

Lemma first_repeated_length (l : list string) :
  length (firstOccurrences l) + length (repeatedOccurrences l) = length l.
Proof.
  induction l as [| x l IH] using rev_ind; [done |].
  rewrite firstOccurrences_snoc, repeatedOccurrences_snoc, !length_app.
  destruct (decide (x ∈ l)); simpl; lia.
Qed.

Lemma repeatedOccurrences_nil_NoDup (l : list string) :
  repeatedOccurrences l = [] ↔ NoDup l.
Proof.
  split.
  - intros Hnil. pose proof (first_repeated_length l) as Hlen.
    rewrite Hnil in Hlen. simpl in Hlen. rewrite Nat.add_0_r in Hlen.
    rewrite <- of_array_firstOccurrences in Hlen.
    rewrite <- (of_array_full l Hlen). apply of_array_NoDup.
  - intros Hnd. pose proof (first_repeated_length l) as Hlen.
    rewrite <- of_array_firstOccurrences, of_array_NoDup_id in Hlen by done.
    destruct (repeatedOccurrences l); [done | simpl in Hlen; lia].
Qed.

Lemma ledgerOf_entryOf w ragStoreName :
  ledgerOf w ragStoreName = default [] (uploadedFiles <$> entryOf w ragStoreName).
Proof. done. Qed.

Lemma clearUploadTracker_run ragStoreName w :
  clearUploadTracker ragStoreName w
  = if fs_write_fails w then (w, Ok tt)
    else (happen w (EvSaveTracker (delete ragStoreName (default ∅ (tracker_file w)))), Ok tt).
Proof. unfold clearUploadTracker. run. by destruct (fs_write_fails w). Qed.

Lemma deduplicateTrackerEntries_run ragStoreName entry w :
  entryOf w ragStoreName = Some entry →
  deduplicateTrackerEntries ragStoreName w
  = (if fs_write_fails w then w
     else happen w (EvSaveTracker
                      (<[ragStoreName := {| uploadedFiles := firstOccurrences (uploadedFiles entry);
                                            lastUpdate := clock w |}]>
                         (default ∅ (tracker_file w)))),
     Ok {| before := length (uploadedFiles entry);
           after := length (firstOccurrences (uploadedFiles entry));
           duplicatesRemoved := length (repeatedOccurrences (uploadedFiles entry)) |}).
Proof.
  unfold entryOf. intros Hentry. unfold deduplicateTrackerEntries, property. run.
  rewrite Hentry. simpl. rewrite of_array_firstOccurrences.
  pose proof (first_repeated_length (uploadedFiles entry)) as Hlen.
  replace (length (uploadedFiles entry) - length (firstOccurrences (uploadedFiles entry)))
    with (length (repeatedOccurrences (uploadedFiles entry))) by lia.
  by destruct (fs_write_fails w).
Qed.

Lemma deduplicateTrackerEntries_absent ragStoreName w :
  entryOf w ragStoreName = None →
  deduplicateTrackerEntries ragStoreName w
  = (w, if inherited ragStoreName then Throw (readOfUndefined "length")
        else Ok {| before := 0; after := 0; duplicatesRemoved := 0 |}).
Proof.
  unfold entryOf. intros Hnone. unfold deduplicateTrackerEntries, property. run.
  rewrite Hnone. by destruct (inherited ragStoreName).
Qed.

Lemma addUploadedFile_write_flag ragStoreName fileName w :
  fs_write_fails (addUploadedFile ragStoreName fileName w).1 = fs_write_fails w.
Proof.
  rewrite addUploadedFile_run. destruct (shadowed w ragStoreName); [done |].
  destruct (decide _); [done |].
  by destruct (fs_write_fails w) eqn:Hw.
Qed.

Lemma recordAll_write_flag calls w :
  fs_write_fails (recordAll calls w).1 = fs_write_fails w.
Proof.
  revert w. induction calls as [| [s f] calls IH]; intros w; [done |].
  simpl. unfold bind.
  pose proof (addUploadedFile_write_flag s f w) as Hflag.
  destruct (addUploadedFile s f w) as [w' [[] | e]]; simpl in *; [by rewrite IH | done].
Qed.

End LedgerInterface.

(** X24.  For a store the ledger has no entry for, the maintenance run
    writes nothing and leaves the world as it was.  It reports three
    zeros when the ledger object inherits no value under the store's name;
    under a name with an inherited value it throws instead. *)
Theorem deduplicate_without_entry (ragStoreName : string) (w : World) :
  entryOf w ragStoreName = None →
  (deduplicateTrackerEntries ragStoreName w).1 = w
  ∧ (inherited ragStoreName = false →
     (deduplicateTrackerEntries ragStoreName w).2
     = Ok {| before := 0; after := 0; duplicatesRemoved := 0 |})
  ∧ (inherited ragStoreName = true →
     (deduplicateTrackerEntries ragStoreName w).2 = Throw (readOfUndefined "length")).
Proof.
  intros Hnone. rewrite (deduplicateTrackerEntries_absent _ _ Hnone).
  split_and!; [done | by intros -> | by intros ->].
Qed.

Lemma deduplicate_without_entry_witness :
  (deduplicateTrackerEntries "store" freshWorld).1 = freshWorld
  ∧ (deduplicateTrackerEntries "store" freshWorld).2
    = Ok {| before := 0; after := 0; duplicatesRemoved := 0 |}.
Proof.
  destruct (deduplicate_without_entry "store" freshWorld eq_refl) as (Hworld & Hzero & _).
  split; [exact Hworld | exact (Hzero eq_refl)].
Defined.

(** X1.  Clearing a store's ledger entry, when the write goes through,
    leaves no entry for it and leaves every other store's entry as it was;
    whatever was recorded for the store before, the next listing is empty.
    The next maintenance run reports three zeros, unless the store's name
    is one the ledger object inherits a value for: then it throws.  When
    the write fails the call still returns normally and nothing changes. *)
Theorem clear_forgets_one_store (calls : list (string * string))
    (ragStoreName other : string) (w : World) :
  let w1 := (recordAll calls w).1 in
  let w2 := (clearUploadTracker ragStoreName w1).1 in
  (clearUploadTracker ragStoreName w1).2 = Ok tt
  ∧ (fs_write_fails w = true → w2 = w1)
  ∧ (fs_write_fails w = false →
     entryOf w2 ragStoreName = None
     ∧ listDocumentsInRagStore ragStoreName w2 = (w2, Ok [])
     ∧ (inherited ragStoreName = false →
        (deduplicateTrackerEntries ragStoreName w2).2
        = Ok {| before := 0; after := 0; duplicatesRemoved := 0 |})
     ∧ (inherited ragStoreName = true →
        deduplicateTrackerEntries ragStoreName w2
        = (w2, Throw (readOfUndefined "length")))
     ∧ (other ≠ ragStoreName → entryOf w2 other = entryOf w1 other)).
Proof.
  intros w1 w2.
  assert (fs_write_fails w1 = fs_write_fails w) as Hsame
    by apply recordAll_write_flag.
  unfold w2. rewrite clearUploadTracker_run. rewrite Hsame.
  destruct (fs_write_fails w) eqn:Hw; simpl.
  - split_and!; [done | done | intros H; discriminate H].
  - split_and!; [done | intros H; discriminate H |]. intros _.
    set (w' := happen w1 _).
    assert (entryOf w' ragStoreName = None) as Hnone by apply lookup_delete_eq.
    split_and!.
    + done.
    + assert (ledgerOf w' ragStoreName = []) as Hempty.
      { unfold ledgerOf. unfold entryOf in Hnone. by rewrite Hnone. }
      rewrite listDocumentsInRagStore_run, Hempty. done.
    + intros Hown. by rewrite (deduplicateTrackerEntries_absent _ _ Hnone), Hown.
    + intros Hinh. by rewrite (deduplicateTrackerEntries_absent _ _ Hnone), Hinh.
    + intros Hne. unfold w', entryOf. simpl. by rewrite lookup_delete_ne.
Qed.

(** X2.  Recording a file under a store that has a ledger entry, or whose
    name the ledger object inherits no value for, returns normally and,
    when the write goes through, puts the file at the end of the store's
    list unless it is there already; the file and every name recorded
    before are then in the listing, the plain list and the count agree
    with the ledger, and no other store's entry changes.  Under a name
    with an inherited value and no entry the call throws and the world,
    the ledger included, stays as it was. *)
Theorem recorded_file_is_listed (ragStoreName fileName other : string) (w : World) :
  fs_write_fails w = false →
  let w1 := (addUploadedFile ragStoreName fileName w).1 in
  (shadowed w ragStoreName = false →
   (addUploadedFile ragStoreName fileName w).2 = Ok tt
   ∧ ledgerOf w1 ragStoreName
     = (if decide (fileName ∈ ledgerOf w ragStoreName) then ledgerOf w ragStoreName
        else ledgerOf w ragStoreName ++ [fileName])
   ∧ (∃ files,
        (listDocumentsInRagStore ragStoreName w1).2 = Ok files
        ∧ fileName ∈ files
        ∧ ∀ g, g ∈ ledgerOf w ragStoreName → g ∈ files)
   ∧ getUploadedFilesList ragStoreName w1 = (w1, Ok (ledgerOf w1 ragStoreName))
   ∧ getUploadedFilesCount ragStoreName w1
     = (w1, Ok (length (ledgerOf w ragStoreName)
                + (if decide (fileName ∈ ledgerOf w ragStoreName) then 0 else 1)))
   ∧ (other ≠ ragStoreName → entryOf w1 other = entryOf w other))
  ∧ (shadowed w ragStoreName = true →
     addUploadedFile ragStoreName fileName w = (w, Throw (readOfUndefined "includes"))
     ∧ listDocumentsInRagStore ragStoreName w = (w, Ok [])).
Proof.
  intros Hw w1. split; [intros Hs | intros Hs].
  2: { split; [by apply addUploadedFile_throws |].
       rewrite listDocumentsInRagStore_run, (shadowed_absent _ _ Hs). done. }
  assert (ledgerOf w1 ragStoreName
          = (if decide (fileName ∈ ledgerOf w ragStoreName) then ledgerOf w ragStoreName
             else ledgerOf w ragStoreName ++ [fileName])) as Hledger.
  { unfold w1. rewrite addUploadedFile_ledger.
    destruct (decide (fileName ∈ ledgerOf w ragStoreName)) as [Hin | Hout].
    - rewrite decide_False; [done | tauto].
    - by rewrite decide_True. }
  assert (fileName ∈ ledgerOf w1 ragStoreName) as Hin1.
  { rewrite Hledger. destruct (decide _); [done |].
    apply elem_of_app. right. by apply list_elem_of_singleton. }
  split_and!.
  - by apply addUploadedFile_ok.
  - exact Hledger.
  - eexists. split; [apply listDocumentsInRagStore_result |].
    split; [by apply elem_of_firstOccurrences |].
    intros g Hg. apply elem_of_firstOccurrences. rewrite Hledger.
    destruct (decide _); [done |]. apply elem_of_app. by left.
  - done.
  - unfold getUploadedFilesCount. run. f_equal. f_equal.
    fold (entryOf w1 ragStoreName).
    assert (length (ledgerOf w1 ragStoreName)
            = default 0 (length <$> (uploadedFiles <$> entryOf w1 ragStoreName))) as <-.
    { rewrite ledgerOf_entryOf. by destruct (entryOf w1 ragStoreName). }
    rewrite Hledger. destruct (decide _); [lia |]. rewrite length_app. simpl. lia.
  - intros Hne. unfold w1. rewrite addUploadedFile_run, Hs.
    destruct (decide _); [done |]. rewrite Hw. unfold entryOf. simpl.
    by rewrite lookup_insert_ne.
Qed.

Lemma recorded_file_is_listed_witness :
  ledgerOf (addUploadedFile "store" "C.txt" resumedWorld).1 "store" = ["B.txt"; "C.txt"]
  ∧ getUploadedFilesCount "store" (addUploadedFile "store" "C.txt" resumedWorld).1
    = ((addUploadedFile "store" "C.txt" resumedWorld).1, Ok 2).
Proof.
  destruct (recorded_file_is_listed "store" "C.txt" "other" resumedWorld eq_refl)
    as [Hown _].
  destruct (Hown eq_refl) as (_ & Hledger & _ & _ & Hcount & _).
  split; [exact Hledger | exact Hcount].
Defined.

(** X3.  For a store that has a ledger entry, the maintenance run reports
    the length of the list before, the number of distinct names after and
    their difference, which is zero exactly when the list held no name
    twice.  When the write goes through, the entry then holds the first
    occurrences, stamped with the current time, and no other entry
    changes. *)
Theorem deduplicate_reports_and_repairs (ragStoreName other : string)
    (entry : TrackerEntry) (w : World) :
  entryOf w ragStoreName = Some entry →
  let files := uploadedFiles entry in
  let w' := (deduplicateTrackerEntries ragStoreName w).1 in
  ∃ report,
    (deduplicateTrackerEntries ragStoreName w).2 = Ok report
    ∧ before report = length files
    ∧ after report = length (firstOccurrences files)
    ∧ before report = after report + duplicatesRemoved report
    ∧ (duplicatesRemoved report = 0 ↔ NoDup files)
    ∧ (fs_write_fails w = false →
       entryOf w' ragStoreName
       = Some {| uploadedFiles := firstOccurrences files; lastUpdate := clock w |}
       ∧ NoDup (ledgerOf w' ragStoreName)
       ∧ (∀ g, g ∈ ledgerOf w' ragStoreName ↔ g ∈ files)
       ∧ (other ≠ ragStoreName → entryOf w' other = entryOf w other)).
Proof.
  intros Hentry files w'. unfold w'.
  rewrite (deduplicateTrackerEntries_run ragStoreName entry w Hentry). fold files.
  eexists. split; [done |]. simpl. split_and!; try done.
  - pose proof (first_repeated_length files). lia.
  - rewrite <- repeatedOccurrences_nil_NoDup. by destruct (repeatedOccurrences files).
  - intros ->.
    assert (entryOf
              (happen w (EvSaveTracker
                 (<[ragStoreName := {| uploadedFiles := firstOccurrences files;
                                       lastUpdate := clock w |}]>
                    (default ∅ (tracker_file w))))) ragStoreName
            = Some {| uploadedFiles := firstOccurrences files; lastUpdate := clock w |})
      as Hnew by apply lookup_insert_eq.
    split_and!.
    + exact Hnew.
    + rewrite ledgerOf_entryOf, Hnew. apply firstOccurrences_NoDup.
    + intros g. rewrite ledgerOf_entryOf, Hnew. apply elem_of_firstOccurrences.
    + intros Hne. unfold entryOf. simpl. by rewrite lookup_insert_ne.
Qed.

Lemma deduplicate_reports_and_repairs_witness :
  (deduplicateTrackerEntries "store" legacyWorld).2
  = Ok {| before := 3; after := 2; duplicatesRemoved := 1 |}
  ∧ ledgerOf (deduplicateTrackerEntries "store" legacyWorld).1 "store" = ["a.txt"; "b.txt"].
Proof.
  destruct (deduplicate_reports_and_repairs "store" "other"
              {| uploadedFiles := ["a.txt"; "b.txt"; "a.txt"]; lastUpdate := 0 |}
              legacyWorld eq_refl)
    as (report & Hres & Hb & Ha & Hsum & _ & Hsaved).
  destruct (Hsaved eq_refl) as (Hentry & _).
  split.
  - rewrite Hres. destruct report as [b a r]. simpl in *. subst b a.
    f_equal. f_equal. vm_compute in Hsum. vm_compute. lia.
  - rewrite ledgerOf_entryOf, Hentry. reflexivity.
Defined.

Lemma firstOccurrences_NoDup_id (l : list string) : NoDup l → firstOccurrences l = l.
Proof. intros Hnd. rewrite <- of_array_firstOccurrences. by apply of_array_NoDup_id. Qed.

Lemma firstOccurrences_idemp (l : list string) :
  firstOccurrences (firstOccurrences l) = firstOccurrences l.
Proof. apply firstOccurrences_NoDup_id, firstOccurrences_NoDup. Qed.

Lemma repeatedOccurrences_NoDup (l : list string) : NoDup l → repeatedOccurrences l = [].
Proof. apply repeatedOccurrences_nil_NoDup. Qed.

(** X4.  Running the maintenance a second time removes nothing and leaves
    the list as it is, yet it writes the ledger file again; listing the
    store after the first run returns the list without writing. *)
Theorem deduplicate_twice (ragStoreName : string) (entry : TrackerEntry) (w : World) :
  entryOf w ragStoreName = Some entry →
  fs_write_fails w = false →
  let w1 := (deduplicateTrackerEntries ragStoreName w).1 in
  let w2 := (deduplicateTrackerEntries ragStoreName w1).1 in
  let n := length (firstOccurrences (uploadedFiles entry)) in
  (deduplicateTrackerEntries ragStoreName w1).2
  = Ok {| before := n; after := n; duplicatesRemoved := 0 |}
  ∧ ledgerOf w2 ragStoreName = ledgerOf w1 ragStoreName
  ∧ (∃ tracker, trace w2 = trace w1 ++ [EvSaveTracker tracker])
  ∧ listDocumentsInRagStore ragStoreName w1 = (w1, Ok (ledgerOf w1 ragStoreName)).
Proof.
  intros Hentry Hw w1 w2 n.
  set (entry1 := {| uploadedFiles := firstOccurrences (uploadedFiles entry);
                    lastUpdate := clock w |}).
  assert (w1 = happen w (EvSaveTracker (<[ragStoreName := entry1]>
                                          (default ∅ (tracker_file w))))) as Hw1.
  { unfold w1. rewrite (deduplicateTrackerEntries_run _ _ _ Hentry), Hw. done. }
  assert (entryOf w1 ragStoreName = Some entry1) as Hentry1.
  { rewrite Hw1. apply lookup_insert_eq. }
  assert (fs_write_fails w1 = false) as Hw1' by (by rewrite Hw1).
  assert (ledgerOf w1 ragStoreName = firstOccurrences (uploadedFiles entry)) as Hledger1.
  { by rewrite ledgerOf_entryOf, Hentry1. }
  unfold w2. rewrite (deduplicateTrackerEntries_run _ _ _ Hentry1), Hw1'.
  cbn [fst snd uploadedFiles entry1]. rewrite firstOccurrences_idemp.
  rewrite (repeatedOccurrences_NoDup (firstOccurrences _)) by apply firstOccurrences_NoDup.
  split_and!.
  - done.
  - rewrite ledgerOf_saved, lookup_insert_eq. by rewrite Hledger1.
  - eexists. reflexivity.
  - rewrite listDocumentsInRagStore_run. cbn zeta.
    rewrite decide_True by (rewrite Hledger1; apply firstOccurrences_NoDup).
    by rewrite Hledger1, firstOccurrences_idemp.
Qed.

Lemma deduplicate_twice_witness :
  (deduplicateTrackerEntries "store" (deduplicateTrackerEntries "store" legacyWorld).1).2
  = Ok {| before := 2; after := 2; duplicatesRemoved := 0 |}.
Proof.
  exact (proj1 (deduplicate_twice "store"
                  {| uploadedFiles := ["a.txt"; "b.txt"; "a.txt"]; lastUpdate := 0 |}
                  legacyWorld eq_refl eq_refl)).
Defined.

(** ** The store directory when the service fails *)

Section DirectoryFailures.

Lemma delete_fails_play events w : delete_fails (play events w) = delete_fails w.
Proof.
  revert w. induction events as [| e events IH]; intros w; [done |].
  rewrite play_cons, IH. by destruct e.
Qed.

Lemma list_fails_play events w : list_fails (play events w) = list_fails w.
Proof.
  revert w. induction events as [| e events IH]; intros w; [done |].
  rewrite play_cons, IH. by destruct e.
Qed.

Lemma listRagStores_swallows w : ai w = true → list_fails w = true → listRagStores w = (w, Ok []).
Proof.
  intros Hai Hlist.
  unfold listRagStores, bind, require_ai, try_catch, fileSearchStores_list.
  by rewrite Hai, Hlist.
Qed.

Lemma listRagStores_lists w :
  ai w = true → list_fails w = false → listRagStores w = (w, Ok (stores w)).
Proof.
  intros Hai Hlist.
  unfold listRagStores, bind, require_ai, try_catch, fileSearchStores_list.
  by rewrite Hai, Hlist.
Qed.

Lemma deleteRagStore_refused n w :
  ai w = true → delete_fails w n = true →
  deleteRagStore n w = (w, Throw "fileSearchStores.delete failed").
Proof.
  intros Hai Hdel. unfold deleteRagStore, bind, require_ai, fileSearchStores_delete.
  by rewrite Hai, Hdel.
Qed.

Lemma deleteRagStore_accepted n w :
  ai w = true → delete_fails w n = false →
  deleteRagStore n w
  = (if fs_write_fails w then happen w (EvDeleteStore n)
     else play [EvDeleteStore n; EvSaveTracker (delete n (default ∅ (tracker_file w)))] w,
     Ok tt).
Proof.
  intros Hai Hdel.
  unfold deleteRagStore, bind, require_ai, fileSearchStores_delete, clearUploadTracker.
  rewrite Hai, Hdel. run. by destruct (fs_write_fails w).
Qed.

Lemma deleteRagStore_stores n w :
  ai w = true → delete_fails w n = false →
  ∃ events,
    deleteRagStore n w = (play events w, Ok tt)
    ∧ stores (play events w) = removeNamed [n] (stores w).
Proof.
  intros Hai Hdel. rewrite deleteRagStore_accepted by done.
  assert (stores (happen w (EvDeleteStore n)) = removeNamed [n] (stores w)) as Hstores.
  { rewrite removeNamed_cons, removeNamed_nil. reflexivity. }
  destruct (fs_write_fails w).
  - exists [EvDeleteStore n]. split; [reflexivity | exact Hstores].
  - eexists. split; [reflexivity |]. rewrite <- Hstores. reflexivity.
Qed.

Lemma deleteAndCollect_partial storesToDelete deletedSoFar w :
  ai w = true →
  ∃ events,
    deleteAndCollect storesToDelete deletedSoFar w
    = (play events w, Ok (deletedSoFar ++ (name <$> deletable w storesToDelete)))
    ∧ stores (play events w) = removeNamed (name <$> deletable w storesToDelete) (stores w).
Proof.
  revert deletedSoFar w.
  induction storesToDelete as [| s rest IH]; intros deletedSoFar w Hai.
  - exists []. split; [by rewrite app_nil_r |]. by rewrite removeNamed_nil.
  - cbn [deleteAndCollect]. unfold deletable. cbn [List.filter].
    destruct (delete_fails w (name s)) eqn:Hdel; cbn [negb].
    + destruct (IH deletedSoFar w Hai) as (events & Hrun & Hstores).
      exists events. unfold bind, try_catch.
      rewrite deleteRagStore_refused by done. unfold ret. by rewrite Hrun.
    + destruct (deleteRagStore_stores (name s) w Hai Hdel) as (events1 & Hrun1 & Hstores1).
      destruct (IH (deletedSoFar ++ [name s]) (play events1 w))
        as (events2 & Hrun2 & Hstores2); [by rewrite ai_play |].
      unfold deletable in Hrun2, Hstores2. rewrite delete_fails_play in Hrun2, Hstores2.
      exists (events1 ++ events2). unfold bind, try_catch.
      rewrite Hrun1. unfold ret. rewrite Hrun2, play_app. split.
      * by rewrite <- app_assoc.
      * rewrite Hstores2, Hstores1, fmap_cons.
        change (name s :: (name <$> List.filter (λ s0, negb (delete_fails w (name s0))) rest))
          with ([name s] ++ (name <$> List.filter (λ s0, negb (delete_fails w (name s0))) rest)).
        by rewrite removeNamed_app.
Qed.

Lemma deleteDuplicates_partial storesToDelete w :
  ai w = true →
  ∃ events,
    deleteDuplicates storesToDelete w = (play events w, Ok tt)
    ∧ stores (play events w) = removeNamed (name <$> deletable w storesToDelete) (stores w).
Proof.
  revert w. induction storesToDelete as [| s rest IH]; intros w Hai.
  - exists []. split; [done |]. by rewrite removeNamed_nil.
  - cbn [deleteDuplicates]. unfold deletable. cbn [List.filter].
    destruct (delete_fails w (name s)) eqn:Hdel; cbn [negb].
    + destruct (IH w Hai) as (events & Hrun & Hstores).
      exists events. unfold bind, try_catch.
      rewrite deleteRagStore_refused by done. unfold ret. by rewrite Hrun.
    + destruct (deleteRagStore_stores (name s) w Hai Hdel) as (events1 & Hrun1 & Hstores1).
      destruct (IH (play events1 w)) as (events2 & Hrun2 & Hstores2); [by rewrite ai_play |].
      unfold deletable in Hstores2. rewrite delete_fails_play in Hstores2.
      exists (events1 ++ events2). unfold bind, try_catch.
      rewrite Hrun1, Hrun2, play_app. split; [done |].
      rewrite Hstores2, Hstores1, fmap_cons.
      change (name s :: (name <$> List.filter (λ s0, negb (delete_fails w (name s0))) rest))
        with ([name s] ++ (name <$> List.filter (λ s0, negb (delete_fails w (name s0))) rest)).
      by rewrite removeNamed_app.
Qed.

End DirectoryFailures.

(** X5.  When the listing call fails, [listRagStores] answers with an empty
    list instead of an error.  Every caller then sees an account without
    stores: the lookup by display name finds nothing, the cleanup reports
    nothing found, and [getOrCreateRagStore] creates a new store beside the
    stores that already carry the display name. *)
Theorem listing_failure_reads_as_no_stores (display : string) (w : World) :
  ai w = true →
  list_fails w = true →
  listRagStores w = (w, Ok [])
  ∧ getRagStoreByDisplayName display w = (w, Ok None)
  ∧ cleanupDuplicateStores display w
    = (w, Ok {| found := 0; deleted := 0; kept := None; deletedStores := [] |})
  ∧ (create_fails w = false → mint w (minted w) ≠ "" →
     let created := {| name := mint w (minted w); displayName := display;
                       activeDocumentsCount := None |} in
     let w' := (getOrCreateRagStore display w).1 in
     (getOrCreateRagStore display w).2 = Ok (name created, true)
     ∧ matching display (stores w') = matching display (stores w) ++ [created]).
Proof.
  intros Hai Hlist. pose proof (listRagStores_swallows w Hai Hlist) as Hnone.
  split_and!.
  - exact Hnone.
  - unfold getRagStoreByDisplayName, bind. by rewrite Hnone.
  - unfold cleanupDuplicateStores, bind, require_ai. by rewrite Hai, Hnone.
  - intros Hcreate Hmint created.
    assert (getOrCreateRagStore display w
            = (happen w (EvCreateStore display (name created)), Ok (name created, true)))
      as Hrun.
    { unfold getOrCreateRagStore, bind, require_ai. rewrite Hai, Hnone. cbn [matching List.filter].
      unfold createRagStore, bind, require_ai, fileSearchStores_create.
      rewrite Hai, Hcreate. cbn [name].
      by rewrite (proj2 (String.eqb_neq _ _) Hmint). }
    rewrite Hrun. split; [done |]. cbn [fst].
    change (stores (happen w (EvCreateStore display (name created))))
      with (stores w ++ [created]).
    rewrite matching_app. f_equal. unfold matching. cbn [List.filter displayName created].
    by rewrite String.eqb_refl.
Qed.

Lemma unlistableWorld_matches :
  matching "corpus" (stores unlistableWorld) = stores tripleWorld.
Proof. by vm_compute. Qed.

Lemma unlistableWorld_mint : mint unlistableWorld (minted unlistableWorld) ≠ "".
Proof. by vm_compute. Qed.

Lemma listing_failure_reads_as_no_stores_witness :
  getRagStoreByDisplayName "corpus" unlistableWorld = (unlistableWorld, Ok None)
  ∧ length (matching "corpus" (stores (getOrCreateRagStore "corpus" unlistableWorld).1)) = 4.
Proof.
  destruct (listing_failure_reads_as_no_stores "corpus" unlistableWorld eq_refl eq_refl)
    as (_ & Hfind & _ & Hcreate).
  destruct (Hcreate eq_refl unlistableWorld_mint) as (_ & Hstores).
  split; [exact Hfind |].
  rewrite Hstores, unlistableWorld_matches. reflexivity.
Defined.

(** X6.  With several stores of one display name, the cleanup reports as
    deleted exactly the duplicates whose deletion the service accepted,
    in order; it never deletes the store it keeps, a duplicate whose
    deletion failed stays, and the failure is not an error.
    [getOrCreateRagStore] leaves the same stores behind and returns the
    kept store. *)
Theorem cleanup_reports_accepted_deletions (display : string) (first : Store)
    (rest : list Store) (w : World) :
  ai w = true →
  list_fails w = false →
  matching display (stores w) = first :: rest →
  let matchingStores := first :: rest in
  let best := foldl moreDocuments first rest in
  let gone := name <$> deletable w (duplicatesOf best matchingStores) in
  ∃ w' report,
    cleanupDuplicateStores display w = (w', Ok report)
    ∧ found report = length matchingStores
    ∧ deletedStores report = gone
    ∧ deleted report = length gone
    ∧ (rest ≠ [] ∨ name first ≠ "" → kept report = Some (name best))
    ∧ stores w' = removeNamed gone (stores w)
    ∧ best ∈ stores w'
    ∧ (∀ s, s ∈ stores w → delete_fails w (name s) = true → s ∈ stores w')
    ∧ (getOrCreateRagStore display w).2 = Ok (name best, false)
    ∧ stores (getOrCreateRagStore display w).1 = stores w'.
Proof.
  intros Hai Hlist Hmatch matchingStores best gone.
  assert (best ∈ stores w) as Hbest.
  { apply (elem_of_matching display). rewrite Hmatch.
    apply first_max_elem, moreDocuments_first_max. }
  assert (∀ n, n ∈ gone → n ≠ name best ∧ delete_fails w n = false) as Hgone.
  { intros n Hn. unfold gone, deletable in Hn.
    apply list_elem_of_fmap in Hn as (s & -> & Hs).
    apply elem_of_List_filter in Hs as [Hs Hdel].
    apply elem_of_duplicatesOf in Hs as [_ Hne].
    split; [done |]. by apply negb_true_iff in Hdel. }
  assert (best ∈ removeNamed gone (stores w)) as Hkept.
  { apply elem_of_removeNamed. split; [done |]. intros Hin. by apply Hgone in Hin as [? _]. }
  assert (∀ s, s ∈ stores w → delete_fails w (name s) = true
               → s ∈ removeNamed gone (stores w)) as Hstay.
  { intros s Hs Hdel. apply elem_of_removeNamed. split; [done |].
    intros Hin. apply Hgone in Hin as [_ Hok]. congruence. }
  destruct rest as [| second rest].
  - (* one store: nothing to delete *)
    assert (gone = []) as Hnil.
    { unfold gone, duplicatesOf, matchingStores, best. cbn [foldl List.filter].
      by rewrite String.eqb_refl. }
    rewrite Hnil in *. rewrite removeNamed_nil in *.
    exists w. eexists. split_and!.
    + unfold cleanupDuplicateStores, bind, require_ai.
      rewrite Hai, listRagStores_lists by done. rewrite Hmatch. cbn. reflexivity.
    + done.
    + done.
    + done.
    + intros [Hrest | Hname]; [done |]. cbn.
      by rewrite (proj2 (String.eqb_neq _ _) Hname).
    + done.
    + done.
    + done.
    + unfold getOrCreateRagStore, bind, require_ai.
      rewrite Hai, listRagStores_lists by done. by rewrite Hmatch.
    + unfold getOrCreateRagStore, bind, require_ai.
      rewrite Hai, listRagStores_lists by done. by rewrite Hmatch.
  - destruct (deleteAndCollect_partial (duplicatesOf best matchingStores) [] w Hai)
      as (events & Hrun & Hstores).
    destruct (deleteDuplicates_partial (duplicatesOf best matchingStores) w Hai)
      as (events' & Hrun' & Hstores').
    assert (getOrCreateRagStore display w = (play events' w, Ok (name best, false))) as Hget.
    { unfold getOrCreateRagStore, bind, require_ai.
      rewrite Hai, listRagStores_lists by done. rewrite Hmatch.
      fold best. fold matchingStores. fold (duplicatesOf best matchingStores).
      by rewrite Hrun'. }
    exists (play events w). eexists. split_and!.
    + unfold cleanupDuplicateStores, bind, require_ai.
      rewrite Hai, listRagStores_lists by done. rewrite Hmatch.
      cbn [length Nat.leb]. fold best. fold matchingStores.
      fold (duplicatesOf best matchingStores). rewrite Hrun. unfold ret. reflexivity.
    + done.
    + done.
    + cbn [deleted]. by rewrite app_nil_l.
    + done.
    + exact Hstores.
    + by rewrite Hstores.
    + intros s Hs Hdel. rewrite Hstores. by apply Hstay.
    + by rewrite Hget.
    + rewrite Hget. cbn [fst]. by rewrite Hstores, Hstores'.
Qed.

Lemma stubbornWorld_matches :
  matching "corpus" (stores stubbornWorld) = corpusA :: [corpusB; corpusC].
Proof. by vm_compute. Qed.

Lemma stubbornWorld_gone :
  name <$> deletable stubbornWorld
             (duplicatesOf (foldl moreDocuments corpusA [corpusB; corpusC])
                (corpusA :: [corpusB; corpusC]))
  = ["fileSearchStores/a"].
Proof. by vm_compute. Qed.

Lemma stubbornWorld_kept :
  Some (name (foldl moreDocuments corpusA [corpusB; corpusC])) = Some "fileSearchStores/b".
Proof. by vm_compute. Qed.

Lemma stubbornWorld_rest : [corpusB; corpusC] ≠ [].
Proof. discriminate. Qed.

Lemma cleanup_reports_accepted_deletions_witness :
  ∃ report,
    (cleanupDuplicateStores "corpus" stubbornWorld).2 = Ok report
    ∧ deletedStores report = ["fileSearchStores/a"]
    ∧ kept report = Some "fileSearchStores/b".
Proof.
  destruct (cleanup_reports_accepted_deletions "corpus" corpusA [corpusB; corpusC]
              stubbornWorld eq_refl eq_refl stubbornWorld_matches)
    as (w' & report & Hrun & _ & Hgone & _ & Hkept & _).
  exists report. split; [exact (f_equal snd Hrun) |]. split.
  - exact (eq_trans Hgone stubbornWorld_gone).
  - exact (eq_trans (Hkept (or_introl stubbornWorld_rest)) stubbornWorld_kept).
Defined.

(** X7.  Deleting a store forgets its ledger entry only after the service
    accepted the deletion.  When the service refuses, the call throws and
    stores and ledger stay as they were.  When it accepts, the call
    returns, the stores of that name are gone and the others stay; the
    ledger entry is removed and the other entries kept if the ledger file
    can be written, and left behind otherwise. *)
Theorem delete_store_then_forget (ragStoreName other : string) (w : World) :
  ai w = true →
  let w' := (deleteRagStore ragStoreName w).1 in
  (delete_fails w ragStoreName = true →
   deleteRagStore ragStoreName w = (w, Throw "fileSearchStores.delete failed"))
  ∧ (delete_fails w ragStoreName = false →
     (deleteRagStore ragStoreName w).2 = Ok tt
     ∧ (∀ s, s ∈ stores w' ↔ s ∈ stores w ∧ name s ≠ ragStoreName)
     ∧ (fs_write_fails w = false →
        entryOf w' ragStoreName = None
        ∧ (other ≠ ragStoreName → entryOf w' other = entryOf w other))
     ∧ (fs_write_fails w = true → tracker_file w' = tracker_file w)).
Proof.
  intros Hai w'. split; [by apply deleteRagStore_refused |].
  intros Hdel. unfold w'. rewrite deleteRagStore_accepted by done. cbn [fst snd].
  split_and!.
  - done.
  - intros s.
    assert (stores (if fs_write_fails w then happen w (EvDeleteStore ragStoreName)
                    else play [EvDeleteStore ragStoreName;
                               EvSaveTracker (delete ragStoreName (default ∅ (tracker_file w)))] w)
            = List.filter (λ s, negb (String.eqb (name s) ragStoreName)) (stores w)) as ->.
    { by destruct (fs_write_fails w). }
    rewrite elem_of_List_filter, negb_true_iff, String.eqb_neq. done.
  - intros ->. unfold entryOf. split.
    + apply lookup_delete_eq.
    + intros Hne.
      exact (lookup_delete_ne (default ∅ (tracker_file w)) ragStoreName other
               (not_eq_sym Hne)).
  - by intros ->.
Qed.

Lemma delete_store_then_forget_witness :
  deleteRagStore "fileSearchStores/c" stubbornWorld
  = (stubbornWorld, Throw "fileSearchStores.delete failed")
  ∧ (deleteRagStore "fileSearchStores/a" stubbornWorld).2 = Ok tt.
Proof.
  split.
  - exact (proj1 (delete_store_then_forget "fileSearchStores/c" "other" stubbornWorld eq_refl)
             eq_refl).
  - exact (proj1 (proj2 (delete_store_then_forget "fileSearchStores/a" "other" stubbornWorld
                           eq_refl) eq_refl)).
Defined.

(** X8.  Before the client is initialised every call to the remote service
    throws ["Gemini AI not initialized"] and does nothing: no request is
    sent, no file is read and the ledger is not written. *)
Theorem nothing_runs_before_initialize {lib : NodeLib}
    (display ragStoreName path : string) (onProgress resumeMode : bool) (w : World) :
  ai w = false →
  let refused {A} : World * Res A := (w, Throw "Gemini AI not initialized") in
  listRagStores w = refused
  ∧ getRagStoreByDisplayName display w = refused
  ∧ createRagStore display w = refused
  ∧ getOrCreateRagStore display w = refused
  ∧ deleteRagStore ragStoreName w = refused
  ∧ cleanupDuplicateStores display w = refused
  ∧ uploadFileToRagStore ragStoreName path onProgress w = refused
  ∧ uploadDirectoryToRagStore ragStoreName path onProgress resumeMode w = refused.
Proof.
  intros Hai refused. unfold refused.
  assert (listRagStores w = (w, Throw "Gemini AI not initialized")) as Hlist.
  { unfold listRagStores, bind, require_ai. by rewrite Hai. }
  split_and!.
  - exact Hlist.
  - unfold getRagStoreByDisplayName, bind. by rewrite Hlist.
  - unfold createRagStore, bind, require_ai. by rewrite Hai.
  - unfold getOrCreateRagStore, bind, require_ai. by rewrite Hai.
  - unfold deleteRagStore, bind, require_ai. by rewrite Hai.
  - unfold cleanupDuplicateStores, bind, require_ai. by rewrite Hai.
  - unfold uploadFileToRagStore, bind, require_ai. by rewrite Hai.
  - unfold uploadDirectoryToRagStore, bind, require_ai. by rewrite Hai.
Qed.

Lemma nothing_runs_before_initialize_witness :
  uploadDirectoryToRagStore (lib := posix) "store" "docs" true true
    (uninitialised oneDocWorld)
  = (uninitialised oneDocWorld, Throw "Gemini AI not initialized").
Proof.
  exact (proj2 (proj2 (proj2 (proj2 (proj2 (proj2 (proj2
    (nothing_runs_before_initialize (lib := posix) "corpus" "store" "docs" true true
       (uninitialised oneDocWorld) eq_refl)))))))).
Defined.

(** ** Bounds on one upload *)

Section UploaderBounds.

Context {lib : NodeLib}.

Lemma elapsed_app events1 events2 :
  elapsed (events1 ++ events2) = (elapsed events1 + elapsed events2)%N.
Proof.
  induction events1 as [| e events1 IH]; [done |].
  cbn [app elapsed foldr]. fold (elapsed (events1 ++ events2)). fold (elapsed events1).
  rewrite IH. destruct e; lia.
Qed.

Lemma clock_play events w : clock (play events w) = (clock w + elapsed events)%N.
Proof.
  revert w. induction events as [| e events IH]; intros w.
  - rewrite play_nil. cbn. lia.
  - rewrite play_cons, IH. cbn [elapsed foldr]. fold (elapsed events).
    destruct e; unfold happen; cbn; lia.
Qed.

Lemma elapsed_pollRounds fileName k :
  elapsed (pollRounds fileName k) = (3000 * N.of_nat k)%N.
Proof.
  induction k as [| k IH]; [done |].
  rewrite pollRounds_S, elapsed_app, IH. cbn. lia.
Qed.

Lemma pollCount_le i : pollCount i ≤ maxPollAttempts.
Proof. destruct i; unfold pollCount; lia. Qed.

Lemma elapsed_attemptEvents ragStoreName filePath fileName onProgress readable i :
  (elapsed (attemptEvents ragStoreName filePath fileName onProgress readable i)
   ≤ 360000 + (if readable && negb (ingestionFails i) then 1500 else 0))%N.
Proof.
  unfold attemptEvents. rewrite !elapsed_app.
  assert (elapsed (if onProgress then [EvFileProgress fileName] else []) = 0%N) as ->
    by (by destruct onProgress).
  destruct readable; [| cbn; lia].
  rewrite !elapsed_app, elapsed_pollRounds.
  pose proof (pollCount_le i) as Hle. unfold maxPollAttempts in Hle.
  destruct (ingestionFails i); cbn; lia.
Qed.

Lemma elapsed_failed_attempt w ragStoreName filePath fileName onProgress :
  attemptFails w filePath fileName 0 →
  (elapsed (attemptEventsAt w ragStoreName filePath fileName onProgress 0) ≤ 360000)%N.
Proof.
  intros Hfail.
  pose proof (elapsed_attemptEvents ragStoreName filePath fileName onProgress
                (fs_readable w filePath) (scriptOf w filePath fileName 0)) as Hle.
  fold (attemptEventsAt w ragStoreName filePath fileName onProgress 0) in Hle.
  destruct Hfail as [Hread | Hing].
  - rewrite Hread in Hle. cbn in Hle. lia.
  - rewrite Hing in Hle. rewrite andb_false_r in Hle. lia.
Qed.

Lemma elapsed_attempt w ragStoreName filePath fileName onProgress :
  (elapsed (attemptEventsAt w ragStoreName filePath fileName onProgress 0) ≤ 361500)%N.
Proof.
  pose proof (elapsed_attemptEvents ragStoreName filePath fileName onProgress
                (fs_readable w filePath) (scriptOf w filePath fileName 0)) as Hle.
  fold (attemptEventsAt w ragStoreName filePath fileName onProgress 0) in Hle.
  destruct (_ && _) in Hle; lia.
Qed.

Lemma submits_attempt w ragStoreName filePath fileName onProgress :
  length (List.filter isSubmit (attemptEventsAt w ragStoreName filePath fileName onProgress 0))
  ≤ 1.
Proof.
  unfold attemptEventsAt. rewrite attemptEvents_submits. destruct (fs_readable w filePath); lia.
Qed.

Lemma backoff_S attempt : backoff (S attempt) = (2 * backoff attempt)%N.
Proof. unfold backoff. rewrite Nat2N.inj_succ, N.pow_succ_r by lia. lia. Qed.

Lemma backoff_mono a b : a ≤ b → (backoff a ≤ backoff b)%N.
Proof.
  intros Hle. unfold backoff. apply N.mul_le_mono_l, N.pow_le_mono_r; lia.
Qed.

(** Time and submissions of the retry loop, counted from any iteration of
    the [for] loop on. *)
Lemma retryLoop_bounds ragStoreName filePath fileName onProgress remaining :
  ∀ attempt w,
    attempt + remaining = maxRetries →
    0 < remaining →
    ∃ events r,
      retryLoop ragStoreName filePath fileName onProgress remaining attempt w
      = (play events w, r)
      ∧ Forall (λ e, isUploaderEvent e = true) events
      ∧ length (List.filter isSubmit events) ≤ remaining
      ∧ (elapsed events + backoff attempt
         ≤ N.of_nat remaining * 360000 + 1500 + backoff (maxRetries - 1))%N.
Proof.
  induction remaining as [| remaining IH]; intros attempt w Hsum Hpos; [lia |].
  pose proof (attemptEvents_uploader ragStoreName filePath fileName onProgress
                (fs_readable w filePath) (scriptOf w filePath fileName 0)) as [Hup _].
  fold (attemptEventsAt w ragStoreName filePath fileName onProgress 0) in Hup.
  pose proof (submits_attempt w ragStoreName filePath fileName onProgress) as Hsub.
  assert (backoff attempt ≤ backoff (maxRetries - 1))%N as Hmono by (apply backoff_mono; lia).
  destruct (attemptFails_dec w filePath fileName 0) as [Hfail | Hok].
  - pose proof (elapsed_failed_attempt w ragStoreName filePath fileName onProgress Hfail)
      as Hel.
    destruct (decide (attempt = maxRetries - 1)) as [-> | Hnotlast].
    + eexists _, _. split; [by apply retryLoop_gives_up |].
      split_and!; [done | lia | lia].
    + rewrite retryLoop_backs_off by done.
      destruct (IH (S attempt)
                  (play (attemptEventsAt w ragStoreName filePath fileName onProgress 0
                           ++ [EvDelay (backoff attempt)]) w))
        as (events & r & Hrun & Hall & Hsubs & Htime); [lia | lia |].
      eexists _, r. split; [by rewrite Hrun, <- play_app |]. split_and!.
      * rewrite !Forall_app. split_and!; [done | by repeat constructor | done].
      * rewrite !List.filter_app, !length_app. cbn. lia.
      * rewrite !elapsed_app. rewrite backoff_S in Htime.
        change (elapsed [EvDelay (backoff attempt)]) with (backoff attempt + 0)%N. lia.
  - pose proof (elapsed_attempt w ragStoreName filePath fileName onProgress) as Hel.
    eexists _, _. split; [by apply retryLoop_succeeds |].
    split_and!; [done | lia | lia].
Qed.

(** Events the uploader causes leave the ledger, the store list and the
    name supply alone. *)
Lemma uploader_events_frame events w :
  Forall (λ e, isUploaderEvent e = true) events →
  tracker_file (play events w) = tracker_file w
  ∧ stores (play events w) = stores w
  ∧ minted (play events w) = minted w.
Proof.
  revert w. induction events as [| e events IH]; intros w Hall; [done |].
  apply Forall_cons in Hall as [He Hall]. rewrite play_cons.
  destruct (IH (happen w e) Hall) as (-> & -> & ->). by destruct e.
Qed.

(** A failed attempt followed by its backoff moves the scripts one
    attempt on. *)
Lemma retryLoop_recovers ragStoreName filePath fileName onProgress k :
  ∀ remaining attempt w,
    attempt + k < maxRetries →
    k < remaining →
    (∀ j, j < k → attemptFails w filePath fileName j) →
    ¬ attemptFails w filePath fileName k →
    retryLoop ragStoreName filePath fileName onProgress remaining attempt w
    = (play (withBackoff
               ((λ j, attemptEventsAt w ragStoreName filePath fileName onProgress j)
                  <$> seq 0 (S k)) attempt) w,
       Ok tt).
Proof.
  induction k as [| k IH]; intros remaining attempt w Hsum Hrem Hfail Hok.
  - destruct remaining as [| remaining]; [lia |]. by rewrite retryLoop_succeeds.
  - destruct remaining as [| remaining]; [lia |].
    rewrite retryLoop_backs_off; [| apply Hfail; lia | unfold maxRetries in *; lia].
    pose proof (after_attempt w ragStoreName filePath fileName onProgress (backoff attempt))
      as [Hread Hscript].
    set (w' := play _ w) in *.
    assert (∀ j, attemptEventsAt w' ragStoreName filePath fileName onProgress j
                 = attemptEventsAt w ragStoreName filePath fileName onProgress (S j)) as Hev.
    { intros j. unfold attemptEventsAt. by rewrite Hread, Hscript. }
    rewrite (IH remaining (S attempt) w').
    + f_equal. unfold w'. rewrite <- play_app. f_equal.
      transitivity
        (withBackoff
           (attemptEventsAt w ragStoreName filePath fileName onProgress 0
              :: ((λ j, attemptEventsAt w' ragStoreName filePath fileName onProgress j)
                    <$> seq 0 (S k))) attempt).
      * cbn [seq fmap list_fmap withBackoff]. by rewrite <- !app_assoc.
      * f_equal. change (seq 0 (S (S k))) with (0 :: seq 1 (S k)).
        rewrite fmap_cons. f_equal.
        rewrite <- (fmap_S_seq 0 (S k)), <- list_fmap_compose.
        apply list_fmap_ext. intros ? j _. simpl. by rewrite Hev.
    + lia.
    + lia.
    + intros j Hj. unfold attemptFails. rewrite Hread, Hscript. apply Hfail. lia.
    + unfold attemptFails. rewrite Hread, Hscript. exact Hok.
Qed.

End UploaderBounds.

(** X9.  Whatever the service does, one call of [uploadFileToRagStore]
    submits the file at most five times, waits at most 1,831,500 ms in
    all (five attempts of 120 polls 3 s apart, the four backoffs and the
    1.5 s after a success) and leaves the ledger file, the store list and
    the write-protection of the ledger as they were. *)
Theorem upload_is_bounded {lib : NodeLib} (ragStoreName filePath : string)
    (onProgress : bool) (w : World) :
  ai w = true →
  let w' := (uploadFileToRagStore ragStoreName filePath onProgress w).1 in
  submissions w ≤ submissions w' ≤ submissions w + maxRetries
  ∧ (clock w ≤ clock w' ≤ clock w + 1831500)%N
  ∧ tracker_file w' = tracker_file w
  ∧ stores w' = stores w
  ∧ fs_write_fails w' = fs_write_fails w.
Proof.
  intros Hai w'.
  destruct (retryLoop_bounds ragStoreName filePath (path_basename filePath) onProgress
              maxRetries 0 w) as (events & r & Hrun & Hall & Hsub & Htime);
    [done | unfold maxRetries; lia |].
  assert (w' = play events w) as ->.
  { unfold w', uploadFileToRagStore, bind, require_ai. by rewrite Hai, Hrun. }
  destruct (uploader_events_frame events w Hall) as (Htracker & Hstores & _).
  rewrite submissions_play, clock_play, fs_write_fails_play.
  change (backoff 0) with 2000%N in Htime.
  change (backoff (maxRetries - 1)) with 32000%N in Htime.
  change (N.of_nat maxRetries) with 5%N in Htime.
  split_and!; try done; lia.
Qed.

Lemma upload_is_bounded_witness :
  (clock (uploadFileToRagStore (lib := posix) "store" "docs/a.txt" false stallingWorld).1
   ≤ clock stallingWorld + 1831500)%N.
Proof.
  exact (proj2 (proj1 (proj2
    (upload_is_bounded (lib := posix) "store" "docs/a.txt" false stallingWorld eq_refl)))).
Defined.

Lemma withBackoff_cons (evs evs' : list Event) (l : list (list Event)) attempt :
  withBackoff (evs :: evs' :: l) attempt
  = evs ++ [EvDelay (backoff attempt)] ++ withBackoff (evs' :: l) (S attempt).
Proof. done. Qed.

Lemma submits_withBackoff (l : list (list Event)) attempt :
  Forall (λ evs, length (List.filter isSubmit evs) = 1) l →
  length (List.filter isSubmit (withBackoff l attempt)) = length l.
Proof.
  revert attempt. induction l as [| evs l IH]; intros attempt Hall; [done |].
  apply Forall_cons in Hall as [Hone Hall].
  destruct l as [| evs' l]; [exact Hone |].
  rewrite withBackoff_cons, !List.filter_app, !length_app, Hone, (IH (S attempt) Hall).
  done.
Qed.

Lemma withBackoff_seq (f : nat → list Event) k :
  ∀ n attempt,
    withBackoff (f <$> seq n (S k)) attempt
    = concat ((λ j, f (n + j) ++ [EvDelay (backoff (attempt + j))]) <$> seq 0 k)
      ++ f (n + k).
Proof.
  induction k as [| k IH]; intros n attempt.
  - cbn. by rewrite Nat.add_0_r.
  - change (seq n (S (S k))) with (n :: seq (S n) (S k)). rewrite fmap_cons.
    change (f <$> seq (S n) (S k)) with (f (S n) :: (f <$> seq (S (S n)) k)).
    rewrite withBackoff_cons.
    change (f (S n) :: (f <$> seq (S (S n)) k)) with (f <$> seq (S n) (S k)).
    rewrite IH. change (seq 0 (S k)) with (0 :: seq 1 k).
    rewrite fmap_cons, concat_cons, <- (fmap_S_seq 0 k), <- list_fmap_compose.
    rewrite !Nat.add_0_r, <- !app_assoc. f_equal. f_equal. f_equal.
    + f_equal. apply list_fmap_ext. intros ? j _. cbn. by rewrite !Nat.add_succ_r.
    + by rewrite Nat.add_succ_r.
Qed.

Lemma delaysOf_app events1 events2 :
  delaysOf (events1 ++ events2) = delaysOf events1 ++ delaysOf events2.
Proof. apply omap_app. Qed.

Lemma delaysOf_concat (l : list (list Event)) :
  delaysOf (concat l) = concat (delaysOf <$> l).
Proof.
  induction l as [| events l IH]; [done |].
  by rewrite fmap_cons, !concat_cons, delaysOf_app, IH.
Qed.

Lemma delaysOf_pollRounds fileName k : delaysOf (pollRounds fileName k) = replicate k 3000%N.
Proof.
  induction k as [| k IH]; [done |].
  rewrite pollRounds_S, delaysOf_app, IH.
  done.
Qed.

(** X10.  If the first [k] attempts fail and the next one does not, with
    [k] below five, the upload returns normally after exactly those
    [k + 1] attempts: the file was submitted [k + 1] times, and the waits
    were, for each failed attempt [j], its polls 3 s apart and then
    [baseDelay * 2^j], and for the last attempt its polls and 1.5 s. *)
Theorem upload_recovers_after_failures {lib : NodeLib} (ragStoreName filePath : string)
    (onProgress : bool) (k : nat) (w : World) :
  let fileName := path_basename filePath in
  let events :=
    withBackoff ((λ j, attemptEventsAt w ragStoreName filePath fileName onProgress j)
                   <$> seq 0 (S k)) 0 in
  ai w = true →
  k < maxRetries →
  (∀ j, j < k → ingestionFails (scriptOf w filePath fileName j) = true) →
  fs_readable w filePath = true →
  ingestionFails (scriptOf w filePath fileName k) = false →
  uploadFileToRagStore ragStoreName filePath onProgress w = (play events w, Ok tt)
  ∧ submissions (play events w) = submissions w + S k
  ∧ delaysOf events
    = concat ((λ j, replicate (pollCount (scriptOf w filePath fileName j)) 3000%N
                    ++ [backoff j]) <$> seq 0 k)
      ++ replicate (pollCount (scriptOf w filePath fileName k)) 3000%N ++ [1500%N].
Proof.
  intros fileName events Hai Hk Hfail Hread Hok.
  split_and!.
  - unfold uploadFileToRagStore, bind, require_ai. rewrite Hai.
    apply retryLoop_recovers; [lia | unfold maxRetries in *; lia | |].
    + intros j Hj. right. by apply Hfail.
    + intros [Hno | Hbad]; congruence.
  - rewrite submissions_play. f_equal. unfold events.
    rewrite submits_withBackoff; [by rewrite length_fmap, length_seq |].
    apply Forall_fmap, Forall_seq. intros j Hj. cbn.
    unfold attemptEventsAt. by rewrite attemptEvents_submits, Hread.
  - assert (∀ j, delaysOf (attemptEventsAt w ragStoreName filePath fileName onProgress j)
                 = replicate (pollCount (scriptOf w filePath fileName j)) 3000%N
                   ++ (if ingestionFails (scriptOf w filePath fileName j) then []
                       else [1500%N])) as Hdelays.
    { intros j. unfold attemptEventsAt, attemptEvents. rewrite Hread.
      rewrite !delaysOf_app, delaysOf_pollRounds.
      destruct onProgress, (ingestionFails (scriptOf w filePath fileName j)); done. }
    unfold events. rewrite withBackoff_seq, delaysOf_app, delaysOf_concat.
    rewrite <- list_fmap_compose. cbn [Nat.add]. rewrite Hdelays, Hok. f_equal.
    f_equal. apply list_fmap_ext. intros i j Hj.
    apply lookup_seq in Hj as [-> Hi]. cbn.
    rewrite delaysOf_app, Hdelays, (Hfail i Hi). by rewrite app_nil_r.
Qed.

Lemma stallingWorld_attempts : 1 < maxRetries.
Proof. unfold maxRetries. lia. Qed.

Lemma stallingWorld_first_fails :
  ∀ j, j < 1 →
    ingestionFails (scriptOf stallingWorld "docs/a.txt"
                      (@path_basename posix "docs/a.txt") j) = true.
Proof. intros j Hj. destruct j; [by vm_compute | lia]. Qed.

Lemma stallingWorld_second_succeeds :
  ingestionFails (scriptOf stallingWorld "docs/a.txt"
                    (@path_basename posix "docs/a.txt") 1) = false.
Proof. by vm_compute. Qed.

Lemma upload_recovers_after_failures_witness :
  (uploadFileToRagStore (lib := posix) "store" "docs/a.txt" false stallingWorld).2 = Ok tt.
Proof.
  exact (f_equal snd (proj1
    (upload_recovers_after_failures (lib := posix) "store" "docs/a.txt" false 1 stallingWorld
       eq_refl stallingWorld_attempts stallingWorld_first_fails eq_refl
       stallingWorld_second_succeeds))).
Defined.

(** ** The ledger across a run *)

Section RunLedger.

Context {lib : NodeLib}.

Lemma foldl_add_cons (l : list string) x news :
  foldl JsSet.add l (x :: news) = foldl JsSet.add (JsSet.add l x) news.
Proof. done. Qed.

Lemma addUploadedFile_frame ragStoreName fileName w :
  let w' := (addUploadedFile ragStoreName fileName w).1 in
  ai w' = ai w
  ∧ stores w' = stores w
  ∧ fs_write_fails w' = fs_write_fails w
  ∧ (∀ other, other ≠ ragStoreName → entryOf w' other = entryOf w other)
  ∧ (((addUploadedFile ragStoreName fileName w).2 = Ok tt
      ∧ ledgerOf w' ragStoreName
        = (if fs_write_fails w then ledgerOf w ragStoreName
           else JsSet.add (ledgerOf w ragStoreName) fileName))
     ∨ addUploadedFile ragStoreName fileName w = (w, Throw (readOfUndefined "includes"))).
Proof.
  intros w'. unfold w'. rewrite addUploadedFile_run.
  destruct (shadowed w ragStoreName).
  { cbn [fst snd]. split_and!; try done. by right. }
  destruct (decide (fileName ∈ ledgerOf w ragStoreName)) as [Hin | Hout].
  - cbn [fst snd]. rewrite add_present by done.
    split_and!; try done. left. split; [done |]. by destruct (fs_write_fails w).
  - rewrite add_absent by done. destruct (fs_write_fails w) eqn:Hw.
    + cbn [fst snd]. rewrite Hw. split_and!; try done. by left.
    + cbn zeta. cbn [fst snd]. split_and!; try done.
      * intros other Hne.
        exact (lookup_insert_ne (default ∅ (tracker_file w)) ragStoreName other _
                 (not_eq_sym Hne)).
      * left. split; [done |]. rewrite ledgerOf_saved, lookup_insert_eq. done.
Qed.

(** The loop appends to the store's ledger list the files it uploaded,
    each unless already there, and touches nothing else. *)
Lemma uploadLoop_ledger ragStoreName directoryPath onProgress total files :
  ∀ i st w,
    ai w = true →
    ∃ w' st' news,
      uploadLoop ragStoreName directoryPath onProgress total i files st w = (w', Ok st')
      ∧ ls_successful st' = ls_successful st ++ news
      ∧ ledgerOf w' ragStoreName
        = (if fs_write_fails w then ledgerOf w ragStoreName
           else foldl JsSet.add (ledgerOf w ragStoreName) news)
      ∧ (∀ other, other ≠ ragStoreName → entryOf w' other = entryOf w other)
      ∧ stores w' = stores w
      ∧ fs_write_fails w' = fs_write_fails w.
Proof.
  induction files as [| fileName rest IH]; intros i st w Hai.
  - exists w, st, []. rewrite !app_nil_r. split_and!; try done.
    by destruct (fs_write_fails w).
  - cbn [uploadLoop]. destruct (JsSet.has (uploadedInSession st) fileName).
    { destruct (IH (S i) {| ls_successful := ls_successful st; ls_failed := ls_failed st;
                            ls_skipped := ls_skipped st ++ [fileName];
                            uploadedInSession := uploadedInSession st |} w Hai)
        as (w' & st' & news & Hrun & Hsucc & Hledger & Hother & Hstores & Hflag).
      exists w', st', news. by split_and!. }
    set (filePath := path_join directoryPath fileName).
    set (w0 := play (progressEvents onProgress (i + 1) total fileName) w).
    assert ((if onProgress then perform (EvProgress (i + 1) total fileName) else ret tt) w
            = (w0, Ok tt)) as Hprogress by (unfold w0; by destruct onProgress).
    assert (ai w0 = true) as Hai0 by (unfold w0; by rewrite ai_play).
    destruct (uploadFileToRagStore_events ragStoreName filePath false w0 Hai0)
      as (upload & res & Hrun & Hall & _ & Hres).
    set (w1 := play upload w0) in *.
    assert (tracker_file w1 = tracker_file w ∧ stores w1 = stores w
            ∧ fs_write_fails w1 = fs_write_fails w ∧ ai w1 = true) as (Ht1 & Hs1 & Hf1 & Hai1).
    { unfold w1. destruct (uploader_events_frame upload w0 Hall) as (-> & -> & _).
      rewrite fs_write_fails_play, ai_play. unfold w0.
      rewrite fs_write_fails_play. by destruct onProgress. }
    assert (ledgerOf w1 ragStoreName = ledgerOf w ragStoreName) as Hl1
      by (unfold ledgerOf; by rewrite Ht1).
    assert (∀ other, entryOf w1 other = entryOf w other) as He1
      by (intros other; unfold entryOf; by rewrite Ht1).
    unfold bind at 1, try_catch. unfold bind at 1. rewrite Hprogress.
    unfold bind at 1. rewrite Hrun.
    destruct Hres as [-> | [lastError ->]].
    + destruct (addUploadedFile_frame ragStoreName fileName w1)
        as (Hai2 & Hs2 & Hf2 & He2 & [[Hok Hl2] | Hthrows]).
      * destruct (addUploadedFile ragStoreName fileName w1) as [w2 r2] eqn:Hadd.
        cbn [fst snd] in *. subst r2.
        unfold bind at 1. rewrite Hadd. unfold ret.
        destruct (IH (S i)
                    {| ls_successful := ls_successful st ++ [fileName];
                       ls_failed := ls_failed st; ls_skipped := ls_skipped st;
                       uploadedInSession := JsSet.add (uploadedInSession st) fileName |} w2)
          as (w' & st' & news & Hloop & Hsucc & Hledger & Hother & Hstores & Hflag);
          [congruence |].
        exists w', st', (fileName :: news). split_and!.
        -- done.
        -- rewrite Hsucc. cbn [ls_successful]. by rewrite <- app_assoc.
        -- rewrite Hledger, Hf2, Hf1, Hl2, Hf1, Hl1.
           by destruct (fs_write_fails w).
        -- intros other Hne. by rewrite Hother, He2, He1.
        -- congruence.
        -- congruence.
      * unfold bind at 1. rewrite Hthrows. unfold ret.
        destruct (IH (S i)
                    {| ls_successful := ls_successful st;
                       ls_failed := ls_failed st ++ [(fileName, readOfUndefined "includes")];
                       ls_skipped := ls_skipped st;
                       uploadedInSession := uploadedInSession st |} w1 Hai1)
          as (w' & st' & news & Hloop & Hsucc & Hledger & Hother & Hstores & Hflag).
        exists w', st', news. split_and!.
        -- done.
        -- done.
        -- by rewrite Hledger, Hf1, Hl1.
        -- intros other Hne. by rewrite Hother, He1.
        -- congruence.
        -- congruence.
    + unfold ret.
      destruct (IH (S i)
                  {| ls_successful := ls_successful st;
                     ls_failed := ls_failed st
                       ++ [(fileName, uploadFailed (path_basename filePath) maxRetries lastError)];
                     ls_skipped := ls_skipped st;
                     uploadedInSession := uploadedInSession st |} w1 Hai1)
        as (w' & st' & news & Hloop & Hsucc & Hledger & Hother & Hstores & Hflag).
      exists w', st', news. split_and!.
      * done.
      * done.
      * by rewrite Hledger, Hf1, Hl1.
      * intros other Hne. by rewrite Hother, He1.
      * congruence.
      * congruence.
Qed.

Lemma fs_readdir_play events w : fs_readdir (play events w) = fs_readdir w.
Proof.
  revert w. induction events as [| e events IH]; intros w; [done |].
  rewrite play_cons, IH. by destruct e.
Qed.

Lemma listDocumentsInRagStore_frame ragStoreName w :
  let w' := (listDocumentsInRagStore ragStoreName w).1 in
  ai w' = ai w
  ∧ stores w' = stores w
  ∧ fs_write_fails w' = fs_write_fails w
  ∧ ledgerOf w' ragStoreName
    = (if fs_write_fails w then ledgerOf w ragStoreName
       else firstOccurrences (ledgerOf w ragStoreName))
  ∧ ∀ other, other ≠ ragStoreName → entryOf w' other = entryOf w other.
Proof.
  intros w'. unfold w'. rewrite listDocumentsInRagStore_run. cbn zeta.
  destruct (decide (NoDup (ledgerOf w ragStoreName))) as [Hnd | Hdup].
  - cbn [fst]. rewrite firstOccurrences_NoDup_id by done.
    split_and!; try done. by destruct (fs_write_fails w).
  - destruct (fs_write_fails w) eqn:Hw; cbn [fst].
    + by rewrite Hw.
    + split_and!; try done.
      * by rewrite ledgerOf_saved, lookup_insert_eq.
      * intros other Hne.
        exact (lookup_insert_ne (default ∅ (tracker_file w)) ragStoreName other _
                 (not_eq_sym Hne)).
Qed.

Lemma computeUploadSet_world ragStoreName allFilesArray resumeMode w :
  (computeUploadSet ragStoreName allFilesArray resumeMode w).1
  = if resumeMode then (listDocumentsInRagStore ragStoreName w).1 else w.
Proof.
  unfold computeUploadSet. destruct (dedupDirectory allFilesArray) as [m dups].
  destruct resumeMode; [| done]. unfold bind.
  destruct (listDocumentsInRagStore ragStoreName w) as [w1 [uploaded | e]] eqn:Hlist;
    [| done].
  by destruct (foldl _ _ _) as [[? ?] ?].
Qed.

(** The ledger and the rest of the world after a whole run that could
    write the ledger file. *)
Lemma uploadDirectoryToRagStore_ledger ragStoreName directoryPath onProgress resumeMode
    entries w :
  ai w = true →
  fs_readdir w directoryPath = Some entries →
  List.filter isSupported entries ≠ [] →
  fs_write_fails w = false →
  let supported := List.filter isSupported entries in
  ∃ w' runs,
    fr_file <$> runs = toUploadOf w ragStoreName supported resumeMode
    ∧ uploadDirectoryToRagStore ragStoreName directoryPath onProgress resumeMode w
      = (w', Ok {| successful := succeeded runs; failed := failures runs;
                   skipped := skippedOf w ragStoreName supported resumeMode |})
    ∧ ledgerOf w' ragStoreName
      = foldl JsSet.add
          (if resumeMode then firstOccurrences (ledgerOf w ragStoreName)
           else ledgerOf w ragStoreName) (succeeded runs)
    ∧ (∀ other, other ≠ ragStoreName → entryOf w' other = entryOf w other)
    ∧ stores w' = stores w
    ∧ ai w' = true
    ∧ fs_readdir w' = fs_readdir w
    ∧ fs_write_fails w' = false.
Proof.
  intros Hai Hdir Hsome Hw supported.
  destruct (uploadDirectoryToRagStore_run ragStoreName directoryPath onProgress resumeMode
              entries w Hai Hdir Hsome) as (saves & runs & _ & Hfiles & _ & Hrun).
  fold supported in Hfiles, Hrun.
  eexists _, runs. split; [exact Hfiles |]. split; [exact Hrun |].
  set (w1 := (computeUploadSet ragStoreName supported resumeMode w).1).
  assert (ai w1 = true ∧ stores w1 = stores w ∧ fs_write_fails w1 = false
          ∧ ledgerOf w1 ragStoreName
            = (if resumeMode then firstOccurrences (ledgerOf w ragStoreName)
               else ledgerOf w ragStoreName)
          ∧ ∀ other, other ≠ ragStoreName → entryOf w1 other = entryOf w other)
    as (Hai1 & Hs1 & Hf1 & Hl1 & He1).
  { unfold w1. rewrite computeUploadSet_world. destruct resumeMode; [| done].
    destruct (listDocumentsInRagStore_frame ragStoreName w) as (-> & -> & -> & -> & He).
    by rewrite Hw. }
  destruct (computeUploadSet_run ragStoreName supported resumeMode w)
    as (saves' & _ & Hplan).
  assert (play saves' w = w1) as Hw1 by (unfold w1; by rewrite Hplan).
  rewrite Hw1 in Hplan.
  set (toUpload := toUploadOf w ragStoreName supported resumeMode) in *.
  destruct (uploadLoop_ledger ragStoreName directoryPath onProgress (length toUpload)
              toUpload 0
              {| ls_successful := []; ls_failed := [];
                 ls_skipped := skippedOf w ragStoreName supported resumeMode;
                 uploadedInSession := [] |} w1 Hai1)
    as (w2 & st2 & news & Hloop & Hsucc & Hl2 & He2 & Hs2 & Hf2).
  assert (uploadDirectoryToRagStore ragStoreName directoryPath onProgress resumeMode w
          = (w2, Ok {| successful := ls_successful st2; failed := ls_failed st2;
                       skipped := ls_skipped st2 |})) as Hrun2.
  { unfold uploadDirectoryToRagStore, bind, require_ai, readdirSync.
    rewrite Hai, Hdir. fold supported.
    destruct supported as [| x l] eqn:Hfilter; [done |].
    cbn [length Nat.eqb]. rewrite Hplan. fold toUpload. by rewrite Hloop. }
  rewrite Hrun in Hrun2. injection Hrun2 as Hworld Hsuccessful _ _.
  rewrite Hworld. cbn [ls_successful app] in Hsucc.
  rewrite Hsuccessful, Hsucc. rewrite Hf1 in Hl2.
  split_and!.
  - by rewrite Hl2, Hl1.
  - intros other Hne. by rewrite He2, He1.
  - congruence.
  - by rewrite <- Hworld, ai_play.
  - by rewrite <- Hworld, fs_readdir_play.
  - congruence.
Qed.

Lemma filter_ext_elem {A} (P Q : A → Prop) `{∀ x, Decision (P x)} `{∀ x, Decision (Q x)}
    (l : list A) :
  (∀ x, x ∈ l → P x ↔ Q x) → filter P l = filter Q l.
Proof.
  induction l as [| x l IH]; intros Hext; [done |].
  rewrite !filter_cons.
  rewrite IH by (intros y Hy; apply Hext; by right).
  destruct (decide (P x)) as [HP | HP], (decide (Q x)) as [HQ | HQ]; try done.
  - apply Hext in HP; [done | left].
  - apply Hext in HQ; [done | left].
Qed.

Lemma succeeded_one r :
  succeeded [r] = match fr_error r with None => [fr_file r] | Some _ => [] end.
Proof. unfold succeeded. cbn. by destruct (fr_error r). Qed.

Lemma failures_one r :
  failures [r] = match fr_error r with None => [] | Some e => [(fr_file r, e)] end.
Proof. unfold failures. cbn. by destruct (fr_error r). Qed.

(** The files that failed are the attempted files that did not succeed,
    in order. *)
Lemma failures_filter (runs : list FileRun) :
  NoDup (fr_file <$> runs) →
  filter (λ f, f ∉ succeeded runs) (fr_file <$> runs) = (failures runs).*1.
Proof.
  induction runs as [| r runs IH]; intros Hnd; [done |].
  rewrite fmap_cons in Hnd. apply NoDup_cons in Hnd as [Hfresh Hnd].
  rewrite succeeded_cons, failures_cons, fmap_cons, fmap_app, succeeded_one, failures_one.
  rewrite filter_cons.
  assert (filter (λ f, f ∉ match fr_error r with None => [fr_file r] | Some _ => [] end
                            ++ succeeded runs) (fr_file <$> runs)
          = filter (λ f, f ∉ succeeded runs) (fr_file <$> runs)) as ->.
  { apply filter_ext_elem. intros f Hf. rewrite elem_of_app.
    split; [tauto |]. intros Hno [Hin | Hin]; [| done].
    destruct (fr_error r); [by apply elem_of_nil in Hin |].
    apply list_elem_of_singleton in Hin. congruence. }
  rewrite IH by done.
  destruct (fr_error r) as [e |]; cbn [app fmap list_fmap fst].
  - rewrite decide_True; [done |].
    intros Hin. by apply succeeded_files in Hin.
  - rewrite decide_False; [done |].
    intros Hno. apply Hno. left.
Qed.

End RunLedger.

(** X11.  The extension filter of the directory scan and the content-type
    table agree: a file passes the filter exactly when [getContentType]
    knows a type for it, so no file of a directory run falls back to
    ["application/octet-stream"] because of its own name. *)
Theorem supported_iff_typed {lib : NodeLib} (file : string) :
  isSupported file = true ↔ getContentType file ≠ "application/octet-stream".
Proof.
  unfold isSupported, getContentType, supportedExtensions.
  set (ext := toLowerCase (path_extname file)).
  rewrite includes_true.
  destruct (String.eqb_spec ext ".txt") as [-> | H1]; [split; [done | intros _; here] |].
  destruct (String.eqb_spec ext ".pdf") as [-> | H2]; [split; [done | intros _; here] |].
  destruct (String.eqb_spec ext ".doc") as [-> | H3]; [split; [done | intros _; here] |].
  destruct (String.eqb_spec ext ".docx") as [-> | H4]; [split; [done | intros _; here] |].
  destruct (String.eqb_spec ext ".md") as [-> | H5]; [split; [done | intros _; here] |].
  destruct (String.eqb_spec ext ".html") as [-> | H6]; [split; [done | intros _; here] |].
  destruct (String.eqb_spec ext ".json") as [-> | H7]; [split; [done | intros _; here] |].
  split; [| done]. rewrite !elem_of_cons, elem_of_nil. tauto.
Qed.

(** X12.  A directory that cannot be read, or that holds no file with a
    supported extension, makes [uploadDirectoryToRagStore] throw before
    anything is done: nothing is uploaded and, even in resume mode, the
    ledger is neither read for repair nor written. *)
Theorem empty_directory_is_an_error {lib : NodeLib} (ragStoreName directoryPath : string)
    (onProgress resumeMode : bool) (w : World) :
  ai w = true →
  (∀ entries, fs_readdir w directoryPath = Some entries →
              ∀ f, f ∈ entries → isSupported f = false) →
  uploadDirectoryToRagStore ragStoreName directoryPath onProgress resumeMode w
  = (w, Throw match fs_readdir w directoryPath with
              | Some _ => "No supported documents found in " +:+ directoryPath
              | None => "ENOENT: no such file or directory, scandir '"
                          +:+ directoryPath +:+ "'"
              end).
Proof.
  intros Hai Hnone. unfold uploadDirectoryToRagStore, bind, require_ai, readdirSync.
  rewrite Hai. destruct (fs_readdir w directoryPath) as [entries |]; [| done].
  assert (List.filter isSupported entries = []) as ->; [| done].
  specialize (Hnone entries eq_refl).
  induction entries as [| f entries IH]; [done |]. cbn [List.filter].
  rewrite (Hnone f) by left. apply IH. intros g Hg. apply Hnone. by right.
Qed.

Lemma binaries_unsupported :
  ∀ entries, fs_readdir (docsWorld ["notes.bin"; "Makefile"]) "docs" = Some entries →
             ∀ f, f ∈ entries → isSupported (lib := posix) f = false.
Proof.
  intros entries Heq. change (Some ["notes.bin"; "Makefile"] = Some entries) in Heq.
  injection Heq as <-. intros f Hf. rewrite !elem_of_cons in Hf.
  destruct Hf as [-> | [-> | Hf]]; [by vm_compute | by vm_compute |].
  by apply elem_of_nil in Hf.
Qed.

Lemma empty_directory_is_an_error_witness :
  uploadDirectoryToRagStore (lib := posix) "store" "docs" false true
    (docsWorld ["notes.bin"; "Makefile"])
  = (docsWorld ["notes.bin"; "Makefile"], Throw "No supported documents found in docs").
Proof.
  exact (empty_directory_is_an_error (lib := posix) "store" "docs" false true
           (docsWorld ["notes.bin"; "Makefile"]) eq_refl binaries_unsupported).
Defined.

(** X13.  After a directory run that could write the ledger file, the
    store's ledger holds what it held before and the files reported as
    successful, and nothing else; in resume mode it is the repaired old list
    followed by the successful files in upload order, without repeats.
    No other store's entry and no remote store is touched. *)
Theorem run_records_its_successes {lib : NodeLib} (ragStoreName directoryPath other : string)
    (onProgress resumeMode : bool) (entries : list string) (w : World) :
  ai w = true →
  fs_readdir w directoryPath = Some entries →
  List.filter isSupported entries ≠ [] →
  fs_write_fails w = false →
  ∃ w' result,
    uploadDirectoryToRagStore ragStoreName directoryPath onProgress resumeMode w
    = (w', Ok result)
    ∧ (∀ f, f ∈ ledgerOf w' ragStoreName
            ↔ f ∈ ledgerOf w ragStoreName ∨ f ∈ successful result)
    ∧ (resumeMode = true →
       ledgerOf w' ragStoreName
       = firstOccurrences (ledgerOf w ragStoreName) ++ successful result
       ∧ NoDup (ledgerOf w' ragStoreName))
    ∧ (resumeMode = false →
       ledgerOf w' ragStoreName
       = foldl JsSet.add (ledgerOf w ragStoreName) (successful result))
    ∧ (other ≠ ragStoreName → entryOf w' other = entryOf w other)
    ∧ stores w' = stores w.
Proof.
  intros Hai Hdir Hsome Hw.
  destruct (uploadDirectoryToRagStore_ledger ragStoreName directoryPath onProgress
              resumeMode entries w Hai Hdir Hsome Hw)
    as (w' & runs & Hfiles & Hrun & Hledger & Hother & Hstores & _).
  exists w'. eexists. split; [exact Hrun |]. cbn [successful].
  assert (NoDup (succeeded runs)) as Hnd.
  { pose proof (succeeded_failures_perm runs) as Hperm.
    assert (NoDup (succeeded runs ++ (failures runs).*1)) as Happ.
    { rewrite Hperm, Hfiles. apply toUploadOf_NoDup. }
    by apply NoDup_app in Happ as [? _]. }
  split_and!.
  - intros f. rewrite Hledger, elem_of_foldl_add.
    destruct resumeMode; [by rewrite elem_of_firstOccurrences | done].
  - intros ->. rewrite Hledger.
    assert (NoDup (firstOccurrences (ledgerOf w ragStoreName) ++ succeeded runs)) as Hall.
    { apply NoDup_app. split_and!; [apply firstOccurrences_NoDup | | done].
      intros f Hold Hnew. rewrite elem_of_firstOccurrences in Hold.
      apply succeeded_files in Hnew. rewrite Hfiles in Hnew.
      unfold toUploadOf in Hnew. apply list_elem_of_filter in Hnew as [Hno _].
      apply Hno. by split. }
    by rewrite foldl_add_fresh.
  - intros ->. exact Hledger.
  - apply Hother.
  - exact Hstores.
Qed.

Lemma run_records_its_successes_witness :
  ∃ w' result,
    uploadDirectoryToRagStore (lib := posix) "store" "docs" false true fiveDocsWorld
    = (w', Ok result)
    ∧ ledgerOf w' "store"
      = firstOccurrences (ledgerOf fiveDocsWorld "store") ++ successful result.
Proof.
  destruct (run_records_its_successes (lib := posix) "store" "docs" "other" false true
              ["d1.txt"; "d2.txt"; "d3.txt"; "d4.txt"; "d5.txt"] fiveDocsWorld
              eq_refl eq_refl fiveDocs_supported eq_refl)
    as (w' & result & Hrun & _ & Hresume & _).
  exists w', result. split; [exact Hrun |]. exact (proj1 (Hresume eq_refl)).
Defined.

(** X14.  A resume run that follows any run over the same directory
    attempts exactly the files the first run reported as failed and the
    ledger did not already hold, in the same order; after a resume run
    these are all the failed files.  If the first run had no failure,
    the second uploads nothing and skips every file. *)
Theorem resume_retries_the_failures {lib : NodeLib} (ragStoreName directoryPath : string)
    (onProgress onProgress' resumeMode : bool) (entries : list string) (w : World) :
  ai w = true →
  fs_readdir w directoryPath = Some entries →
  List.filter isSupported entries ≠ [] →
  fs_write_fails w = false →
  let supported := List.filter isSupported entries in
  ∃ w' result w'' result',
    uploadDirectoryToRagStore ragStoreName directoryPath onProgress resumeMode w
    = (w', Ok result)
    ∧ uploadDirectoryToRagStore ragStoreName directoryPath onProgress' true w'
      = (w'', Ok result')
    ∧ toUploadOf w' ragStoreName supported true
      = filter (λ f, f ∉ ledgerOf w ragStoreName) (failed result).*1
    ∧ (resumeMode = true → toUploadOf w' ragStoreName supported true = (failed result).*1)
    ∧ successful result' ++ (failed result').*1
      ≡ₚ filter (λ f, f ∉ ledgerOf w ragStoreName) (failed result).*1
    ∧ (failed result = [] →
       successful result' = [] ∧ failed result' = []
       ∧ skipped result' = repeatedOccurrences supported ++ firstOccurrences supported
       ∧ submissions w'' = submissions w').
Proof.
  intros Hai Hdir Hsome Hw supported.
  destruct (uploadDirectoryToRagStore_ledger ragStoreName directoryPath onProgress
              resumeMode entries w Hai Hdir Hsome Hw)
    as (w' & runs & Hfiles & Hrun & Hledger & _ & _ & Hai' & Hdir' & Hw').
  fold supported in Hfiles, Hrun.
  assert (∀ f, f ∈ ledgerOf w' ragStoreName
               ↔ f ∈ ledgerOf w ragStoreName ∨ f ∈ succeeded runs) as Hin.
  { intros f. rewrite Hledger, elem_of_foldl_add.
    destruct resumeMode; [by rewrite elem_of_firstOccurrences | done]. }
  assert (NoDup (fr_file <$> runs)) as Hnd by (rewrite Hfiles; apply toUploadOf_NoDup).
  assert (toUploadOf w' ragStoreName supported true
          = filter (λ f, f ∉ ledgerOf w ragStoreName) (failures runs).*1) as Hnext.
  { rewrite <- failures_filter, Hfiles by done. unfold toUploadOf.
    rewrite !list_filter_filter. apply filter_ext_elem. intros f _.
    rewrite Hin. destruct resumeMode; split; tauto. }
  destruct (uploadDirectoryToRagStore_run ragStoreName directoryPath onProgress' true
              entries w' Hai') as (saves & runs' & Hsaves & Hfiles' & _ & Hrun');
    [by rewrite Hdir' | done |].
  fold supported in Hfiles', Hrun'.
  eexists w', _, _, _. split; [exact Hrun |]. split; [exact Hrun' |].
  cbn [successful failed skipped]. split_and!.
  - exact Hnext.
  - intros ->. rewrite Hnext. apply filter_all. intros f Hf.
    apply list_elem_of_fmap in Hf as ([f' e] & -> & Hf). apply elem_of_failures in Hf
      as (r & Hr & Hname & _).
    assert (f' ∈ toUploadOf w ragStoreName supported true) as Hup.
    { rewrite <- Hfiles. apply list_elem_of_fmap. by exists r. }
    unfold toUploadOf in Hup. apply list_elem_of_filter in Hup as [Hno _].
    intros Hold. apply Hno. by split.
  - by rewrite succeeded_failures_perm, Hfiles', Hnext.
  - intros Hnone. rewrite Hnone in Hnext. cbn in Hnext. rewrite Hnext in Hfiles'.
    apply fmap_nil_inv in Hfiles'. subst runs'. split_and!; [done | done | |].
    + unfold skippedOf. f_equal. apply filter_all. intros f Hf. apply Hin.
      destruct (decide (f ∈ ledgerOf w ragStoreName)) as [Hold | Hnew]; [by left | right].
      assert (f ∈ fr_file <$> runs) as Hrun1.
      { rewrite Hfiles. unfold toUploadOf. apply list_elem_of_filter. split; [| done].
        intros [_ ?]. done. }
      pose proof (succeeded_failures_perm runs) as Hperm.
      rewrite <- Hperm, Hnone in Hrun1. by rewrite app_nil_r in Hrun1.
    + rewrite app_nil_r, submissions_play.
      assert (List.filter isSubmit saves = []) as ->; [| cbn; lia].
      clear -Hsaves. induction Hsaves as [| e saves He _ IH]; [done |].
      cbn. destruct e; try done.
Qed.

Lemma resume_retries_the_failures_witness :
  ∃ w' result,
    uploadDirectoryToRagStore (lib := posix) "store" "docs" false true fiveDocsWorld
    = (w', Ok result)
    ∧ toUploadOf w' "store"
        (List.filter (isSupported (lib := posix))
           ["d1.txt"; "d2.txt"; "d3.txt"; "d4.txt"; "d5.txt"]) true
      = (failed result).*1.
Proof.
  destruct (resume_retries_the_failures (lib := posix) "store" "docs" false false true
              ["d1.txt"; "d2.txt"; "d3.txt"; "d4.txt"; "d5.txt"] fiveDocsWorld
              eq_refl eq_refl fiveDocs_supported eq_refl)
    as (w' & result & w'' & result' & Hrun & _ & _ & Hresume & _).
  exists w', result. split; [exact Hrun |]. exact (Hresume eq_refl).
Defined.

(** ** The creation lock *)

Section CreationLock.

Implicit Types (calls : list LockCall) (c : LockCall).

Lemma lockRun_snoc calls c : lockRun (calls ++ [c]) = lockStep (lockRun calls) c.
Proof. unfold lockRun. by rewrite foldl_app. Qed.

Lemma acquires_snoc calls c :
  acquires (calls ++ [c])
  = acquires calls ++ match c with Acquire request => [request] | Release => [] end.
Proof. unfold acquires. rewrite omap_app. by destruct c. Qed.

Lemma releases_snoc calls c :
  releases (calls ++ [c])
  = releases calls + match c with Acquire _ => 0 | Release => 1 end.
Proof. unfold releases. rewrite List.filter_app, length_app. by destruct c. Qed.

Lemma disciplined_snoc calls c :
  disciplined (calls ++ [c]) →
  disciplined calls
  ∧ (c = Release → releases calls < length (lockRun calls).2).
Proof.
  intros Hd. split.
  - intros n Hn. pose proof (lookup_lt_Some _ _ _ Hn) as Hlt.
    specialize (Hd n). rewrite lookup_app_l, take_app_le in Hd by lia. by apply Hd.
  - intros ->. specialize (Hd (length calls)).
    rewrite list_lookup_middle, take_app_length in Hd by done. by apply Hd.
Qed.

(** What the lock state is after any disciplined sequence of calls. *)
Lemma lock_invariant calls :
  disciplined calls →
  let st := (lockRun calls).1 in
  let granted := (lockRun calls).2 in
  granted = take (S (releases calls)) (acquires calls)
  ∧ waitingRequests st = drop (S (releases calls)) (acquires calls)
  ∧ releases calls ≤ length granted
  ∧ (ragStoreCreationLock st = true ↔ releases calls < length granted).
Proof.
  induction calls as [| c calls IH] using rev_ind; intros Hd.
  - cbn. split_and!; [done | done | lia |]. split; [done | lia].
  - apply disciplined_snoc in Hd as [Hd Hrel].
    specialize (IH Hd). cbn zeta in IH. destruct IH as (Hg & Hw & Hle & Hlock).
    rewrite lockRun_snoc, acquires_snoc, releases_snoc.
    destruct (lockRun calls) as [st granted]. cbn [fst snd] in *.
    set (R := releases calls) in *. set (A := acquires calls) in *.
    assert (length granted = S R `min` length A) as Hlen by (by rewrite Hg, length_take).
    destruct c as [request |]; cbn [lockStep].
    + rewrite Nat.add_0_r. unfold acquireRagStoreLock.
      destruct (ragStoreCreationLock st) eqn:Hl; cbn [negb fst snd].
      * assert (R < length granted) as Hlt by (by apply Hlock).
        rewrite app_nil_r, take_app_le, drop_app_le by lia.
        split_and!; [done | by rewrite Hw | done | done].
      * assert (¬ R < length granted) as Hge by (intros ?; by apply Hlock in H).
        assert (length A ≤ R) as HA by lia.
        rewrite (take_ge A) in Hg by lia. subst granted.
        rewrite take_ge, drop_ge by (rewrite length_app; cbn; lia).
        rewrite (drop_ge A) in Hw by lia.
        rewrite length_app. cbn. split_and!; [done | done | lia |]. split; [lia | done].
    + specialize (Hrel eq_refl). rewrite app_nil_r.
      assert (R < length A) as HA by lia.
      unfold releaseRagStoreLock. rewrite Hw.
      destruct (drop (S R) A) as [| next rest] eqn:Hdrop; cbn [fst snd].
      * assert (length A ≤ S R) as Hall.
        { apply (f_equal length) in Hdrop. rewrite length_drop in Hdrop. cbn in Hdrop. lia. }
        rewrite app_nil_r, Hg, !take_ge, drop_ge by lia.
        split_and!; [done | done | lia |]. split; [done | lia].
      * assert (A !! S R = Some next) as Hnext.
        { rewrite <- (Nat.add_0_r (S R)), <- lookup_drop, Hdrop. done. }
        rewrite Nat.add_1_r, (take_S_r A (S R) next Hnext), <- Hg.
        assert (drop (S (S R)) A = rest) as ->.
        { replace (S (S R)) with (S R + 1) by lia. by rewrite <- drop_drop, Hdrop. }
        rewrite length_app. cbn. split_and!; [done | done | lia |].
        split; [lia |]. intros _. apply Hlock. lia.
Qed.

End CreationLock.

(** X15.  Under the handler's discipline (a release only by a request
    that holds the lock), the creation lock is granted in arrival order:
    after any sequence of calls the requests granted so far are the first
    [releases + 1] that asked, the others wait in arrival order, at most one
    request holds the lock, and the flag is set exactly when one does. *)
Theorem lock_grants_in_arrival_order (calls : list LockCall) :
  disciplined calls →
  let st := (lockRun calls).1 in
  let granted := (lockRun calls).2 in
  granted = take (S (releases calls)) (acquires calls)
  ∧ waitingRequests st = drop (S (releases calls)) (acquires calls)
  ∧ length granted - releases calls ≤ 1
  ∧ (ragStoreCreationLock st = true ↔ length granted - releases calls = 1)
  ∧ (waitingRequests st ≠ [] → ragStoreCreationLock st = true).
Proof.
  intros Hd st granted.
  destruct (lock_invariant calls Hd) as (Hg & Hw & Hle & Hlock).
  fold st in Hw, Hlock. fold granted in Hg, Hle, Hlock.
  assert (length granted ≤ S (releases calls)) as Hlen.
  { rewrite Hg, length_take. lia. }
  split_and!; [done | done | lia | |].
  - rewrite Hlock. lia.
  - intros Hwait. apply Hlock.
    destruct (decide (releases calls < length granted)) as [| Hno]; [done |].
    exfalso. apply Hwait. rewrite Hw. apply drop_ge.
    rewrite Hg, length_take in Hno. lia.
Qed.

Lemma two_handlers_disciplined :
  disciplined [Acquire 1; Acquire 2; Release; Acquire 3; Release].
Proof.
  intros n Hn.
  destruct n as [| [| [| [| [| n]]]]]; try discriminate Hn; vm_compute; lia.
Qed.

Lemma lock_grants_in_arrival_order_witness :
  (lockRun [Acquire 1; Acquire 2; Release; Acquire 3; Release]).2 = [1; 2; 3]
  ∧ waitingRequests (lockRun [Acquire 1; Acquire 2; Release; Acquire 3; Release]).1 = [].
Proof.
  destruct (lock_grants_in_arrival_order _ two_handlers_disciplined) as (Hg & Hw & _).
  split; [exact Hg | exact Hw].
Defined.

(** ** The ledger reports *)

Section Reports.

Lemma verify_fold (l : list string) :
  foldl verifyStep ([], []) l = (firstOccurrences l, repeatedOccurrences l).
Proof.
  induction l as [| x l IH] using rev_ind; [done |].
  rewrite foldl_app, IH. cbn [foldl verifyStep].
  rewrite firstOccurrences_snoc, repeatedOccurrences_snoc.
  destruct (decide (x ∈ l)) as [Hin | Hout].
  - rewrite (proj2 (has_true _ _)) by (by apply elem_of_firstOccurrences).
    by rewrite app_nil_r.
  - rewrite (proj2 (has_false _ _)) by (by rewrite elem_of_firstOccurrences).
    rewrite add_absent by (by rewrite elem_of_firstOccurrences).
    by rewrite app_nil_r.
Qed.

Lemma analysis_fold (l : list string) :
  foldl analysisStep ([], []) l
  = (firstOccurrences l, firstOccurrences (repeatedOccurrences l)).
Proof.
  induction l as [| x l IH] using rev_ind; [done |].
  rewrite foldl_app, IH. cbn [foldl analysisStep].
  rewrite firstOccurrences_snoc, repeatedOccurrences_snoc.
  destruct (decide (x ∈ l)) as [Hin | Hout].
  - rewrite (proj2 (has_true _ _)) by (by apply elem_of_firstOccurrences).
    rewrite firstOccurrences_snoc, app_nil_r.
    destruct (decide (x ∈ repeatedOccurrences l)) as [Hrep | Hnew].
    + rewrite (proj2 (includes_true _ _)) by (by apply elem_of_firstOccurrences).
      by rewrite app_nil_r.
    + rewrite (proj2 (includes_false _ _)) by (by rewrite elem_of_firstOccurrences).
      done.
  - rewrite (proj2 (has_false _ _)) by (by rewrite elem_of_firstOccurrences).
    rewrite add_absent by (by rewrite elem_of_firstOccurrences).
    by rewrite !app_nil_r.
Qed.

Lemma firstOccurrences_length (l : list string) : length (firstOccurrences l) ≤ length l.
Proof. pose proof (first_repeated_length l). lia. Qed.

Lemma firstOccurrences_full (l : list string) :
  length (firstOccurrences l) = length l ↔ NoDup l.
Proof.
  rewrite <- repeatedOccurrences_nil_NoDup. pose proof (first_repeated_length l).
  destruct (repeatedOccurrences l); cbn in *; split; try done; lia.
Qed.

End Reports.

(** X16.  The verify endpoint reads the ledger without changing it and
    reports the list length, the number of distinct names, every repeated
    occurrence as a duplicate (so that unique + duplicates = total), no
    duplicates exactly when no name is held twice, and the distinct names
    sorted.  Its three counts are the ones the repair endpoint then
    reports as before, after and removed, for a store that has a ledger
    entry or whose name the ledger object inherits no value for; for a
    name with an inherited value and no entry the verify endpoint reports
    an empty list and the repair throws. *)
Theorem verify_reports_the_ledger (sortStrings : list string → list string)
    (ragStoreName : string) (w : World) :
  let files := ledgerOf w ragStoreName in
  ∃ report,
    verifyHandler sortStrings ragStoreName w = (w, Ok report)
    ∧ totalTrackedEntries report = length files
    ∧ vr_duplicateFiles report = repeatedOccurrences files
    ∧ allFilenames report = sortStrings (firstOccurrences files)
    ∧ vr_uniqueFiles report + vr_duplicateCount report = totalTrackedEntries report
    ∧ (vr_hasDuplicates report = false ↔ NoDup files)
    ∧ (shadowed w ragStoreName = false →
       (deduplicateTrackerEntries ragStoreName w).2
       = Ok {| before := totalTrackedEntries report; after := vr_uniqueFiles report;
               duplicatesRemoved := vr_duplicateCount report |})
    ∧ (shadowed w ragStoreName = true →
       totalTrackedEntries report = 0
       ∧ deduplicateTrackerEntries ragStoreName w = (w, Throw (readOfUndefined "length"))).
Proof.
  intros files. unfold verifyHandler, getUploadedFilesList. run.
  fold (ledgerOf w ragStoreName). fold files. rewrite verify_fold.
  eexists. split; [reflexivity |].
  cbn [totalTrackedEntries vr_duplicateFiles allFilenames vr_uniqueFiles vr_duplicateCount
       vr_hasDuplicates].
  unfold JsSet.size. pose proof (first_repeated_length files) as Hlen.
  split_and!; try done.
  - rewrite <- repeatedOccurrences_nil_NoDup. by destruct (repeatedOccurrences files).
  - clear Hlen. unfold files, shadowed. rewrite ledgerOf_entryOf.
    fold (entryOf w ragStoreName).
    destruct (entryOf w ragStoreName) as [entry |] eqn:Hentry.
    + intros _. by rewrite (deduplicateTrackerEntries_run _ _ _ Hentry).
    + intros Hown. by rewrite (deduplicateTrackerEntries_absent _ _ Hentry), Hown.
  - clear Hlen. intros Hs. unfold files. rewrite (shadowed_absent _ _ Hs).
    split; [done |]. unfold shadowed in Hs. fold (entryOf w ragStoreName) in Hs.
    destruct (entryOf w ragStoreName) as [entry |] eqn:Hentry; [done |].
    by rewrite (deduplicateTrackerEntries_absent _ _ Hentry), Hs.
Qed.

(** X17.  The tracker endpoint returns the ledger unchanged with one
    analysis per entry.  An analysis lists each repeated name once, so
    its duplicate count is at most total - unique, with equality exactly
    when no name is held three times; it never exceeds the duplicate
    count of the verify endpoint, and both endpoints agree on whether
    there are duplicates. *)
Theorem tracker_analysis_counts_names (sortStrings : list string → list string)
    (ragStoreName : string) (data : TrackerEntry) (w : World) :
  entryOf w ragStoreName = Some data →
  let files := uploadedFiles data in
  ∃ analysis report,
    uploadTrackerHandler w = (w, Ok (default ∅ (tracker_file w), analysis))
    ∧ analysis !! ragStoreName = Some (analyse data)
    ∧ (verifyHandler sortStrings ragStoreName w).2 = Ok report
    ∧ totalEntries (analyse data) = length files
    ∧ ta_uniqueFiles (analyse data) = vr_uniqueFiles report
    ∧ ta_duplicateFiles (analyse data) = firstOccurrences (repeatedOccurrences files)
    ∧ NoDup (ta_duplicateFiles (analyse data))
    ∧ ta_duplicateCount (analyse data) ≤ vr_duplicateCount report
    ∧ (ta_duplicateCount (analyse data) = vr_duplicateCount report
       ↔ NoDup (repeatedOccurrences files))
    ∧ ta_hasDuplicates (analyse data) = vr_hasDuplicates report
    ∧ (ta_hasDuplicates (analyse data) = true ↔ ¬ NoDup files).
Proof.
  intros Hentry files.
  assert (ledgerOf w ragStoreName = files) as Hledger
    by (by rewrite ledgerOf_entryOf, Hentry).
  assert (analyse data
          = {| totalEntries := length files;
               ta_uniqueFiles := length (firstOccurrences files);
               ta_hasDuplicates :=
                 (0 <? length (firstOccurrences (repeatedOccurrences files)))%nat;
               ta_duplicateCount := length (firstOccurrences (repeatedOccurrences files));
               ta_duplicateFiles := firstOccurrences (repeatedOccurrences files);
               ta_lastUpdate := lastUpdate data |}) as ->.
  { unfold analyse. fold files. rewrite analysis_fold, of_array_firstOccurrences. done. }
  eexists _, _. split_and!.
  - unfold uploadTrackerHandler, getUploadTrackerContents. run. reflexivity.
  - rewrite lookup_fmap. fold (entryOf w ragStoreName). rewrite Hentry. cbn.
    unfold analyse. fold files. by rewrite analysis_fold, of_array_firstOccurrences.
  - unfold verifyHandler, getUploadedFilesList. run.
    fold (ledgerOf w ragStoreName). rewrite Hledger, verify_fold. reflexivity.
  - done.
  - done.
  - done.
  - apply firstOccurrences_NoDup.
  - apply firstOccurrences_length.
  - apply firstOccurrences_full.
  - cbn. pose proof (elem_of_firstOccurrences (repeatedOccurrences files)) as Hsame.
    destruct (repeatedOccurrences files) as [| x l] eqn:Hrep; [done |].
    destruct (firstOccurrences (x :: l)) as [| y l'] eqn:Hfirst; [| done].
    exfalso. apply (not_elem_of_nil x), Hsame. left.
  - cbn. rewrite <- repeatedOccurrences_nil_NoDup.
    pose proof (elem_of_firstOccurrences (repeatedOccurrences files)) as Hsame.
    destruct (repeatedOccurrences files) as [| x l] eqn:Hrep.
    + split; [done | intros Hno; by destruct Hno].
    + destruct (firstOccurrences (x :: l)) as [| y l'] eqn:Hfirst; [| done].
      exfalso. apply (not_elem_of_nil x), Hsame. left.
Qed.

Lemma legacyWorld_entry :
  entryOf legacyWorld "store"
  = Some {| uploadedFiles := ["a.txt"; "b.txt"; "a.txt"]; lastUpdate := 0 |}.
Proof. reflexivity. Qed.

Lemma tracker_analysis_counts_names_witness :
  ta_duplicateFiles (analyse {| uploadedFiles := ["a.txt"; "b.txt"; "a.txt"];
                                lastUpdate := 0 |})
  = firstOccurrences (repeatedOccurrences ["a.txt"; "b.txt"; "a.txt"]).
Proof.
  destruct (tracker_analysis_counts_names (λ l, l) "store" _ legacyWorld legacyWorld_entry)
    as (analysis & report & _ & _ & _ & _ & _ & Hdup & _).
  exact Hdup.
Defined.

(** ** Progress callbacks and submissions of a run *)

Section RunTrace.

Context {lib : NodeLib}.

Lemma no_progress_in_uploads (events : list Event) :
  Forall (λ e, isUploaderEvent e = true) events → List.filter isProgress events = [].
Proof.
  induction 1 as [| e events He _ IH]; [done |]. cbn. rewrite IH. by destruct e.
Qed.

Lemma no_progress_in_saves (events : list Event) :
  Forall (λ e, isSave e = true) events → List.filter isProgress events = [].
Proof.
  induction 1 as [| e events He _ IH]; [done |]. cbn. rewrite IH. by destruct e.
Qed.

Lemma goodRun_saves w ragStoreName directoryPath r :
  goodRun w ragStoreName directoryPath r → Forall (λ e, isSave e = true) (fr_saves r).
Proof.
  intros (_ & _ & Hsaves & _). destruct (fr_error r).
  - destruct Hsaves as [-> _]. apply Forall_nil_2.
  - destruct Hsaves as [-> | (tracker & entry & -> & _)]; by repeat constructor.
Qed.

Lemma progress_of_loop w ragStoreName directoryPath onProgress total runs :
  Forall (goodRun w ragStoreName directoryPath) runs →
  ∀ i,
    List.filter isProgress (loopEvents onProgress total i runs)
    = if onProgress
      then imap (λ k f, EvProgress (i + k + 1) total f) (fr_file <$> runs)
      else [].
Proof.
  induction 1 as [| r runs Hgood _ IH]; intros i; [by destruct onProgress |].
  cbn [loopEvents]. unfold turnEvents. rewrite !List.filter_app, IH.
  rewrite (no_progress_in_uploads (fr_upload r)) by apply Hgood.
  rewrite (no_progress_in_saves (fr_saves r)) by (by eapply goodRun_saves).
  destruct onProgress; [| done]. cbn [progressEvents List.filter isProgress app].
  rewrite fmap_cons, imap_cons, Nat.add_0_r. f_equal.
  apply imap_ext. intros k f _. cbn. f_equal. lia.
Qed.

End RunTrace.

(** X18.  The progress callback of a directory run is called once for
    every file of the upload set, in order, with the positions 1, 2, ...
    and the size of the upload set as total; skipped files and retries
    cause no call. *)
Theorem progress_counts_up {lib : NodeLib} (ragStoreName directoryPath : string)
    (onProgress resumeMode : bool) (entries : list string) (w : World) :
  ai w = true →
  fs_readdir w directoryPath = Some entries →
  List.filter isSupported entries ≠ [] →
  let toUpload := toUploadOf w ragStoreName (List.filter isSupported entries) resumeMode in
  let w' := (uploadDirectoryToRagStore ragStoreName directoryPath onProgress resumeMode w).1 in
  List.filter isProgress (trace w')
  = List.filter isProgress (trace w)
    ++ (if onProgress
        then imap (λ k f, EvProgress (S k) (length toUpload) f) toUpload
        else []).
Proof.
  intros Hai Hdir Hsome toUpload w'.
  destruct (uploadDirectoryToRagStore_run ragStoreName directoryPath onProgress resumeMode
              entries w Hai Hdir Hsome) as (saves & runs & Hsaves & Hfiles & Hgood & Hrun).
  fold toUpload in Hfiles, Hrun. unfold w'. rewrite Hrun. cbn [fst].
  rewrite trace_play, !List.filter_app, (no_progress_in_saves saves Hsaves).
  rewrite (progress_of_loop _ _ _ _ _ _ Hgood), Hfiles. cbn [app]. f_equal.
  destruct onProgress; [| done]. apply imap_ext. intros k f _. cbn. f_equal. lia.
Qed.

Lemma progress_counts_up_witness :
  List.filter isProgress
    (trace (uploadDirectoryToRagStore (lib := posix) "store" "docs" true false
              fiveDocsWorld).1)
  = List.filter isProgress (trace fiveDocsWorld)
    ++ imap (λ k f, EvProgress (S k)
                      (length (toUploadOf fiveDocsWorld "store"
                                 (List.filter (isSupported (lib := posix))
                                    ["d1.txt"; "d2.txt"; "d3.txt"; "d4.txt"; "d5.txt"])
                                 false)) f)
        (toUploadOf fiveDocsWorld "store"
           (List.filter (isSupported (lib := posix))
              ["d1.txt"; "d2.txt"; "d3.txt"; "d4.txt"; "d5.txt"]) false).
Proof.
  exact (progress_counts_up (lib := posix) "store" "docs" true false
           ["d1.txt"; "d2.txt"; "d3.txt"; "d4.txt"; "d5.txt"] fiveDocsWorld
           eq_refl eq_refl fiveDocs_supported).
Defined.

(** ** Deleting the canonical store and asking again *)

Section Recreate.

Lemma matching_NoDup display (l : list Store) :
  NoDup (name <$> l) → NoDup (name <$> matching display l).
Proof.
  unfold matching. induction l as [| s l IH]; intros Hnd; [done |].
  rewrite fmap_cons in Hnd. apply NoDup_cons in Hnd as [Hfresh Hnd].
  cbn [List.filter]. destruct (String.eqb (displayName s) display); [| by apply IH].
  rewrite fmap_cons. apply NoDup_cons. split; [| by apply IH].
  intros Hin. apply Hfresh. apply list_elem_of_fmap in Hin as (t & -> & Ht).
  apply elem_of_List_filter in Ht as [Ht _]. apply list_elem_of_fmap. by exists t.
Qed.

Lemma deleteRagStore_world n w :
  ai w = true → delete_fails w n = false →
  let w1 := (deleteRagStore n w).1 in
  (deleteRagStore n w).2 = Ok tt
  ∧ stores w1 = List.filter (λ s, negb (String.eqb (name s) n)) (stores w)
  ∧ ai w1 = ai w ∧ list_fails w1 = list_fails w ∧ create_fails w1 = create_fails w
  ∧ delete_fails w1 = delete_fails w ∧ mint w1 = mint w ∧ minted w1 = minted w.
Proof.
  intros Hai Hdel w1. unfold w1. rewrite deleteRagStore_accepted by done.
  by destruct (fs_write_fails w).
Qed.

End Recreate.

(** X19.  Deleting the store that [getRagStoreByDisplayName] returns and
    then calling [getOrCreateRagStore], as a forced reload does, gives a
    newly created store only if that store was the only one with the
    display name.  If there were others, one of them is returned as an
    existing store. *)
Theorem delete_then_get_or_create (display : string) (first : Store) (rest : list Store)
    (w : World) :
  serviceUp w →
  NoDup (name <$> stores w) →
  matching display (stores w) = first :: rest →
  let best := foldl moreDocuments first rest in
  let w1 := (deleteRagStore (name best) w).1 in
  getRagStoreByDisplayName display w = (w, Ok (Some (name best)))
  ∧ (deleteRagStore (name best) w).2 = Ok tt
  ∧ matching display (stores w1) = duplicatesOf best (first :: rest)
  ∧ (rest = [] → (getOrCreateRagStore display w1).2 = Ok (mint w (minted w), true))
  ∧ (rest ≠ [] →
     ∃ old, old ∈ first :: rest ∧ name old ≠ name best
            ∧ (getOrCreateRagStore display w1).2 = Ok (name old, false)).
Proof.
  intros Hup Hnd Hmatch best w1.
  pose proof Hup as (Hai & Hlist & Hcreate & Hdel & Hmint).
  destruct (deleteRagStore_world (name best) w Hai (Hdel _))
    as (Hok & Hstores & Hai1 & Hlist1 & Hcreate1 & Hdel1 & Hmint1 & Hminted1).
  fold w1 in Hstores, Hai1, Hlist1, Hcreate1, Hdel1, Hmint1, Hminted1.
  assert (serviceUp w1) as Hup1.
  { unfold serviceUp. rewrite Hai1, Hlist1, Hcreate1, Hdel1, Hmint1. done. }
  assert (best ∈ first :: rest) as Hbest
    by apply first_max_elem, moreDocuments_first_max.
  assert (matching display (stores w1) = duplicatesOf best (first :: rest)) as Hleft.
  { rewrite Hstores, <- Hmatch. unfold matching, duplicatesOf.
    rewrite !List_filter_filter. apply List_filter_ext_in. intros s _. apply andb_comm. }
  assert (NoDup (name <$> first :: rest)) as Hnames
    by (rewrite <- Hmatch; by apply matching_NoDup).
  split_and!.
  - rewrite getRagStoreByDisplayName_run by done. by rewrite Hmatch.
  - exact Hok.
  - exact Hleft.
  - intros ->. cbn [foldl] in best. subst best.
    assert (matching display (stores w1) = []) as Hnone.
    { rewrite Hleft. unfold duplicatesOf. cbn [List.filter]. by rewrite String.eqb_refl. }
    destruct (getOrCreateRagStore_none display w1 Hup1 Hnone) as [Hrun _].
    rewrite Hrun. cbn [snd name]. by rewrite Hmint1, Hminted1.
  - intros Hrest.
    assert (∃ other, other ∈ duplicatesOf best (first :: rest)) as [other Hother].
    { destruct rest as [| second rest']; [done |].
      destruct (decide (name first = name best)) as [Hsame | Hdiff].
      - exists second. apply elem_of_duplicatesOf. split; [right; left |].
        rewrite <- Hsame. rewrite !fmap_cons in Hnames.
        apply NoDup_cons in Hnames as [Hfresh _]. intros Heq. apply Hfresh.
        rewrite <- Heq. left.
      - exists first. apply elem_of_duplicatesOf. split; [left | done]. }
    destruct (duplicatesOf best (first :: rest)) as [| d ds] eqn:Hdups;
      [by apply elem_of_nil in Hother |].
    assert (∀ s, s ∈ d :: ds → s ∈ first :: rest ∧ name s ≠ name best) as Hsub.
    { intros s Hs. rewrite <- Hdups in Hs. by apply elem_of_duplicatesOf in Hs. }
    destruct ds as [| d2 ds].
    + exists d. destruct (Hsub d) as [Hin Hne]; [left |]. split_and!; [done | done |].
      by rewrite (getOrCreateRagStore_one display d w1 Hup1 Hleft).
    + exists (foldl moreDocuments d (d2 :: ds)).
      destruct (Hsub (foldl moreDocuments d (d2 :: ds))) as [Hin Hne].
      { apply first_max_elem, moreDocuments_first_max. }
      split_and!; [done | done |].
      destruct (getOrCreateRagStore_many display d d2 ds w1 Hup1 Hleft) as (Hrun & _).
      by rewrite Hrun.
Qed.

Lemma delete_then_get_or_create_witness :
  ∃ old, old ∈ corpusA :: [corpusB; corpusC]
         ∧ name old ≠ name (foldl moreDocuments corpusA [corpusB; corpusC])
         ∧ (getOrCreateRagStore "corpus"
              (deleteRagStore (name (foldl moreDocuments corpusA [corpusB; corpusC]))
                 tripleWorld).1).2
           = Ok (name old, false).
Proof.
  exact (proj2 (proj2 (proj2 (proj2
    (delete_then_get_or_create "corpus" corpusA [corpusB; corpusC] tripleWorld
       tripleWorld_up tripleWorld_names eq_refl)))) stubbornWorld_rest).
Defined.

(** ** What a run submits *)

Section Submissions.

Context {lib : NodeLib}.

Lemma attemptEvents_submission ragStoreName filePath onProgress readable i :
  Forall (λ e, isSubmit e = true → e = submissionOf ragStoreName filePath)
    (attemptEvents ragStoreName filePath (path_basename filePath) onProgress readable i).
Proof.
  unfold attemptEvents. rewrite !Forall_app. split_and!.
  - destruct onProgress; [| apply Forall_nil_2].
    apply Forall_singleton. intros Hs. discriminate Hs.
  - apply Forall_singleton. intros Hs. discriminate Hs.
  - destruct readable; [| apply Forall_nil_2]. rewrite !Forall_app. split_and!.
    + apply Forall_singleton. intros _. reflexivity.
    + unfold pollRounds. induction (pollCount i) as [| k IH]; [apply Forall_nil_2 |].
      cbn. apply Forall_cons. split; [intros Hs; discriminate Hs |].
      apply Forall_cons. split; [intros Hs; discriminate Hs | exact IH].
    + destruct (ingestionFails i); [apply Forall_nil_2 |].
      apply Forall_singleton. intros Hs. discriminate Hs.
Qed.

Lemma retryLoop_submissions ragStoreName filePath onProgress remaining :
  ∀ attempt w,
    ∃ events r,
      retryLoop ragStoreName filePath (path_basename filePath) onProgress remaining attempt w
      = (play events w, r)
      ∧ Forall (λ e, isSubmit e = true → e = submissionOf ragStoreName filePath) events
      ∧ length (List.filter isSubmit events) ≤ remaining.
Proof.
  induction remaining as [| remaining IH]; intros attempt w.
  - exists [], (Ok tt). split_and!; [done | apply Forall_nil_2 | done].
  - pose proof (attemptEvents_submission ragStoreName filePath onProgress
                  (fs_readable w filePath)
                  (scriptOf w filePath (path_basename filePath) 0)) as Hsub.
    fold (attemptEventsAt w ragStoreName filePath (path_basename filePath) onProgress 0)
      in Hsub.
    pose proof (submits_attempt w ragStoreName filePath (path_basename filePath) onProgress)
      as Hone.
    destruct (attemptFails_dec w filePath (path_basename filePath) 0) as [Hfail | Hok].
    + destruct (decide (attempt = maxRetries - 1)) as [-> | Hnotlast].
      * eexists _, _. split; [by apply retryLoop_gives_up |]. split; [done | lia].
      * rewrite retryLoop_backs_off by done.
        destruct (IH (S attempt)
                    (play (attemptEventsAt w ragStoreName filePath (path_basename filePath)
                             onProgress 0 ++ [EvDelay (backoff attempt)]) w))
          as (events & r & Hrun & Hall & Hcount).
        eexists _, r. split; [by rewrite Hrun, <- play_app |]. split.
        -- rewrite !Forall_app. split_and!; [done | by repeat constructor | done].
        -- rewrite !List.filter_app, !length_app. cbn. lia.
    + eexists _, _. split; [by apply retryLoop_succeeds |]. split; [done | lia].
Qed.

Lemma saves_no_submit (events : list Event) :
  Forall (λ e, isSave e = true) events → Forall (λ e, isSubmit e = false) events.
Proof. intros Hall. eapply Forall_impl; [exact Hall |]. intros e He. by destruct e. Qed.

Lemma no_submit_filter (events : list Event) :
  Forall (λ e, isSubmit e = false) events → List.filter isSubmit events = [].
Proof. induction 1 as [| e events He _ IH]; [done |]. cbn. by rewrite He. Qed.

(** The submissions of the upload loop: only files of the loop, each to
    the given store, at most [maxRetries] times the number of files. *)
Lemma uploadLoop_submissions ragStoreName directoryPath onProgress total files :
  ∀ i st w,
    ai w = true →
    ∃ events st',
      uploadLoop ragStoreName directoryPath onProgress total i files st w
      = (play events w, Ok st')
      ∧ Forall (λ e, isSubmit e = true →
                     ∃ f, f ∈ files
                          ∧ e = submissionOf ragStoreName (path_join directoryPath f)) events
      ∧ length (List.filter isSubmit events) ≤ maxRetries * length files.
Proof.
  induction files as [| fileName rest IH]; intros i st w Hai.
  - exists [], st. split_and!; [done | apply Forall_nil_2 | done].
  - assert (∀ events,
              Forall (λ e, isSubmit e = true →
                           ∃ f, f ∈ rest
                                ∧ e = submissionOf ragStoreName (path_join directoryPath f))
                events →
              Forall (λ e, isSubmit e = true →
                           ∃ f, f ∈ fileName :: rest
                                ∧ e = submissionOf ragStoreName (path_join directoryPath f))
                events) as Hweaken.
    { intros events Hall. eapply Forall_impl; [exact Hall |]. intros e He Hs.
      destruct (He Hs) as (f & Hf & ->). exists f. split; [by right | done]. }
    cbn [uploadLoop]. destruct (JsSet.has (uploadedInSession st) fileName).
    { destruct (IH (S i) {| ls_successful := ls_successful st; ls_failed := ls_failed st;
                            ls_skipped := ls_skipped st ++ [fileName];
                            uploadedInSession := uploadedInSession st |} w Hai)
        as (events & st' & Hrun & Hall & Hcount).
      exists events, st'. split_and!; [done | by apply Hweaken | cbn [length]; lia]. }
    set (filePath := path_join directoryPath fileName).
    set (w0 := play (progressEvents onProgress (i + 1) total fileName) w).
    assert ((if onProgress then perform (EvProgress (i + 1) total fileName) else ret tt) w
            = (w0, Ok tt)) as Hprogress by (unfold w0; by destruct onProgress).
    assert (ai w0 = true) as Hai0 by (unfold w0; by rewrite ai_play).
    destruct (retryLoop_submissions ragStoreName filePath false maxRetries 0 w0)
      as (upload & res & Hretry & Hup & Hupcount).
    assert (uploadFileToRagStore ragStoreName filePath false w0 = (play upload w0, res))
      as Hrun.
    { unfold uploadFileToRagStore, bind, require_ai. by rewrite Hai0. }
    assert (Forall (λ e, isSubmit e = true →
                         ∃ f, f ∈ fileName :: rest
                              ∧ e = submissionOf ragStoreName (path_join directoryPath f))
              (progressEvents onProgress (i + 1) total fileName ++ upload)) as Hturn.
    { apply Forall_app. split.
      - destruct onProgress; by repeat constructor.
      - eapply Forall_impl; [exact Hup |]. intros e He Hs. exists fileName.
        split; [left | by apply He]. }
    assert (length (List.filter isSubmit
                      (progressEvents onProgress (i + 1) total fileName ++ upload))
            ≤ maxRetries) as Hturncount.
    { rewrite List.filter_app, length_app. by destruct onProgress. }
    unfold bind at 1, try_catch. unfold bind at 1. rewrite Hprogress.
    unfold bind at 1. rewrite Hrun.
    destruct res as [[] | message].
    + destruct (addUploadedFile_events ragStoreName fileName (play upload w0))
        as [(saves & Hadd & Hrec) | [_ Hadd]].
      * assert (Forall (λ e, isSubmit e = false) saves) as Hsaves.
        { destruct Hrec as [-> | (tracker & entry & -> & _)]; by repeat constructor. }
        unfold bind at 1. rewrite Hadd. unfold ret.
        destruct (IH (S i)
                    {| ls_successful := ls_successful st ++ [fileName];
                       ls_failed := ls_failed st; ls_skipped := ls_skipped st;
                       uploadedInSession := JsSet.add (uploadedInSession st) fileName |}
                    (play saves (play upload w0)))
          as (events & st' & Hloop & Hall & Hcount); [by rewrite !ai_play |].
        exists ((progressEvents onProgress (i + 1) total fileName ++ upload) ++ saves ++ events),
          st'.
        split_and!.
        -- rewrite Hloop. unfold w0. by rewrite !play_app.
        -- apply Forall_app. split; [exact Hturn |].
           apply Forall_app. split; [| by apply Hweaken].
           eapply Forall_impl; [exact Hsaves |]. intros e He Hs. congruence.
        -- rewrite !List.filter_app, !length_app in *.
           rewrite (no_submit_filter saves Hsaves). cbn [length]. lia.
      * unfold bind at 1. rewrite Hadd. unfold ret.
        destruct (IH (S i)
                    {| ls_successful := ls_successful st;
                       ls_failed := ls_failed st ++ [(fileName, readOfUndefined "includes")];
                       ls_skipped := ls_skipped st;
                       uploadedInSession := uploadedInSession st |} (play upload w0))
          as (events & st' & Hloop & Hall & Hcount); [by rewrite ai_play |].
        exists ((progressEvents onProgress (i + 1) total fileName ++ upload) ++ events), st'.
        split_and!.
        -- rewrite Hloop. unfold w0. by rewrite !play_app.
        -- rewrite Forall_app. split; [done | by apply Hweaken].
        -- rewrite !List.filter_app, !length_app in *. cbn [length]. lia.
    + unfold ret.
      destruct (IH (S i)
                  {| ls_successful := ls_successful st;
                     ls_failed := ls_failed st ++ [(fileName, message)];
                     ls_skipped := ls_skipped st;
                     uploadedInSession := uploadedInSession st |} (play upload w0))
        as (events & st' & Hloop & Hall & Hcount); [by rewrite ai_play |].
      exists ((progressEvents onProgress (i + 1) total fileName ++ upload) ++ events), st'.
      split_and!.
      * rewrite Hloop. unfold w0. by rewrite !play_app.
      * rewrite Forall_app. split; [done | by apply Hweaken].
      * rewrite !List.filter_app, !length_app in *. cbn [length]. lia.
Qed.

End Submissions.

(** X20.  Every submission of a directory run goes to the store given,
    for a file of the upload set, under the base name and the content
    type of its path: a supported first occurrence of the listing that,
    in resume mode, the ledger does not hold.  There are at most five
    submissions per file of the upload set. *)
Theorem run_submits_only_its_upload_set {lib : NodeLib} (ragStoreName directoryPath : string)
    (onProgress resumeMode : bool) (entries : list string) (w : World) :
  ai w = true →
  fs_readdir w directoryPath = Some entries →
  List.filter isSupported entries ≠ [] →
  let toUpload := toUploadOf w ragStoreName (List.filter isSupported entries) resumeMode in
  let w' := (uploadDirectoryToRagStore ragStoreName directoryPath onProgress resumeMode w).1 in
  ∃ events,
    trace w' = trace w ++ events
    ∧ (∀ e, e ∈ events → isSubmit e = true →
            ∃ f, e = submissionOf ragStoreName (path_join directoryPath f)
                 ∧ f ∈ toUpload
                 ∧ f ∈ entries ∧ isSupported f = true
                 ∧ (resumeMode = true → f ∉ ledgerOf w ragStoreName))
    ∧ submissions w' ≤ submissions w + maxRetries * length toUpload.
Proof.
  intros Hai Hdir Hsome toUpload w'.
  destruct (computeUploadSet_run ragStoreName (List.filter isSupported entries)
              resumeMode w) as (saves & Hsaves & Hplan).
  fold toUpload in Hplan.
  destruct (uploadLoop_submissions ragStoreName directoryPath onProgress (length toUpload)
              toUpload 0
              {| ls_successful := []; ls_failed := [];
                 ls_skipped := skippedOf w ragStoreName (List.filter isSupported entries)
                                 resumeMode;
                 uploadedInSession := [] |} (play saves w))
    as (events & st' & Hloop & Hall & Hcount); [by rewrite ai_play |].
  assert (w' = play (saves ++ events) w) as ->.
  { unfold w', uploadDirectoryToRagStore, bind, require_ai, readdirSync.
    rewrite Hai, Hdir.
    destruct (List.filter isSupported entries) as [| x l] eqn:Hfilter; [done |].
    cbn [length Nat.eqb]. rewrite Hplan. fold toUpload. rewrite Hloop.
    by rewrite play_app. }
  exists (saves ++ events). split_and!.
  - apply trace_play.
  - intros e He Hs. apply elem_of_app in He as [He | He].
    + apply saves_no_submit in Hsaves. rewrite Forall_forall in Hsaves.
      specialize (Hsaves e He). congruence.
    + rewrite Forall_forall in Hall. destruct (Hall e He Hs) as (f & Hf & ->).
      exists f. split; [done |]. split; [done |].
      unfold toUpload, toUploadOf in Hf. apply list_elem_of_filter in Hf as [Hnew Hf].
      rewrite elem_of_firstOccurrences in Hf. apply elem_of_List_filter in Hf as [Hin Hsup].
      split_and!; [done | done |]. intros -> Hold. apply Hnew. by split.
  - rewrite submissions_play, List.filter_app, length_app.
    rewrite (no_submit_filter saves) by (by apply saves_no_submit). cbn [length]. lia.
Qed.

Lemma run_submits_only_its_upload_set_witness :
  submissions (uploadDirectoryToRagStore (lib := posix) "store" "docs" true false
                 fiveDocsWorld).1
  ≤ submissions fiveDocsWorld
    + maxRetries
      * length (toUploadOf fiveDocsWorld "store"
                  (List.filter (isSupported (lib := posix))
                     ["d1.txt"; "d2.txt"; "d3.txt"; "d4.txt"; "d5.txt"]) false).
Proof.
  destruct (run_submits_only_its_upload_set (lib := posix) "store" "docs" true false
              ["d1.txt"; "d2.txt"; "d3.txt"; "d4.txt"; "d5.txt"] fiveDocsWorld
              eq_refl eq_refl fiveDocs_supported) as (events & _ & _ & Hcount).
  exact Hcount.
Defined.

(** ** The parsed answer of the question generator *)

Section ParsedAnswerFacts.

Context {Num : Type} (numberIsFalsy : Num → bool).

Implicit Types (items values : list (Json Num)) (questions : list string).

Lemma stringsOf_strings questions : stringsOf (Num := Num) (JString <$> questions) = questions.
Proof. induction questions as [| q questions IH]; [done |]. cbn. f_equal. exact IH. Qed.

Lemma stringsOf_app values1 values2 :
  stringsOf (values1 ++ values2) = stringsOf values1 ++ stringsOf values2.
Proof. apply omap_app. Qed.

Lemma documentAnswer_questions document questions :
  questionsProperty (documentAnswer (Num := Num) document questions)
  = Ok (Some (JArray (JString <$> questions))).
Proof.
  unfold documentAnswer, questionsProperty. reflexivity.
Qed.

Lemma documentAnswer_hasQuestionsArray document questions :
  hasQuestionsArray (documentAnswer (Num := Num) document questions) = true.
Proof.
  unfold documentAnswer, hasQuestionsArray. reflexivity.
Qed.

Lemma flatMapQuestions_documents (docs : list (string * list string)) :
  flatMapQuestions numberIsFalsy ((λ d : string * list string, documentAnswer d.1 d.2) <$> docs)
  = Ok (concat ((λ d : string * list string, JString <$> d.2) <$> docs)).
Proof.
  induction docs as [| d docs IH]; [done |].
  rewrite fmap_cons. cbn [flatMapQuestions].
  by rewrite documentAnswer_questions, IH.
Qed.

Lemma flatMapQuestions_null items :
  JNull ∈ items → ∃ e, flatMapQuestions numberIsFalsy items = Throw e.
Proof.
  induction items as [| item items IH]; intros Hin; [by apply elem_of_nil in Hin |].
  cbn [flatMapQuestions]. apply elem_of_cons in Hin as [<- | Hin]; [by eexists |].
  destruct (questionsProperty item) as [v | e]; [| by eexists].
  destruct (IH Hin) as [e ->]. by eexists.
Qed.

Lemma stringsOf_documents (docs : list (string * list string)) :
  stringsOf (Num := Num) (concat ((λ d : string * list string, JString <$> d.2) <$> docs)) = concat docs.*2.
Proof.
  induction docs as [| d docs IH]; [done |].
  rewrite !fmap_cons, !concat_cons, stringsOf_app, IH. f_equal.
  apply stringsOf_strings.
Qed.

End ParsedAnswerFacts.

(** X21.  Reading the parsed answer of the question generator: an array
    of strings is returned as it is; an array with one object per
    document gives the documents' questions in order; a single [null]
    entry after a document makes the whole answer empty, because reading
    its [questions] throws; anything that is not an array gives no
    question. *)
Theorem parsed_answer_formats {Num : Type} (numberIsFalsy : Num → bool) :
  (∀ first rest,
     questionsOfParsedData numberIsFalsy (JArray (JString <$> first :: rest)) = first :: rest)
  ∧ (∀ docs : list (string * list string),
       questionsOfParsedData numberIsFalsy
         (JArray ((λ d : string * list string, documentAnswer d.1 d.2) <$> docs))
       = concat docs.*2)
  ∧ (∀ document questions rest,
       JNull ∈ rest →
       questionsOfParsedData numberIsFalsy
         (JArray (documentAnswer document questions :: rest)) = [])
  ∧ (∀ parsedData,
       (∀ items, parsedData ≠ JArray items) →
       questionsOfParsedData numberIsFalsy parsedData = []).
Proof.
  split_and!.
  - intros first rest. rewrite fmap_cons. cbn [questionsOfParsedData hasQuestionsArray].
    change (JString first :: (JString <$> rest)) with (JString (Num := Num) <$> first :: rest).
    apply stringsOf_strings.
  - intros [| d docs]; [done |].
    pose proof (flatMapQuestions_documents numberIsFalsy (d :: docs)) as Hflat.
    rewrite fmap_cons in Hflat |- *. cbn [questionsOfParsedData].
    rewrite documentAnswer_hasQuestionsArray, Hflat.
    apply (stringsOf_documents (d :: docs)).
  - intros document questions rest Hnull. cbn [questionsOfParsedData].
    rewrite documentAnswer_hasQuestionsArray.
    destruct (flatMapQuestions_null numberIsFalsy
                (documentAnswer document questions :: rest)) as [e ->]; [by right | done].
  - intros parsedData Hno. destruct parsedData as [| | | | items |]; try done.
    by destruct (Hno items).
Qed.

Lemma null_entry : JNull (Num := Z) ∈ [JNull (Num := Z)].
Proof. apply list_elem_of_here. Qed.

Lemma parsed_answer_formats_witness :
  questionsOfParsedData (λ n : Z, Z.eqb n 0)
    (JArray [documentAnswer "Japan Defense Strategy 2022" ["What changed?"]; JNull])
  = [].
Proof.
  exact (proj1 (proj2 (proj2 (parsed_answer_formats (λ n : Z, Z.eqb n 0))))
           "Japan Defense Strategy 2022" ["What changed?"] [JNull] null_entry).
Defined.

Lemma clear_forgets_one_store_witness :
  entryOf (clearUploadTracker "store" (recordAll [("store", "a.txt")] freshWorld).1).1 "store"
  = None.
Proof.
  exact (proj1 (proj2 (proj2
    (clear_forgets_one_store [("store", "a.txt")] "store" "other" freshWorld)) eq_refl)).
Defined.

(** ** The client's line buffer *)

Section LineBuffer.

Implicit Types (s t current : string) (chunks : list string).

Lemma splitLines_nonempty current s : splitLines current s ≠ [].
Proof.
  revert current. induction s as [| c s IH]; intros current; [done |].
  cbn [splitLines]. destruct (Ascii.eqb c newline); [done | apply IH].
Qed.

Lemma removelast_cons {A} (x : A) (l : list A) : l ≠ [] → removelast (x :: l) = x :: removelast l.
Proof. by destruct l. Qed.

Lemma last_cons_nonempty {A} (x : A) (l : list A) : l ≠ [] → last (x :: l) = last l.
Proof. by destruct l. Qed.

Lemma append_cons (c : Ascii.ascii) s t : String c s +:+ t = String c (s +:+ t).
Proof. reflexivity. Qed.

Lemma append_assoc s t u : (s +:+ t) +:+ u = s +:+ (t +:+ u).
Proof. induction s as [| c s IH]; [done |]. by rewrite !append_cons, IH. Qed.

(** Splitting a text that arrives in two parts. *)
Lemma splitLines_app current s t :
  splitLines current (s +:+ t)
  = removelast (splitLines current s)
    ++ splitLines (default "" (last (splitLines current s))) t.
Proof.
  revert current. induction s as [| c s IH]; intros current; [done |].
  rewrite append_cons. cbn [splitLines]. destruct (Ascii.eqb c newline).
  - rewrite IH, removelast_cons, last_cons_nonempty by apply splitLines_nonempty. done.
  - apply IH.
Qed.

Lemma append_nil_r s : s +:+ "" = s.
Proof. induction s as [| c s IH]; [done |]. by rewrite append_cons, IH. Qed.

Lemma readStream_snoc chunks chunk :
  readStream (chunks ++ [chunk]) = readChunk (readStream chunks) chunk.
Proof. unfold readStream. by rewrite foldl_app. Qed.

Lemma concat_strings_snoc chunks chunk :
  foldr String.append "" (chunks ++ [chunk]) = foldr String.append "" chunks +:+ chunk.
Proof.
  induction chunks as [| c chunks IH].
  - cbn [app foldr]. by rewrite append_nil_r.
  - cbn [app foldr]. by rewrite IH, append_assoc.
Qed.

(** The pieces between line feeds hold no line feed. *)
Lemma splitLines_pieces current s :
  hasNewline current = false →
  Forall (λ piece, hasNewline piece = false) (splitLines current s).
Proof.
  revert current. induction s as [| c s IH]; intros current Hfree.
  - by apply Forall_singleton.
  - cbn [splitLines]. destruct (Ascii.eqb c newline) eqn:Hc.
    + apply Forall_cons. split; [done |]. by apply IH.
    + apply IH. clear IH. induction current as [| a current IHc].
      * change ("" +:+ String c "") with (String c ""). cbn. by rewrite Hc.
      * rewrite append_cons. cbn in *.
        apply orb_false_iff in Hfree as [-> Hfree]. by apply IHc.
Qed.

(** A buffer without line feed in front of a chunk is the start of the
    chunk's first line. *)
Lemma splitLines_buffer current buffer t :
  hasNewline buffer = false →
  splitLines current (buffer +:+ t) = splitLines (current +:+ buffer) t.
Proof.
  revert current. induction buffer as [| c buffer IH]; intros current Hfree.
  - by rewrite append_nil_r.
  - cbn in Hfree. apply orb_false_iff in Hfree as [Hc Hfree].
    rewrite append_cons. cbn [splitLines]. rewrite Hc, IH by done.
    by rewrite append_assoc.
Qed.

Lemma last_piece_free s : hasNewline (default "" (last (splitLines "" s))) = false.
Proof.
  pose proof (splitLines_pieces "" s eq_refl) as Hall.
  destruct (last (splitLines "" s)) as [piece |] eqn:Hlast; [| done].
  rewrite Forall_forall in Hall. apply Hall. by eapply last_Some_elem_of.
Qed.

End LineBuffer.

(** X22.  The client's reader hands to the message handler exactly the
    ["data: "] lines of the text received so far that are ended by a line
    feed, in order, and keeps the unfinished last line in its buffer,
    however the text was cut into chunks.  A last line without line feed
    is never handled. *)
Theorem stream_lines_ignore_chunking (chunks : list string) :
  let text := foldr String.append "" chunks in
  readStream chunks
  = (List.filter isDataLine (removelast (splitLines "" text)),
     default "" (last (splitLines "" text))).
Proof.
  induction chunks as [| chunk chunks IH] using rev_ind; [done |].
  cbn zeta in *. rewrite readStream_snoc, IH, concat_strings_snoc.
  set (text := foldr String.append "" chunks).
  cbn [readChunk].
  rewrite (splitLines_buffer "" (default "" (last (splitLines "" text)))) by apply last_piece_free.
  rewrite (splitLines_app "" text chunk).
  change ("" +:+ default "" (last (splitLines "" text)))
    with (default "" (last (splitLines "" text))).
  set (complete := removelast (splitLines "" text)).
  set (pieces := splitLines (default "" (last (splitLines "" text))) chunk).
  assert (pieces ≠ []) as Hne by apply splitLines_nonempty.
  rewrite removelast_app by done. rewrite List.filter_app. f_equal.
  rewrite last_app. destruct (last pieces) eqn:Hlast; [done |].
  by apply last_None in Hlast.
Qed.

(** ** Deleting all stores *)

Section DeleteAll.

Lemma deleteEach_run (l : list Store) :
  ∀ w,
    deleteEach l w
    = (play ((λ s, EvDeleteStore (name s)) <$> deletable w l) w, Ok tt).
Proof.
  induction l as [| s l IH]; intros w; [done |].
  cbn [deleteEach]. unfold bind, try_catch, fileSearchStores_delete, deletable.
  cbn [List.filter]. destruct (delete_fails w (name s)) eqn:Hdel; cbn [negb].
  - unfold ret. apply IH.
  - unfold perform. rewrite IH, fmap_cons, play_cons. reflexivity.
Qed.

Lemma deletions_frame (names : list string) w :
  tracker_file (play (EvDeleteStore <$> names) w) = tracker_file w
  ∧ stores (play (EvDeleteStore <$> names) w) = removeNamed names (stores w).
Proof.
  revert w. induction names as [| n names IH]; intros w.
  - by rewrite removeNamed_nil.
  - rewrite fmap_cons, play_cons. destruct (IH (happen w (EvDeleteStore n))) as [-> ->].
    split; [done |]. by rewrite removeNamed_cons.
Qed.

End DeleteAll.

(** X23.  The script that deletes all stores removes every store whose
    deletion the service accepts and keeps going after a refusal; it
    cannot fail once the listing succeeded, and it never touches the
    upload ledger, so the entries of the deleted stores stay.  If the
    listing fails, nothing is deleted. *)
Theorem delete_all_keeps_the_ledger (w : World) :
  let w' := (deleteAllStores w).1 in
  (list_fails w = true → deleteAllStores w = (w, Throw "fileSearchStores.list failed"))
  ∧ (list_fails w = false →
     (deleteAllStores w).2 = Ok tt
     ∧ stores w' = removeNamed (name <$> deletable w (stores w)) (stores w)
     ∧ (∀ s, s ∈ stores w' ↔ s ∈ stores w ∧ name s ∉ name <$> deletable w (stores w))
     ∧ ((∀ n, delete_fails w n = false) → stores w' = [])
     ∧ tracker_file w' = tracker_file w).
Proof.
  intros w'. split.
  - intros Hlist. unfold deleteAllStores, bind, fileSearchStores_list. by rewrite Hlist.
  - intros Hlist.
    assert (deleteAllStores w
            = (play (EvDeleteStore <$> (name <$> deletable w (stores w))) w, Ok tt)) as Hrun.
    { unfold deleteAllStores, bind, fileSearchStores_list. rewrite Hlist.
      destruct (stores w) as [| s l] eqn:Hstores; [done |]. cbn [length Nat.eqb].
      rewrite deleteEach_run. by rewrite <- list_fmap_compose. }
    unfold w'. rewrite Hrun. cbn [fst snd].
    destruct (deletions_frame (name <$> deletable w (stores w)) w) as [Htracker Hstores].
    split_and!; [done | done | | | done].
    + intros s. rewrite Hstores. apply elem_of_removeNamed.
    + intros Hall. rewrite Hstores. apply elem_of_nil_inv. intros s Hs.
      apply elem_of_removeNamed in Hs as [Hs Hout]. apply Hout.
      apply list_elem_of_fmap. exists s. split; [done |].
      unfold deletable. apply elem_of_List_filter. split; [done |]. by rewrite Hall.
Qed.

Lemma delete_all_keeps_the_ledger_witness :
  (deleteAllStores stubbornWorld).2 = Ok tt
  ∧ tracker_file (deleteAllStores stubbornWorld).1 = tracker_file stubbornWorld.
Proof.
  destruct (proj2 (delete_all_keeps_the_ledger stubbornWorld) eq_refl)
    as (Hok & _ & _ & _ & Hledger).
  split; [exact Hok | exact Hledger].
Defined.
